(** * MeshSync scene graph: a shallow embedding of [msSceneGraph.cpp]

    The scene container of MeshSync ([ms::Scene]) and its tree-wide
    algorithms: hash-validated serialization, strip / merge / diff / lerp,
    unit normalisation ([import]), hierarchy construction and flattening.

    Modelling choices.
    - Entities and assets are held through [std::shared_ptr]; the objects
      live in a store ([World]) and a scene holds locations, [None] being
      the null pointer.  An operation that dereferences a null or dangling
      pointer has no defined result ([Undef]).
    - A member function that mutates its receiver takes the receiver and
      returns the new one; a scene passed by reference is a value; a C++
      exception is the outcome [Throw].
    - The per-kind behaviour of entities, assets and converters, the matrix
      product, [std::sort] and the field encodings are not part of this
      translation unit; they are the members of the classes
      [Collaborators], [ScalarCodec] and [Codec], and what a statement
      needs of them is one of its premises.
    - [parallel_for] and its variants run their body once per index.  The
      bodies of [clone], [diff] and [lerp] write only their own slot and
      objects they have just created.  Those of [strip], [merge] and
      [buildHierarchy] write the object behind their own slot; the loop is
      modelled in index order, which is the result of every schedule when
      no task touches an object that another task writes, and the
      statements about their results are on scenes whose entity slots
      hold distinct objects.  The tasks of [import] write
      the object their element points to; there two elements that share
      an object which the tasks write are a data race, with no defined
      result ([parallel_for_each]).
    - [float] is IEEE-754 binary32, through the parametric operations of
      [SpecFloat] at precision 24 and maximal exponent 128. *)

From Stdlib Require Import ZArith String Ascii List Lia Permutation Sorted.
From Stdlib Require Import OrdersEx HexadecimalString HexadecimalNat.
From Stdlib Require Import SpecFloat.
From stdpp Require Import base tactics option list.

Import ListNotations.
Local Open Scope Z_scope.
Local Open Scope list_scope.

#[global] Instance string_eq_decision : EqDecision string := string_dec.

(** ** Scalars *)

Definition float : Type := spec_float.
Definition float_zero : float := S754_zero false.
Definition float_one : float := S754_finite false 8388608 (-23).
(** [a != b] on binary32 values. *)
Definition float_ne (a b : float) : bool := negb (SFeqb a b).
Definition float_div (a b : float) : float := SFdiv 24 128 a b.

(** [uint64_t] arithmetic wraps. *)
Definition wrap64 (z : Z) : Z := z mod 2 ^ 64.

(** A location of the store. *)
Abbreviation loc := nat (only parsing).

(** ** Enumerations *)

Module Handedness.
Inductive t := Left | Right | LeftZUp | RightZUp.
Definition eqb (a b : t) : bool :=
  match a, b with
  | Left, Left | Right, Right | LeftZUp, LeftZUp | RightZUp, RightZUp => true
  | _, _ => false
  end.
End Handedness.

Module EntityType.
Inductive t := Unknown | Transform | Camera | Light | Mesh | Points.
Definition eqb (a b : t) : bool :=
  match a, b with
  | Unknown, Unknown | Transform, Transform | Camera, Camera
  | Light, Light | Mesh, Mesh | Points, Points => true
  | _, _ => false
  end.
End EntityType.

Module AssetType.
Inductive t := Unknown | File | Animation | Texture | Material | Audio.
Definition eqb (a b : t) : bool :=
  match a, b with
  | Unknown, Unknown | File, File | Animation, Animation
  | Texture, Texture | Material, Material | Audio, Audio => true
  | _, _ => false
  end.
End AssetType.

Module ZUpCorrectionMode.
(** The source names [FlipYZ] and [RotateX]; [Other] stands for any
    further value of the enumeration. *)
Inductive t := FlipYZ | RotateX | Other.
End ZUpCorrectionMode.

(** ** The types the scene graph is parametric in *)

Class Domain := {
  float4x4 : Type;
  (** what an entity holds beyond the members this file reads or writes *)
  EntityData : Type;
  AssetData : Type;
  AnimationData : Type;
  Constraint : Type;
  Buffer : Type;
}.

(** ** Streams

    An output stream is the list of bytes written so far, an input stream
    the list of bytes still to read.  [write] and [read] of the scalar
    members are those of the serialization header, which this translation
    unit only includes. *)

Definition stream : Type := list Byte.byte.

Class ScalarCodec := {
  write_uint64 : Z -> stream;
  read_uint64 : stream -> Z * stream;
  write_string : string -> stream;
  read_string : stream -> string * stream;
  write_handedness : Handedness.t -> stream;
  read_handedness : stream -> Handedness.t * stream;
  write_float : float -> stream;
  read_float : stream -> float * stream;
}.

Module SceneSettings.
Record t := mk {
  name : string;
  handedness : Handedness.t;
  scale_factor : float;
}.
(** [SceneSettings{}]: the default member initialisers. *)
Definition default : t := mk "" Handedness.Left float_one.

Section IO.
Context `{ScalarCodec}.
(** [SceneSettings::serialize]: name, handedness, scale_factor. *)
Definition serialize (os : stream) (this : t) : stream :=
  let os := os ++ write_string (name this) in
  let os := os ++ write_handedness (handedness this) in
  os ++ write_float (scale_factor this).
(** [SceneSettings::deserialize] *)
Definition deserialize (ins : stream) : t * stream :=
  let '(n, ins) := read_string ins in
  let '(h, ins) := read_handedness ins in
  let '(f, ins) := read_float ins in
  (mk n h f, ins).
End IO.
End SceneSettings.

Module SceneImportSettings.
Record t := mk {
  mesh_split_unit : Z;
  mesh_max_bone_influence : Z;
  zup_correction_mode : ZUpCorrectionMode.t;
}.
End SceneImportSettings.

Module Transform.
Section Def.
Context `{Domain}.
(** The members of an entity that the scene graph touches.  The last
    four groups belong to [Mesh]; they sit in one record with the
    dynamic type [type] telling which entity kind it is. *)
Record t := mk {
  id : Z;
  path : string;
  reference : string;
  parent : option loc;
  local_matrix : float4x4;
  global_matrix : float4x4;
  type : EntityType.t;
  constant_topology : bool;
  bones : list string;
  refine_split : bool;
  refine_split_unit : Z;
  refine_max_bone_influence : Z;
  data : EntityData;
}.

Definition set_path (p : string) (e : t) : t :=
  mk (id e) p (reference e) (parent e) (local_matrix e) (global_matrix e)
     (type e) (constant_topology e) (bones e) (refine_split e)
     (refine_split_unit e) (refine_max_bone_influence e) (data e).
Definition set_reference (p : string) (e : t) : t :=
  mk (id e) (path e) p (parent e) (local_matrix e) (global_matrix e)
     (type e) (constant_topology e) (bones e) (refine_split e)
     (refine_split_unit e) (refine_max_bone_influence e) (data e).
Definition set_parent (p : option loc) (e : t) : t :=
  mk (id e) (path e) (reference e) p (local_matrix e) (global_matrix e)
     (type e) (constant_topology e) (bones e) (refine_split e)
     (refine_split_unit e) (refine_max_bone_influence e) (data e).
Definition set_local_matrix (m : float4x4) (e : t) : t :=
  mk (id e) (path e) (reference e) (parent e) m (global_matrix e)
     (type e) (constant_topology e) (bones e) (refine_split e)
     (refine_split_unit e) (refine_max_bone_influence e) (data e).
Definition set_global_matrix (m : float4x4) (e : t) : t :=
  mk (id e) (path e) (reference e) (parent e) (local_matrix e) m
     (type e) (constant_topology e) (bones e) (refine_split e)
     (refine_split_unit e) (refine_max_bone_influence e) (data e).
Definition set_bones (b : list string) (e : t) : t :=
  mk (id e) (path e) (reference e) (parent e) (local_matrix e)
     (global_matrix e) (type e) (constant_topology e) b (refine_split e)
     (refine_split_unit e) (refine_max_bone_influence e) (data e).
Definition set_refine_settings (split : bool) (unit_ infl : Z) (e : t) : t :=
  mk (id e) (path e) (reference e) (parent e) (local_matrix e)
     (global_matrix e) (type e) (constant_topology e) (bones e) split
     unit_ infl (data e).
Definition set_data (d : EntityData) (e : t) : t :=
  mk (id e) (path e) (reference e) (parent e) (local_matrix e)
     (global_matrix e) (type e) (constant_topology e) (bones e)
     (refine_split e) (refine_split_unit e) (refine_max_bone_influence e) d.
End Def.
End Transform.

Module Animation.
Section Def.
Context `{Domain}.
Record t := mk { path : string; data : AnimationData }.
Definition set_path (p : string) (a : t) : t := mk p (data a).
End Def.
End Animation.

Module Asset.
Section Def.
Context `{Domain}.
(** [animations] is the channel list of an [AnimationClip]. *)
Record t := mk {
  type : AssetType.t;
  animations : list Animation.t;
  data : AssetData;
}.
Definition set_animations (l : list Animation.t) (a : t) : t :=
  mk (type a) l (data a).
End Def.
End Asset.

(** ** Converters *)

Module EntityConverter.
Inductive t :=
| ScaleConverter (scale : float)
| FlipX_HandednessCorrector
| FlipYZ_ZUpCorrector
| RotateX_ZUpCorrector.
End EntityConverter.

(** ** What the collaborators provide *)

Class Collaborators `{Domain} := {
  (** [Entity]: each takes the receiver first and returns it updated *)
  ent_clone : bool -> Transform.t -> Transform.t;
  ent_strip : Transform.t -> Transform.t -> Transform.t;
  ent_merge : Transform.t -> Transform.t -> Transform.t;
  ent_diff : Transform.t -> Transform.t -> Transform.t -> Transform.t;
  ent_lerp : Transform.t -> Transform.t -> Transform.t -> float -> Transform.t;
  ent_hash : Transform.t -> Z;
  isGeometry : Transform.t -> bool;
  toMatrix : Transform.t -> float4x4;
  (** [getParentPath(dst)] and [getName(dst)] write their result to an
      out-parameter; the second argument is what [dst] held before. *)
  getParentPath : Transform.t -> string -> string;
  getName : Transform.t -> string -> string;
  (** [Mesh] *)
  mesh_refine : Transform.t -> Transform.t;
  mesh_updateBounds : Transform.t -> Transform.t;
  (** [Asset] *)
  asset_hash : Asset.t -> Z;
  (** [EntityConverter::convert], on an entity and on an animation *)
  convert_entity : EntityConverter.t -> Transform.t -> Transform.t;
  convert_animation : EntityConverter.t -> Animation.t -> Animation.t;
  (** [float4x4::operator*] *)
  mat_mul : float4x4 -> float4x4 -> float4x4;
  (** [std::sort] on a vector of entity pointers with a comparator *)
  std_sort : (option loc -> option loc -> bool) ->
             list (option loc) -> list (option loc);
}.

(** [write] and [read] of the collection members: count-prefixed
    sequences of self-describing elements. *)
Class Codec `{Domain} := {
  write_assets : list Asset.t -> stream;
  read_assets : stream -> list Asset.t * stream;
  write_entities : list Transform.t -> stream;
  read_entities : stream -> list Transform.t * stream;
  write_constraints : list Constraint -> stream;
  read_constraints : stream -> list Constraint * stream;
}.

(** ** The store and the outcome of an operation *)

Section Store.
Context `{Domain}.

Record World := mkWorld {
  entity_heap : list Transform.t;
  asset_heap : list Asset.t;
  error_log : list string;
}.

Inductive Res (A : Type) :=
| Ok (a : A) (w : World)
| Throw (what : string) (w : World)
| Undef.
Global Arguments Ok {A} a w.
Global Arguments Throw {A} what w.
Global Arguments Undef {A}.

Definition M (A : Type) : Type := World -> Res A.

Definition ret {A} (a : A) : M A := fun w => Ok a w.
Definition bind {A B} (m : M A) (k : A -> M B) : M B :=
  fun w => match m w with
           | Ok a w' => k a w'
           | Throw s w' => Throw s w'
           | Undef => Undef
           end.
Definition throw {A} (what : string) : M A := fun w => Throw what w.
Definition undefined {A} : M A := fun _ => Undef.
End Store.

Notation "x <- c1 ;; c2" := (bind c1 (fun x => c2))
  (at level 100, c1 at next level, right associativity).
Notation "c1 ;;; c2" := (bind c1 (fun _ => c2))
  (at level 100, right associativity).

Section StoreOps.
Context `{Domain}.

(** [*p] for an entity pointer. *)
Definition deref (p : option loc) : M Transform.t := fun w =>
  match p with
  | Some l => match entity_heap w !! l with
              | Some e => Ok e w
              | None => Undef
              end
  | None => Undef
  end.

(** Assignment through a valid entity pointer. *)
Definition store (l : loc) (e : Transform.t) : M unit := fun w =>
  match entity_heap w !! l with
  | Some _ => Ok tt (mkWorld (<[l := e]> (entity_heap w)) (asset_heap w) (error_log w))
  | None => Undef
  end.

(** A new entity object. *)
Definition alloc (e : Transform.t) : M loc := fun w =>
  Ok (length (entity_heap w))
     (mkWorld (entity_heap w ++ [e]) (asset_heap w) (error_log w)).

Definition deref_asset (p : option loc) : M Asset.t := fun w =>
  match p with
  | Some l => match asset_heap w !! l with
              | Some a => Ok a w
              | None => Undef
              end
  | None => Undef
  end.

Definition store_asset (l : loc) (a : Asset.t) : M unit := fun w =>
  match asset_heap w !! l with
  | Some _ => Ok tt (mkWorld (entity_heap w) (<[l := a]> (asset_heap w)) (error_log w))
  | None => Undef
  end.

Definition alloc_asset (a : Asset.t) : M loc := fun w =>
  Ok (length (asset_heap w))
     (mkWorld (entity_heap w) (asset_heap w ++ [a]) (error_log w)).

Definition msLogError (msg : string) : M unit := fun w =>
  Ok tt (mkWorld (entity_heap w) (asset_heap w) (error_log w ++ [msg])).

(** [v[i]] on a [std::vector]. *)
Definition at_ {A} (v : list A) (i : nat) : M A := fun w =>
  match v !! i with
  | Some x => Ok x w
  | None => Undef
  end.

(** A loop that threads a value through its iterations. *)
Fixpoint for_each {A S} (body : A -> S -> M S) (l : list A) (s : S) : M S :=
  match l with
  | [] => ret s
  | x :: l' => s' <- body x s ;; for_each body l' s'
  end.

(** The same loop collecting one result per element. *)
Fixpoint map_m {A B} (f : A -> M B) (l : list A) : M (list B) :=
  match l with
  | [] => ret []
  | x :: l' => y <- f x ;; ys <- map_m f l' ;; ret (y :: ys)
  end.

(** [parallel_for(first, last, granularity, body)]. *)
Definition parallel_for {S} (first last : nat) (body : nat -> S -> M S) (s : S) : M S :=
  for_each body (seq first (last - first)) s.

(** [parallel_for_blocked(first, last, granularity, body)]: the body
    receives the consecutive blocks [begin, end) of [granularity] indices
    (the last one may be shorter). *)
Fixpoint block_starts_from (fuel first last granularity : nat) : list nat :=
  match fuel with
  | O => []
  | S fuel' =>
      if Nat.ltb first last
      then first :: block_starts_from fuel' (first + granularity) last granularity
      else []
  end.
Definition block_starts (first last granularity : nat) : list nat :=
  block_starts_from (last - first) first last granularity.
Definition parallel_for_blocked {S} (first last granularity : nat)
    (body : nat -> nat -> S -> M S) (s : S) : M S :=
  for_each (fun b s => body b (Nat.min (b + granularity) last) s)
           (block_starts first last granularity) s.

(** The number of elements of a pointer vector equal to [p]. *)
Definition occurrences (p : option loc) (ptrs : list (option loc)) : nat :=
  length (List.filter (fun q => bool_decide (q = p)) ptrs).

(** The element [p] points to an object that its task writes and that
    another element points to as well. *)
Definition shared_write (writes : Transform.t -> bool)
    (heap : list Transform.t) (ptrs : list (option loc))
    (p : option loc) : bool :=
  match p with
  | Some l =>
      match heap !! l with
      | Some v => writes v && Nat.ltb 1 (occurrences p ptrs)
      | None => false
      end
  | None => false
  end.

(** [parallel_for_each(first, last, body)] on a vector of entity
    pointers, where the task of an element works on the object the
    element points to and on nothing else; [writes] tells of an object
    whether its task writes it.  Two tasks that write the same object
    are unsynchronised: a data race, which has no defined result.
    Without one, no task touches what another writes, and the tasks are
    run in the order of the elements. *)
Definition parallel_for_each (writes : Transform.t -> bool)
    (body : option loc -> M unit) (ptrs : list (option loc)) : M unit :=
  fun w =>
    if existsb (shared_write writes (entity_heap w) ptrs) ptrs then Undef
    else for_each (fun p (_ : unit) => body p) ptrs tt w.
End StoreOps.

(** ** Scene *)

(** [std::string::operator<]: lexicographic on the bytes. *)
Definition str_lt (a b : string) : bool :=
  match String_as_OT.compare a b with
  | Lt => true
  | _ => false
  end.

(** [sprintf(buf, "%x", i)] for [i >= 0]. *)
Definition hex (i : nat) : string :=
  NilZero.string_of_uint (Nat.to_hex_uint i).

(** [std::lower_bound] on a range partitioned by [below]: the position of
    the first element that is not below the value sought. *)
Fixpoint lower_bound {A} (below : A -> bool) (l : list A) : nat :=
  match l with
  | [] => 0%nat
  | x :: l' => if below x then S (lower_bound below l') else 0%nat
  end.

(** ** [std::map<std::string, TransformPtr>]: entries in ascending key order *)

Module StringMap.
Definition t : Type := list (string * option loc).

Fixpoint find (k : string) (m : t) : option (option loc) :=
  match m with
  | [] => None
  | (k', v) :: m' => if String.eqb k k' then Some v else find k m'
  end.

(** [m[k] = v] *)
Fixpoint insert (k : string) (v : option loc) (m : t) : t :=
  match m with
  | [] => [(k, v)]
  | (k', v') :: m' =>
      if String.eqb k k' then (k, v) :: m'
      else if str_lt k k' then (k, v) :: (k', v') :: m'
      else (k', v') :: insert k v m'
  end.

(** [!m[k]]: the slot of [k] is absent or holds a null pointer.  (Reading
    [m[k]] of an absent key creates a null slot, which the caller then
    fills.) *)
Definition vacant (k : string) (m : t) : bool :=
  match find k m with
  | Some (Some _) => false
  | _ => true
  end.
End StringMap.

Module Scene.
Section Def.
Context {D : Domain} {C : Collaborators} {SC : ScalarCodec} {CC : Codec}.

Record t := mk {
  settings : SceneSettings.t;
  assets : list (option loc);
  entities : list (option loc);
  constraints : list Constraint;
  scene_buffers : list Buffer;
}.

Definition set_settings (x : SceneSettings.t) (s : t) : t :=
  mk x (assets s) (entities s) (constraints s) (scene_buffers s).
Definition set_assets (x : list (option loc)) (s : t) : t :=
  mk (settings s) x (entities s) (constraints s) (scene_buffers s).
Definition set_entities (x : list (option loc)) (s : t) : t :=
  mk (settings s) (assets s) x (constraints s) (scene_buffers s).
Definition set_constraints (x : list Constraint) (s : t) : t :=
  mk (settings s) (assets s) (entities s) x (scene_buffers s).

(** [Scene::Scene()] *)
Definition empty : t := mk SceneSettings.default [] [] [] [].

(** [p->member = ...] through an entity pointer. *)
Definition store_at (p : option loc) (e : Transform.t) : M unit :=
  match p with
  | Some l => store l e
  | None => undefined
  end.

(** [Scene::hash] *)
Definition hash (this : t) : M Z :=
  r <- for_each (fun a r => v <- deref_asset a ;;
                            ret (wrap64 (r + asset_hash v)))
                (assets this) 0 ;;
  for_each (fun e r => v <- deref e ;; ret (wrap64 (r + ent_hash v)))
           (entities this) r.

(** [Scene::strip] *)
Definition strip (base : t) (this : t) : M t :=
  let entity_count := length (entities this) in
  if Nat.eqb entity_count (length (entities base)) then
    parallel_for 0 entity_count (fun ei this =>
      ecur <- at_ (entities this) ei ;;
      ebase <- at_ (entities base) ei ;;
      vcur <- deref ecur ;;
      vbase <- deref ebase ;;
      if Z.eqb (Transform.id vcur) (Transform.id vbase) then
        store_at ecur (ent_strip vcur vbase) ;;; ret this
      else ret this) this
  else ret this.

(** [Scene::merge] *)
Definition merge (base : t) (this : t) : M t :=
  let entity_count := length (entities this) in
  if Nat.eqb entity_count (length (entities base)) then
    parallel_for 0 entity_count (fun ei this =>
      ecur <- at_ (entities this) ei ;;
      ebase <- at_ (entities base) ei ;;
      vcur <- deref ecur ;;
      vbase <- deref ebase ;;
      if Z.eqb (Transform.id vcur) (Transform.id vbase) then
        store_at ecur (ent_merge vcur vbase) ;;; ret this
      else ret this) this
  else ret this.

Definition diff_message : string :=
  "Scene::diff(): should not be here!" ++ String "010" "".

(** One iteration of the loop of [Scene::diff].  [e1->clone()] is the
    clone that keeps its parent ([detach] is false). *)
Definition diff_body (s1 s2 : t) (i : nat) (this : t) : M t :=
  e1 <- at_ (entities s1) i ;;
  e2 <- at_ (entities s2) i ;;
  v1 <- deref e1 ;;
  v2 <- deref e2 ;;
  if Z.eqb (Transform.id v1) (Transform.id v2) then
    e3 <- alloc (ent_clone false v1) ;;
    v3 <- deref (Some e3) ;;
    store e3 (ent_diff v3 v1 v2) ;;;
    ret (set_entities (<[i := Some e3]> (entities this)) this)
  else
    msLogError diff_message ;;; ret this.

(** [Scene::diff] *)
Definition diff (s1 s2 : t) (this : t) : M t :=
  let entity_count := length (entities s1) in
  if Nat.eqb entity_count (length (entities s2)) then
    let this := set_settings (settings s1) this in
    let this := set_entities (resize entity_count None (entities this)) this in
    parallel_for 0 entity_count (diff_body s1 s2) this
  else ret this.

(** One iteration of the loop of [Scene::lerp]. *)
Definition lerp_body (s1 s2 : t) (t_ : float) (i : nat) (this : t) : M t :=
  e1 <- at_ (entities s1) i ;;
  e2 <- at_ (entities s2) i ;;
  v1 <- deref e1 ;;
  v2 <- deref e2 ;;
  if Z.eqb (Transform.id v1) (Transform.id v2) then
    if isGeometry v1 && negb (Transform.constant_topology v1) then
      ret (set_entities (<[i := e1]> (entities this)) this)
    else
      e3 <- alloc (ent_clone false v1) ;;
      v3 <- deref (Some e3) ;;
      store e3 (ent_lerp v3 v1 v2 t_) ;;;
      ret (set_entities (<[i := Some e3]> (entities this)) this)
  else ret this.

(** [Scene::lerp] *)
Definition lerp (s1 s2 : t) (t_ : float) (this : t) : M t :=
  let entity_count := length (entities s1) in
  if Nat.eqb entity_count (length (entities s2)) then
    let this := set_settings (settings s1) this in
    let this := set_entities (resize entity_count None (entities this)) this in
    parallel_for 0 entity_count (lerp_body s1 s2 t_) this
  else ret this.

(** [Scene::clear] *)
Definition clear (this : t) : t := empty.

(** *** Serialization *)

(** [Scene::serialize]: the hash, then settings, assets, entities and
    constraints. *)
Definition serialize (os : stream) (this : t) : M stream :=
  validation_hash <- hash this ;;
  let os := os ++ write_uint64 validation_hash in
  let os := SceneSettings.serialize os (settings this) in
  avs <- map_m deref_asset (assets this) ;;
  let os := os ++ write_assets avs in
  evs <- map_m deref (entities this) ;;
  let os := os ++ write_entities evs in
  ret (os ++ write_constraints (constraints this)).

(** [EachMember(msRead)]: every element read is a new object. *)
Definition read_members (ins : stream) (this : t) : M (t * stream) :=
  let '(st, ins) := SceneSettings.deserialize ins in
  let '(avs, ins) := read_assets ins in
  aps <- map_m alloc_asset avs ;;
  let '(evs, ins) := read_entities ins in
  eps <- map_m alloc evs ;;
  let '(cs, ins) := read_constraints ins in
  ret (mk st (map Some aps) (map Some eps) cs (scene_buffers this), ins).

Definition hash_mismatch : string := "scene hash doesn't match".

(** [Scene::deserialize] *)
Definition deserialize (ins : stream) (this : t) : M (t * stream) :=
  let '(validation_hash, ins) := read_uint64 ins in
  r <- read_members ins this ;;
  h <- hash (fst r) ;;
  if negb (Z.eqb validation_hash h) then throw hash_mismatch
  else ret r.

(** [Scene::create(std::istream&)] *)
Definition create (ins : stream) : M (t * stream) :=
  let r := empty in
  deserialize ins r.

(** *** Import *)

(** [Scene::sanitizeHierarchyPath]: "nothing to do for now". *)
Definition sanitizeHierarchyPath (path : string) : string := path.

(** The converter pipeline [Scene::import] derives from the settings. *)
Definition import_converters (st : SceneSettings.t)
    (cv : SceneImportSettings.t) : list EntityConverter.t :=
  let flip_x :=
    Handedness.eqb (SceneSettings.handedness st) Handedness.Right
    || Handedness.eqb (SceneSettings.handedness st) Handedness.RightZUp in
  let swap_yz :=
    Handedness.eqb (SceneSettings.handedness st) Handedness.LeftZUp
    || Handedness.eqb (SceneSettings.handedness st) Handedness.RightZUp in
  let converters := [] in
  let converters :=
    if float_ne (SceneSettings.scale_factor st) float_one then
      let scale := float_div float_one (SceneSettings.scale_factor st) in
      converters ++ [EntityConverter.ScaleConverter scale]
    else converters in
  let converters :=
    if flip_x then converters ++ [EntityConverter.FlipX_HandednessCorrector]
    else converters in
  if swap_yz then
    match SceneImportSettings.zup_correction_mode cv with
    | ZUpCorrectionMode.FlipYZ =>
        converters ++ [EntityConverter.FlipYZ_ZUpCorrector]
    | ZUpCorrectionMode.RotateX =>
        converters ++ [EntityConverter.RotateX_ZUpCorrector]
    | ZUpCorrectionMode.Other => converters
    end
  else converters.

(** The lambda [convert]: every converter in order. *)
Definition convert {A} (conv : EntityConverter.t -> A -> A)
    (converters : list EntityConverter.t) (obj : A) : A :=
  fold_left (fun o cv => conv cv o) converters obj.

(** The body of the loop over the entities. *)
Definition import_entity (cv : SceneImportSettings.t)
    (converters : list EntityConverter.t) (obj : Transform.t) : Transform.t :=
  let obj := Transform.set_path (sanitizeHierarchyPath (Transform.path obj)) obj in
  let obj := Transform.set_reference
               (sanitizeHierarchyPath (Transform.reference obj)) obj in
  let is_mesh := EntityType.eqb (Transform.type obj) EntityType.Mesh in
  let obj :=
    if is_mesh then
      let mesh := Transform.set_bones
                    (map sanitizeHierarchyPath (Transform.bones obj)) obj in
      let mesh := Transform.set_refine_settings true
                    (SceneImportSettings.mesh_split_unit cv)
                    (SceneImportSettings.mesh_max_bone_influence cv) mesh in
      mesh_refine mesh
    else obj in
  let obj :=
    if negb (Nat.eqb (length converters) 0) then
      convert convert_entity converters obj
    else obj in
  if is_mesh then mesh_updateBounds obj else obj.

(** The body of the loop over the assets. *)
Definition import_asset (converters : list EntityConverter.t)
    (asset : Asset.t) : Asset.t :=
  if AssetType.eqb (Asset.type asset) AssetType.Animation then
    Asset.set_animations
      (map (fun anim =>
              let anim := Animation.set_path
                            (sanitizeHierarchyPath (Animation.path anim)) anim in
              convert convert_animation converters anim)
           (Asset.animations asset))
      asset
  else asset.

(** Whether the body of the loop over the entities writes the entity:
    [sanitizeHierarchyPath] writes the characters it replaces, the
    mesh branch writes the refine settings, and [convert] is taken to
    write what it is given; otherwise the body only reads. *)
Definition import_writes (converters : list EntityConverter.t)
    (obj : Transform.t) : bool :=
  negb (String.eqb (sanitizeHierarchyPath (Transform.path obj))
                   (Transform.path obj))
  || negb (String.eqb (sanitizeHierarchyPath (Transform.reference obj))
                      (Transform.reference obj))
  || EntityType.eqb (Transform.type obj) EntityType.Mesh
  || negb (Nat.eqb (length converters) 0).

(** [Scene::import] *)
Definition import (cv : SceneImportSettings.t) (this : t) : M t :=
  let converters := import_converters (settings this) cv in
  parallel_for_each (import_writes converters)
    (fun obj => v <- deref obj ;;
                store_at obj (import_entity cv converters v))
    (entities this) ;;;
  for_each (fun asset (_ : unit) =>
              a <- deref_asset asset ;;
              match asset with
              | Some l => store_asset l (import_asset converters a)
              | None => undefined
              end)
           (assets this) tt ;;;
  ret (set_settings
         (SceneSettings.mk (SceneSettings.name (settings this))
                           Handedness.Left float_one)
         this).

(** *** Hierarchy *)

(** [CalcGlobalMatrix].  The recursion follows parent pointers; a chain
    that visits more objects than the store holds has come back to one
    of them and never ends, which is the result [None]. *)
Fixpoint CalcGlobalMatrix_rec (fuel : nat) (heap : list Transform.t)
    (t_ : Transform.t) : option float4x4 :=
  match fuel with
  | O => None
  | S fuel' =>
      match Transform.parent t_ with
      | None => Some (Transform.local_matrix t_)
      | Some p =>
          match heap !! p with
          | Some tp =>
              match CalcGlobalMatrix_rec fuel' heap tp with
              | Some m => Some (mat_mul (Transform.local_matrix t_) m)
              | None => None
              end
          | None => None
          end
      end
  end.

Definition CalcGlobalMatrix (t_ : Transform.t) : M float4x4 := fun w =>
  match CalcGlobalMatrix_rec (S (length (entity_heap w))) (entity_heap w) t_ with
  | Some m => Ok m w
  | None => Undef
  end.

(** [a->path] in a comparator; the pointers compared have been
    dereferenced before. *)
Definition path_at (heap : list Transform.t) (p : option loc) : string :=
  match p with
  | Some l => match heap !! l with
              | Some e => Transform.path e
              | None => ""%string
              end
  | None => ""%string
  end.

(** The lambda [find] of [buildHierarchy]. *)
Definition find (heap : list Transform.t) (sorted : list (option loc))
    (path : string) : option loc :=
  let it := lower_bound (fun a => str_lt (path_at heap a) path) sorted in
  match sorted !! it with
  | Some p => if String.eqb (path_at heap p) path then p else None
  | None => None
  end.

(** First pass, one entity. *)
Definition link_parent (sorted : list (option loc)) (e : option loc)
    (path : string) : M string :=
  v <- deref e ;;
  let path := getParentPath v path in
  (fun w =>
     let v := Transform.set_parent (find (entity_heap w) sorted path) v in
     let v := Transform.set_local_matrix (toMatrix v) v in
     (store_at e v ;;; ret path) w).

(** Second pass, one entity. *)
Definition update_global (e : option loc) : M unit :=
  v <- deref e ;;
  m <- CalcGlobalMatrix v ;;
  store_at e (Transform.set_global_matrix m v).

(** [Scene::buildHierarchy].  The comparator of the sort and both loops
    dereference every entity pointer, hence the check in front. *)
Definition buildHierarchy (this : t) : M t :=
  map_m deref (entities this) ;;;
  (fun w =>
     let sorted :=
       std_sort (fun a b => str_lt (path_at (entity_heap w) a)
                                   (path_at (entity_heap w) b))
                (entities this) in
     let n := length (entities this) in
     (parallel_for_blocked 0 n 32 (fun begin end_ (_ : unit) =>
        for_each (fun i path => e <- at_ (entities this) i ;;
                                link_parent sorted e path)
                 (seq begin (end_ - begin)) ""%string ;;; ret tt) tt ;;;
      parallel_for_blocked 0 n 32 (fun begin end_ (_ : unit) =>
        for_each (fun i (_ : unit) => e <- at_ (entities this) i ;;
                                      update_global e)
                 (seq begin (end_ - begin)) tt) tt ;;;
      ret this) w).

(** The probing loop of [flatternHierarchy]: the first [i] from the
    given one on for which [name + hex(i)] is vacant.  A map of [n]
    entries leaves one of [n + 1] distinct names vacant, so with more
    steps than that the loop has no end. *)
Fixpoint probe (fuel : nat) (result : StringMap.t) (name : string)
    (i : nat) : option string :=
  match fuel with
  | O => None
  | S fuel' =>
      let tmp_name := (name ++ hex i)%string in
      if StringMap.vacant tmp_name result then Some tmp_name
      else probe fuel' result name (S i)
  end.

(** First loop of [flatternHierarchy], one entity; the state is the map
    and the variable [name]. *)
Definition flatten_insert (e : option loc)
    (st : StringMap.t * string) : M (StringMap.t * string) :=
  let '(result, name) := st in
  v <- deref e ;;
  if negb (EntityType.eqb (Transform.type v) EntityType.Transform) then
    let name := getName v name in
    if StringMap.vacant name result then
      ret (StringMap.insert name e result, name)
    else
      match probe (S (length result)) result name 0 with
      | Some tmp_name => ret (StringMap.insert tmp_name e result, name)
      | None => undefined
      end
  else ret (result, name).

(** Second loop, one entry. *)
Definition flatten_emit (kvp : string * option loc)
    (ents : list (option loc)) : M (list (option loc)) :=
  let e := snd kvp in
  v <- deref e ;;
  store_at e (Transform.set_path ("/" ++ fst kvp)%string v) ;;;
  ret (ents ++ [e]).

(** [Scene::flatternHierarchy] *)
Definition flatternHierarchy (this : t) : M t :=
  st <- for_each flatten_insert (entities this) ([], ""%string) ;;
  ents <- for_each flatten_emit (fst st) [] ;;
  ret (set_entities ents this).

(** *** Copies and queries *)

(** [Scene::clone]: [*ret = *this] copies every member, then each
    entity slot of the copy receives a new object, the clone of the
    entity at the same index. *)
Definition clone (detach : bool) (this : t) : M t :=
  let ret_ := this in
  parallel_for 0 (length (entities this)) (fun ei ret_ =>
    e <- at_ (entities this) ei ;;
    v <- deref e ;;
    e' <- alloc (ent_clone detach v) ;;
    ret (set_entities (<[ei := Some e']> (entities ret_)) ret_)) ret_.

(** The loop of [Scene::findEntity], which [break]s at the first entity
    whose path is the one sought. *)
Fixpoint findEntity_from (ents : list (option loc)) (path : string)
    : M (option loc) :=
  match ents with
  | [] => ret None
  | e :: rest =>
      v <- deref e ;;
      if String.eqb (Transform.path v) path then ret e
      else findEntity_from rest path
  end.

(** [Scene::findEntity] *)
Definition findEntity (path : string) (this : t) : M (option loc) :=
  findEntity_from (entities this) path.

(** [Scene::getAssets<AssetType>].  [is_a] is the test that
    [std::dynamic_pointer_cast<AssetType>] makes on the object's class;
    the cast of a null pointer is null and looks at no object. *)
Definition getAssets (is_a : Asset.t -> bool) (this : t)
    : M (list (option loc)) :=
  for_each (fun asset ret_ =>
              match asset with
              | None => ret ret_
              | Some _ =>
                  v <- deref_asset asset ;;
                  if is_a v then ret (ret_ ++ [asset]) else ret ret_
              end)
           (assets this) [].

(** [Scene::getEntities<EntityType>] *)
Definition getEntities (is_a : Transform.t -> bool) (this : t)
    : M (list (option loc)) :=
  for_each (fun asset ret_ =>
              match asset with
              | None => ret ret_
              | Some _ =>
                  v <- deref asset ;;
                  if is_a v then ret (ret_ ++ [asset]) else ret ret_
              end)
           (entities this) [].
End Def.
End Scene.

(** ** What the spec says about the collaborators *)

(** Modelled from the spec: [Entity::getParentPath] is not in this
    translation unit; the parent's path is "the path with the last
    path-segment removed".  [drop_last_segment] is [None] when the path has
    no separator. *)
Fixpoint drop_last_segment (path : string) : option string :=
  match path with
  | EmptyString => None
  | String c rest =>
      match drop_last_segment rest with
      | Some r => Some (String c r)
      | None => if Ascii.eqb c "/" then Some EmptyString else None
      end
  end.

Definition parent_path (path : string) : string :=
  match drop_last_segment path with
  | Some r => r
  | None => EmptyString
  end.

(** Modelled from the spec: [Entity::getName] extracts "a short display
    name", the last segment of the path. *)
Fixpoint last_segment (path : string) : string :=
  match path with
  | EmptyString => EmptyString
  | String c rest =>
      match drop_last_segment rest with
      | Some _ => last_segment rest
      | None => if Ascii.eqb c "/" then rest else path
      end
  end.

(** The spec's first wording of the validation hash: a saturating sum. *)
Definition saturating_add64 (a b : Z) : Z := Z.min (a + b) (2 ^ 64 - 1).
Definition saturating_sum (hashes : list Z) : Z :=
  fold_left saturating_add64 hashes 0.

(** ** A concrete scene graph

    Entities whose payload is a list of integers, matrices of binary32
    numbers, and sample collaborators that have the shape the spec
    describes.  They stand in for the functions that are not part of the
    source file; the theorems hold for every instance, and the examples
    below are stated on this one. *)

Module Example.
Definition fadd (a b : float) : float := SFadd 24 128 a b.
Definition fmul (a b : float) : float := SFmul 24 128 a b.
Definition of_Z (z : Z) : float := binary_normalize 24 128 z 0 false.

Definition matrix : Type := list (list float).

Definition dot (r c : list float) : float :=
  fold_left fadd (zip_with fmul r c) float_zero.
Definition column (j : nat) (m : matrix) : list float :=
  map (fun r => nth j r float_zero) m.
Definition mul (a b : matrix) : matrix :=
  map (fun r => map (fun j => dot r (column j b)) (seq 0 4)) a.

Definition of_rows (rows : list (list Z)) : matrix := map (map of_Z) rows.
Definition identity : matrix :=
  of_rows [[1; 0; 0; 0]; [0; 1; 0; 0]; [0; 0; 1; 0]; [0; 0; 0; 1]].

#[global] Instance domain : Domain := {|
  float4x4 := matrix;
  EntityData := list Z;
  AssetData := Z;
  AnimationData := list Z;
  Constraint := Z;
  Buffer := list Z;
|}.

Definition sum (l : list Z) : Z := fold_right Z.add 0 l.

Definition list_eqb (a b : list Z) : bool :=
  bool_decide (a = b).

(** The payload read as a row-major 4x4 matrix of integers. *)
Definition rows_of (d : list Z) : list (list Z) :=
  [take 4 d; take 4 (drop 4 d); take 4 (drop 8 d); take 4 (drop 12 d)].

(** Insertion sort: a sort that a [std::sort] may be. *)
Fixpoint insert_sorted (lt : option loc -> option loc -> bool)
    (x : option loc) (l : list (option loc)) : list (option loc) :=
  match l with
  | [] => [x]
  | y :: l' => if lt y x then y :: insert_sorted lt x l' else x :: y :: l'
  end.
Definition sort (lt : option loc -> option loc -> bool)
    (l : list (option loc)) : list (option loc) :=
  fold_right (insert_sorted lt) [] l.

Definition convert_data (c : EntityConverter.t) (d : list Z) : list Z :=
  match c with
  | EntityConverter.ScaleConverter _ => d
  | EntityConverter.FlipX_HandednessCorrector =>
      match d with
      | x :: d' => (- x) :: d'
      | [] => []
      end
  | EntityConverter.FlipYZ_ZUpCorrector =>
      match d with
      | x :: y :: z :: d' => x :: z :: y :: d'
      | _ => d
      end
  | EntityConverter.RotateX_ZUpCorrector =>
      match d with
      | x :: y :: z :: d' => x :: z :: (- y) :: d'
      | _ => d
      end
  end.

#[global] Instance collaborators : Collaborators := {|
  ent_clone detach e := if detach then Transform.set_parent None e else e;
  ent_strip e base :=
    if list_eqb (Transform.data e) (Transform.data base)
    then Transform.set_data [] e else e;
  ent_merge e base :=
    match Transform.data e with
    | [] => Transform.set_data (Transform.data base) e
    | _ => e
    end;
  ent_diff e e1 e2 :=
    Transform.set_data (zip_with Z.sub (Transform.data e2) (Transform.data e1)) e;
  ent_lerp e e1 e2 t_ :=
    if SFeqb t_ float_zero then e1
    else if SFeqb t_ float_one then e2
    else e;
  ent_hash e := wrap64 (Transform.id e + sum (Transform.data e));
  isGeometry e :=
    EntityType.eqb (Transform.type e) EntityType.Mesh
    || EntityType.eqb (Transform.type e) EntityType.Points;
  getName e _ := last_segment (Transform.path e);
  toMatrix e := of_rows (rows_of (Transform.data e));
  mesh_refine e :=
    Transform.set_data
      (map (Z.min (Transform.refine_split_unit e)) (Transform.data e)) e;
  mesh_updateBounds e := e;
  asset_hash a := wrap64 (Asset.data a);
  convert_entity c e := Transform.set_data (convert_data c (Transform.data e)) e;
  convert_animation c a := Animation.mk (Animation.path a) (convert_data c (Animation.data a));
  mat_mul := mul;
  getParentPath e _ := parent_path (Transform.path e);
  std_sort := sort;
|}.

(** *** Encodings: little-endian integers, length-prefixed sequences *)

Definition byte_of (n : Z) : Byte.byte :=
  match Byte.of_N (Z.to_N (n mod 256)) with
  | Some b => b
  | None => Byte.x00
  end.
Definition Z_of_byte (b : Byte.byte) : Z := Z.of_N (Byte.to_N b).

Fixpoint le_bytes (n : nat) (z : Z) : stream :=
  match n with
  | O => []
  | S k => byte_of z :: le_bytes k (z / 256)
  end.
Fixpoint le_value (bs : stream) : Z :=
  match bs with
  | [] => 0
  | b :: bs' => Z_of_byte b + 256 * le_value bs'
  end.

Definition put_uint (n : nat) (z : Z) : stream := le_bytes n z.
Definition get_uint (n : nat) (s : stream) : Z * stream :=
  (le_value (take n s), drop n s).
(** Two's complement. *)
Definition get_int (n : nat) (s : stream) : Z * stream :=
  let v := le_value (take n s) in
  (if 2 ^ (8 * Z.of_nat n - 1) <=? v then v - 2 ^ (8 * Z.of_nat n) else v,
   drop n s).

Fixpoint get_n {A} (get : stream -> A * stream) (n : nat) (s : stream)
    : list A * stream :=
  match n with
  | O => ([], s)
  | S k => let '(x, s) := get s in
           let '(xs, s) := get_n get k s in
           (x :: xs, s)
  end.
Definition put_list {A} (put : A -> stream) (l : list A) : stream :=
  put_uint 4 (Z.of_nat (length l)) ++ concat (map put l).
Definition get_list {A} (get : stream -> A * stream) (s : stream)
    : list A * stream :=
  let '(n, s) := get_uint 4 s in
  get_n get (Z.to_nat n) s.

Definition put_string (s : string) : stream :=
  put_list (fun c => put_uint 1 (Z.of_N (N_of_ascii c))) (list_ascii_of_string s).
Definition get_string (s : stream) : string * stream :=
  let '(cs, s) :=
    get_list (fun s => let '(z, s) := get_uint 1 s in (ascii_of_N (Z.to_N z), s)) s in
  (string_of_list_ascii cs, s).

Definition handedness_index (h : Handedness.t) : Z :=
  match h with
  | Handedness.Left => 0
  | Handedness.Right => 1
  | Handedness.LeftZUp => 2
  | Handedness.RightZUp => 3
  end.
Definition handedness_of (z : Z) : Handedness.t :=
  if z =? 1 then Handedness.Right
  else if z =? 2 then Handedness.LeftZUp
  else if z =? 3 then Handedness.RightZUp
  else Handedness.Left.

(** The binary32 interchange format. *)
Definition float_bits (f : float) : Z :=
  match f with
  | S754_zero s => if s then 2 ^ 31 else 0
  | S754_infinity s => (if s then 2 ^ 31 else 0) + 255 * 2 ^ 23
  | S754_nan => 255 * 2 ^ 23 + 2 ^ 22
  | S754_finite s m e =>
      (if s then 2 ^ 31 else 0)
      + (if 2 ^ 23 <=? Z.pos m then (e + 150) * 2 ^ 23 + (Z.pos m - 2 ^ 23)
         else Z.pos m)
  end.
Definition float_of_bits (z : Z) : float :=
  let s := 2 ^ 31 <=? z in
  let ex := (z / 2 ^ 23) mod 256 in
  let man := z mod 2 ^ 23 in
  if ex =? 0 then
    if man =? 0 then S754_zero s else S754_finite s (Z.to_pos man) (-149)
  else if ex =? 255 then
    if man =? 0 then S754_infinity s else S754_nan
  else S754_finite s (Z.to_pos (man + 2 ^ 23)) (ex - 150).

#[global] Instance scalar_codec : ScalarCodec := {|
  write_uint64 := put_uint 8;
  read_uint64 := get_uint 8;
  write_string := put_string;
  read_string := get_string;
  write_handedness h := put_uint 4 (handedness_index h);
  read_handedness s := let '(z, s) := get_uint 4 s in (handedness_of z, s);
  write_float f := put_uint 4 (float_bits f);
  read_float s := let '(z, s) := get_uint 4 s in (float_of_bits z, s);
|}.

Definition entity_type_index (ty : EntityType.t) : Z :=
  match ty with
  | EntityType.Unknown => 0
  | EntityType.Transform => 1
  | EntityType.Camera => 2
  | EntityType.Light => 3
  | EntityType.Mesh => 4
  | EntityType.Points => 5
  end.
Definition entity_type_of (z : Z) : EntityType.t :=
  if z =? 1 then EntityType.Transform
  else if z =? 2 then EntityType.Camera
  else if z =? 3 then EntityType.Light
  else if z =? 4 then EntityType.Mesh
  else if z =? 5 then EntityType.Points
  else EntityType.Unknown.
Definition asset_type_index (ty : AssetType.t) : Z :=
  match ty with
  | AssetType.Unknown => 0
  | AssetType.File => 1
  | AssetType.Animation => 2
  | AssetType.Texture => 3
  | AssetType.Material => 4
  | AssetType.Audio => 5
  end.
Definition asset_type_of (z : Z) : AssetType.t :=
  if z =? 1 then AssetType.File
  else if z =? 2 then AssetType.Animation
  else if z =? 3 then AssetType.Texture
  else if z =? 4 then AssetType.Material
  else if z =? 5 then AssetType.Audio
  else AssetType.Unknown.

(** An entity is persisted as its type tag, identity, path, reference,
    topology flag and payload; parent and matrices are derived data. *)
Definition put_entity (e : Transform.t) : stream :=
  put_uint 1 (entity_type_index (Transform.type e))
  ++ put_uint 8 (Transform.id e)
  ++ put_string (Transform.path e)
  ++ put_string (Transform.reference e)
  ++ put_uint 1 (if Transform.constant_topology e then 1 else 0)
  ++ put_list (put_uint 8) (Transform.data e).
Definition get_entity (s : stream) : Transform.t * stream :=
  let '(ty, s) := get_uint 1 s in
  let '(id, s) := get_int 8 s in
  let '(path, s) := get_string s in
  let '(reference, s) := get_string s in
  let '(ct, s) := get_uint 1 s in
  let '(d, s) := get_list (get_int 8) s in
  (Transform.mk id path reference None identity identity (entity_type_of ty)
                (negb (ct =? 0)) [] false 0 0 d, s).

Definition put_animation (a : Animation.t) : stream :=
  put_string (Animation.path a) ++ put_list (put_uint 8) (Animation.data a).
Definition get_animation (s : stream) : Animation.t * stream :=
  let '(path, s) := get_string s in
  let '(d, s) := get_list (get_int 8) s in
  (Animation.mk path d, s).

Definition put_asset (a : Asset.t) : stream :=
  put_uint 1 (asset_type_index (Asset.type a))
  ++ put_uint 8 (Asset.data a)
  ++ put_list put_animation (Asset.animations a).
Definition get_asset (s : stream) : Asset.t * stream :=
  let '(ty, s) := get_uint 1 s in
  let '(d, s) := get_int 8 s in
  let '(anims, s) := get_list get_animation s in
  (Asset.mk (asset_type_of ty) anims d, s).

#[global] Instance codec : Codec := {|
  write_assets := put_list put_asset;
  read_assets := get_list get_asset;
  write_entities := put_list put_entity;
  read_entities := get_list get_entity;
  write_constraints := put_list (put_uint 8);
  read_constraints := get_list (get_int 8);
|}.

(** An entity with the given identity, path, kind, topology flag and
    payload; nothing else set. *)
Definition entity (id : Z) (path : string) (ty : EntityType.t)
    (constant_topology : bool) (d : list Z) : Transform.t :=
  Transform.mk id path "" None identity identity ty constant_topology
               [] false 0 0 d.

Definition asset (ty : AssetType.t) (anims : list Animation.t) (h : Z) : Asset.t :=
  @Asset.mk domain ty anims h.

Definition world (ents : list Transform.t) (assets : list Asset.t) : World :=
  mkWorld ents assets [].

(** A scene over the first [n] entities of the store, from [first] on. *)
Definition scene_of (first n : nat) : Scene.t :=
  Scene.mk SceneSettings.default [] (map Some (seq first n)) [] [].
End Example.


(** ** Vocabulary of the specifications *)

(** The keys of a map ascend strictly. *)
Definition keys_ascend (m : StringMap.t) : Prop :=
  StronglySorted (fun a b => str_lt (fst a) (fst b) = true) m.

(** The map with every entity moved to the location [rho] gives. *)
Definition relocate (rho : nat -> nat) (m : StringMap.t) : StringMap.t :=
  map (fun kv => (fst kv, option_map rho (snd kv))) m.

(** The number a hexadecimal numeral stands for. *)
Definition unhex (s : string) : option nat :=
  option_map Nat.of_hex_uint (NilZero.uint_of_string s).

(** The string contains the path separator. *)
Fixpoint has_slash (s : string) : bool :=
  match s with
  | EmptyString => false
  | String c rest => Ascii.eqb c "/" || has_slash rest
  end.

Section Vocabulary.
Context {D : Domain} {C : Collaborators}.

(** The object a pointer refers to, and those a pointer vector refers to. *)
Definition target {A} (heap : list A) (p : option loc) : option A :=
  match p with
  | Some l => heap !! l
  | None => None
  end.

Fixpoint targets {A} (heap : list A) (ptrs : list (option loc)) : option (list A) :=
  match ptrs with
  | [] => Some []
  | p :: ps =>
      match target heap p, targets heap ps with
      | Some v, Some vs => Some (v :: vs)
      | _, _ => None
      end
  end.

(** The object behind slot [i] of a pointer vector. *)
Definition entity_at (heap : list Transform.t) (ents : list (option loc))
    (i : nat) : option Transform.t :=
  match ents !! i with
  | Some p => target heap p
  | None => None
  end.

(** Every slot holds a pointer to an object of the store. *)
Definition ents_valid (heap : list Transform.t) (ents : list (option loc)) : Prop :=
  is_Some (targets heap ents).

(** An iteration of [diff] or [lerp] does one of three things to slot [i]
    of the receiver: it stores a pointer to an object it has just created,
    it stores a pointer it was given, or it leaves the slot alone (after
    logging, in [diff]). *)
Inductive action :=
| Fresh (v : Transform.t)
| Share (p : option loc)
| Skip (msgs : list string).

Definition run_action (i : nat) (a : action) (this : Scene.t) : M Scene.t :=
  fun w =>
    match a with
    | Fresh v =>
        Ok (Scene.set_entities
              (<[i := Some (length (entity_heap w))]> (Scene.entities this)) this)
           (mkWorld (entity_heap w ++ [v]) (asset_heap w) (error_log w))
    | Share p =>
        Ok (Scene.set_entities (<[i := p]> (Scene.entities this)) this) w
    | Skip [] => Ok this w
    | Skip msgs =>
        Ok this (mkWorld (entity_heap w) (asset_heap w) (error_log w ++ msgs))
    end.

(** What the slot [i] must hold after the action, given what it held. *)
Definition slot_after (a : action) (heap0 heap' : list Transform.t)
    (old new : option (option loc)) : Prop :=
  match a with
  | Fresh v => exists l, new = Some (Some l) /\ (length heap0 <= l)%nat /\
                         heap' !! l = Some v
  | Share p => new = Some p
  | Skip _ => new = old
  end.

Definition action_log (a : action) : list string :=
  match a with
  | Skip msgs => msgs
  | _ => []
  end.

Definition diff_action (v1 v2 : Transform.t) : action :=
  if Z.eqb (Transform.id v1) (Transform.id v2)
  then Fresh (ent_diff (ent_clone false v1) v1 v2)
  else Skip [Scene.diff_message].

Definition lerp_action (p1 : option loc) (v1 v2 : Transform.t) (t_ : float) : action :=
  if Z.eqb (Transform.id v1) (Transform.id v2) then
    if isGeometry v1 && negb (Transform.constant_topology v1)
    then Share p1
    else Fresh (ent_lerp (ent_clone false v1) v1 v2 t_)
  else Skip [].

Definition diff_plan (heap : list Transform.t) (s1 s2 : Scene.t) (i : nat) : action :=
  match entity_at heap (Scene.entities s1) i, entity_at heap (Scene.entities s2) i with
  | Some v1, Some v2 => diff_action v1 v2
  | _, _ => Skip []
  end.

Definition lerp_plan (heap : list Transform.t) (s1 s2 : Scene.t) (t_ : float)
    (i : nat) : action :=
  match entity_at heap (Scene.entities s1) i, entity_at heap (Scene.entities s2) i with
  | Some v1, Some v2 =>
      lerp_action (default None (Scene.entities s1 !! i)) v1 v2 t_
  | _, _ => Skip []
  end.

(** What a slot-filling loop over all indices establishes. *)
Definition filled (plan : nat -> action) (n : nat) (src : SceneSettings.t)
    (this : Scene.t) (w : World) (this' : Scene.t) (w' : World) : Prop :=
  Scene.settings this' = src /\
  Scene.assets this' = Scene.assets this /\
  Scene.constraints this' = Scene.constraints this /\
  Scene.scene_buffers this' = Scene.scene_buffers this /\
  length (Scene.entities this') = n /\
  (exists extra, entity_heap w' = entity_heap w ++ extra) /\
  asset_heap w' = asset_heap w /\
  error_log w' =
    error_log w ++ concat (map (fun i => action_log (plan i)) (seq 0 n)) /\
  (forall i, (i < n)%nat ->
     slot_after (plan i) (entity_heap w) (entity_heap w')
                (resize n None (Scene.entities this) !! i)
                (Scene.entities this' !! i)).

(** The identities at index [i] disagree. *)
Definition id_mismatch (heap : list Transform.t) (s1 s2 : Scene.t) (i : nat) : bool :=
  match entity_at heap (Scene.entities s1) i, entity_at heap (Scene.entities s2) i with
  | Some v1, Some v2 => negb (Z.eqb (Transform.id v1) (Transform.id v2))
  | _, _ => false
  end.

(** Neither body touches the asset store, nor any member of the
    receiver besides [entities]. *)
Definition same_rest (this0 : Scene.t) (w0 : World) (this : Scene.t) (w : World) : Prop :=
  Scene.assets this = Scene.assets this0 /\
  Scene.constraints this = Scene.constraints this0 /\
  Scene.scene_buffers this = Scene.scene_buffers this0 /\
  asset_heap w = asset_heap w0.

Definition sum_Z (l : list Z) : Z := fold_right Z.add 0 l.

(** The store after a loop that replaces the object behind each pointer
    by [f] of it. *)
Definition update_all {A} (f : A -> A) (ptrs : list (option loc))
    (heap : list A) : list A :=
  fold_left (fun h p =>
               match p with
               | Some l => match h !! l with
                           | Some v => <[l := f v]> h
                           | None => h
                           end
               | None => h
               end) ptrs heap.

(** The receiver after [import]: the name is kept. *)
Definition canonical (this : Scene.t) : Scene.t :=
  Scene.set_settings
    (SceneSettings.mk (SceneSettings.name (Scene.settings this))
                      Handedness.Left float_one)
    this.


(** [std::sort] returns its input sorted by the comparator. *)
Definition sort_law : Prop :=
  forall (key : option loc -> string) (l : list (option loc)),
    let sorted := std_sort (fun a b => str_lt (key a) (key b)) l in
    Permutation sorted l /\
    StronglySorted (fun a b => str_lt (key b) (key a) = false) sorted.

(** [getParentPath] assigns to its out-parameter what the spec says. *)
Definition parent_path_law : Prop :=
  forall (v : Transform.t) (dst : string),
    getParentPath v dst = parent_path (Transform.path v).

(** What the first pass of [buildHierarchy] makes of an entity: the
    parent sought in the sorted index, then the local matrix. *)
Definition linked (heap : list Transform.t) (sorted : list (option loc))
    (v : Transform.t) : Transform.t :=
  let v := Transform.set_parent
             (Scene.find heap sorted (parent_path (Transform.path v))) v in
  Transform.set_local_matrix (toMatrix v) v.

(** The parent pointer and local matrix of an entity: all that
    [CalcGlobalMatrix] reads. *)
Definition link_of (v : Transform.t) : option loc * float4x4 :=
  (Transform.parent v, Transform.local_matrix v).

(** The matrix [CalcGlobalMatrix] returns for [v] in the store [heap]. *)
Definition global_of (heap : list Transform.t) (v : Transform.t) : float4x4 :=
  match Scene.CalcGlobalMatrix_rec (S (length heap)) heap v with
  | Some m => m
  | None => Transform.local_matrix v
  end.

(** The number of objects whose path is shorter than that of [v]. *)
Definition shorter_paths (heap : list Transform.t) (v : Transform.t) : nat :=
  length (List.filter
            (fun u => Nat.ltb (String.length (Transform.path u))
                              (String.length (Transform.path v)))
            heap).

(** The invariant of both passes: the store holds, behind every pointer
    already visited, [f] of the object it held at the start, and behind
    every other location what it held at the start. *)
Definition visited (f : Transform.t -> Transform.t) (w0 : World)
    (pre : list (option loc)) (w : World) : Prop :=
  length (entity_heap w) = length (entity_heap w0) /\
  asset_heap w = asset_heap w0 /\
  error_log w = error_log w0 /\
  forall l v0, entity_heap w0 !! l = Some v0 ->
    entity_heap w !! l = Some (if bool_decide (Some l ∈ pre) then f v0 else v0).

(** No two entities of the scene have the same path. *)
Definition paths_unique (heap : list Transform.t) (ents : list (option loc)) : Prop :=
  forall l l' v v',
    Some l ∈ ents -> Some l' ∈ ents ->
    heap !! l = Some v -> heap !! l' = Some v' ->
    Transform.path v = Transform.path v' -> l = l'.

(** No entity of the scene has the empty path. *)
Definition paths_nonempty (heap : list Transform.t) (ents : list (option loc)) : Prop :=
  forall l v, Some l ∈ ents -> heap !! l = Some v ->
              Transform.path v <> EmptyString.

(** The pointer refers to an entity that is not a [Transform] node:
    those are the ones [flatternHierarchy] keeps. *)
Definition kept (heap : list Transform.t) (p : option loc) : bool :=
  match target heap p with
  | Some v => negb (EntityType.eqb (Transform.type v) EntityType.Transform)
  | None => false
  end.

(** How the key of an entry relates to the name of its entity: it is
    the name, or the name with the first suffix whose predecessors are
    all keys; the name itself is a key in both cases. *)
Definition named (heap : list Transform.t) (keys : list string)
    (kv : string * option loc) : Prop :=
  exists l v dst,
    snd kv = Some l /\ heap !! l = Some v /\
    let n := getName v dst in
    n ∈ keys /\
    (fst kv = n \/
     exists i, fst kv = (n ++ hex i)%string /\
               forall j, (j < i)%nat -> (n ++ hex j)%string ∈ keys).

(** The map of [flatternHierarchy] after the entities [pre]. *)
Definition flat_map (heap : list Transform.t) (pre : list (option loc))
    (result : StringMap.t) : Prop :=
  keys_ascend result /\
  Forall (fun kv => is_Some (snd kv)) result /\
  Permutation (map snd result) (List.filter (kept heap) pre) /\
  Forall (named heap (map fst result)) result.

(** The store after the entries [pre] have been emitted. *)
Definition emitted (w0 : World) (pre : StringMap.t) (w : World) : Prop :=
  length (entity_heap w) = length (entity_heap w0) /\
  asset_heap w = asset_heap w0 /\
  error_log w = error_log w0 /\
  (forall k p, (k, p) ∈ pre ->
     exists l v0, p = Some l /\ entity_heap w0 !! l = Some v0 /\
                  entity_heap w !! l = Some (Transform.set_path ("/" ++ k) v0)) /\
  (forall l, Some l ∉ map snd pre -> entity_heap w !! l = entity_heap w0 !! l).

(** Reading what was written gives the value back and leaves the rest of
    the stream. *)
Definition reads_back {A} (write : A -> stream) (read : stream -> A * stream)
    (x : A) : Prop :=
  forall rest, read (write x ++ rest) = (x, rest).

(** What [strip] and [merge] make of an entity, given the entity of the
    base at the same index: [op] of both when their identities agree. *)
Definition aligned (op : Transform.t -> Transform.t -> Transform.t)
    (v vb : Transform.t) : Transform.t :=
  if Z.eqb (Transform.id v) (Transform.id vb) then op v vb else v.

(** The store [w'] is [w] with [op] applied along the first [k] aligned
    slots of the receiver and the base, and nothing else changed. *)
Definition aligned_store (op : Transform.t -> Transform.t -> Transform.t)
    (this base : Scene.t) (k : nat) (w w' : World) : Prop :=
  length (entity_heap w') = length (entity_heap w) /\
  asset_heap w' = asset_heap w /\
  error_log w' = error_log w /\
  (forall j l lb v vb, (j < k)%nat ->
     Scene.entities this !! j = Some (Some l) ->
     Scene.entities base !! j = Some (Some lb) ->
     entity_heap w !! l = Some v -> entity_heap w !! lb = Some vb ->
     entity_heap w' !! l = Some (aligned op v vb)) /\
  (forall l, (forall j, (j < k)%nat -> Scene.entities this !! j <> Some (Some l)) ->
             entity_heap w' !! l = entity_heap w !! l).

(** The parent chain of [v]: the locations from its parent up to an
    entity without parent. *)
Fixpoint ancestors (heap : list Transform.t) (v : Transform.t)
    (chain : list loc) : Prop :=
  match chain with
  | [] => Transform.parent v = None
  | p :: rest =>
      Transform.parent v = Some p /\
      exists vp, heap !! p = Some vp /\ ancestors heap vp rest
  end.

(** [m] times the local matrices along a chain, nested to the right. *)
Fixpoint chain_product (heap : list Transform.t) (m : float4x4)
    (chain : list loc) : float4x4 :=
  match chain with
  | [] => m
  | p :: rest =>
      match heap !! p with
      | Some vp => mat_mul m (chain_product heap (Transform.local_matrix vp) rest)
      | None => m
      end
  end.

(** [v'] has every member of [v] but, possibly, the ones that are derived
    and not persisted: the parent and the two matrices. *)
Definition same_persisted (v v' : Transform.t) : Prop :=
  Transform.id v' = Transform.id v /\
  Transform.path v' = Transform.path v /\
  Transform.reference v' = Transform.reference v /\
  Transform.type v' = Transform.type v /\
  Transform.constant_topology v' = Transform.constant_topology v /\
  Transform.bones v' = Transform.bones v /\
  Transform.refine_split v' = Transform.refine_split v /\
  Transform.refine_split_unit v' = Transform.refine_split_unit v /\
  Transform.refine_max_bone_influence v' = Transform.refine_max_bone_influence v /\
  Transform.data v' = Transform.data v.

(** The pointer is not null and its object passes the test. *)
Definition passes {A} (is_a : A -> bool) (heap : list A) (p : option loc) : bool :=
  match target heap p with
  | Some v => is_a v
  | None => false
  end.

(** The number of slots of a pointer vector that point to [l]. *)
Definition slots_of (ptrs : list (option loc)) (l : loc) : nat :=
  length (List.filter (fun p => bool_decide (p = Some l)) ptrs).

(** The computation raises no exception, whatever the store. *)
Definition no_throw {A} (m : M A) : Prop :=
  forall w what w', m w <> Throw what w'.
End Vocabulary.

(** Two assets whose hashes add up to 2^64. *)
Definition overflow_world : World :=
  Example.world [] [Example.asset AssetType.File [] (2 ^ 64 - 1);
                    Example.asset AssetType.File [] 1].
Definition overflow_scene : Scene.t :=
  @Scene.mk Example.domain SceneSettings.default [Some 0%nat; Some 1%nat] [] [] [].

(** Two snapshots of three entities in one store.  The first two entities
    keep their identity from one snapshot to the other, the third does
    not; the second is geometry whose topology varies. *)
Definition snapshots_world : World :=
  Example.world
    [Example.entity 1 "/A" EntityType.Transform false [1; 2; 3];
     Example.entity 2 "/A/B" EntityType.Mesh false [4; 5];
     Example.entity 3 "/A/B/C" EntityType.Mesh true [7];
     Example.entity 1 "/A" EntityType.Transform false [2; 4; 6];
     Example.entity 2 "/A/B" EntityType.Mesh false [9; 9];
     Example.entity 9 "/X" EntityType.Mesh true [8]]
    [Example.asset AssetType.Texture [] 11; Example.asset AssetType.Material [] 31].
Definition snapshot1 : Scene.t := Example.scene_of 0 3.
Definition snapshot2 : Scene.t := Example.scene_of 3 3.
(** A receiver that already holds an asset, four entities, a constraint and
    a buffer. *)
Definition receiver : Scene.t :=
  @Scene.mk Example.domain
    (SceneSettings.mk "receiver" Handedness.RightZUp float_one)
    [Some 0%nat] [Some 5%nat; Some 4%nat; Some 3%nat; None] [7] [[1; 2]].
(** Scenes of five and of six entities. *)
Definition five_entities : Scene.t := Example.scene_of 0 5.
Definition six_entities : Scene.t := Example.scene_of 0 6.
(** A scene over the first snapshot's entities and both assets. *)
Definition persisted : Scene.t :=
  @Scene.mk Example.domain
    (SceneSettings.mk "shot" Handedness.RightZUp float_one)
    [Some 0%nat; Some 1%nat] [Some 0%nat; Some 1%nat; Some 2%nat] [7; 8] [[1; 2]].
Definition split_by_3 : SceneImportSettings.t :=
  SceneImportSettings.mk 3 4 ZUpCorrectionMode.FlipYZ.
(** A right-handed Z-up scene in centimetres without meshes. *)
Definition zup_scene : Scene.t :=
  @Scene.mk Example.domain
    (SceneSettings.mk "zup" Handedness.RightZUp (Example.of_Z 100))
    [] [Some 0%nat; Some 3%nat] [] [].
(** The chain /A, /A/B, /A/B/C, stored leaf first, with local matrices
    that do not commute. *)
Definition matrix_A : list Z := [1; 1; 0; 0;  0; 1; 0; 0;  0; 0; 1; 0;  0; 0; 0; 1].
Definition matrix_B : list Z := [1; 0; 0; 0;  1; 1; 0; 0;  0; 0; 1; 0;  0; 0; 0; 1].
Definition matrix_C : list Z := [2; 0; 0; 0;  0; 1; 0; 0;  0; 0; 1; 0;  0; 0; 0; 1].
Definition chain_world : World :=
  Example.world
    [Example.entity 3 "/A/B/C" EntityType.Mesh true matrix_C;
     Example.entity 1 "/A" EntityType.Transform false matrix_A;
     Example.entity 2 "/A/B" EntityType.Transform false matrix_B]
    [].
Definition chain_scene : Scene.t := Example.scene_of 0 3.
Definition local_A : Example.matrix := Example.of_rows (Example.rows_of matrix_A).
Definition local_B : Example.matrix := Example.of_rows (Example.rows_of matrix_B).
Definition local_C : Example.matrix := Example.of_rows (Example.rows_of matrix_C).
(** Two boxes under different groups, and the group nodes. *)
Definition boxes_world : World :=
  Example.world
    [Example.entity 1 "/Room" EntityType.Transform false [];
     Example.entity 2 "/Room/Box" EntityType.Mesh true [1];
     Example.entity 3 "/Hall" EntityType.Transform false [];
     Example.entity 4 "/Hall/Box" EntityType.Mesh true [2];
     Example.entity 5 "/Hall/Apple" EntityType.Camera false []]
    [].
Definition boxes_scene : Scene.t := Example.scene_of 0 5.

(** The same entities two locations up, in a store that holds two more
    objects, and a scene of another name that points to them. *)
Definition moved_boxes_world : World :=
  Example.world
    ([Example.entity 8 "/Spare" EntityType.Mesh false [];
      Example.entity 9 "/Box" EntityType.Light false []]
     ++ entity_heap boxes_world)
    [].
Definition moved_boxes_scene : Scene.t :=
  Scene.set_settings (SceneSettings.mk "moved" Handedness.Right float_one)
    (Example.scene_of 2 5).

(** A scene and its base in one store: the first entity has the payload of
    its base, the second does not. *)
Definition delta_world : World :=
  Example.world
    [Example.entity 1 "/A" EntityType.Transform false [1; 2; 3];
     Example.entity 2 "/A/B" EntityType.Mesh false [4; 5];
     Example.entity 1 "/A" EntityType.Transform false [1; 2; 3];
     Example.entity 2 "/A/B" EntityType.Mesh false [9; 9]]
    [].
Definition delta_scene : Scene.t := Example.scene_of 0 2.
Definition delta_base : Scene.t := Example.scene_of 2 2.

(** The bytes [serialize] writes for [persisted]. *)
Definition persisted_bytes : stream :=
  match Scene.serialize [] persisted snapshots_world with
  | Ok bytes _ => bytes
  | _ => []
  end.

(** An animation clip that two right-handed scenes share. *)
Definition clip_world : World :=
  Example.world []
    [Example.asset AssetType.Animation
       [@Animation.mk Example.domain "/A" [1; 2; 3]] 5].
Definition clip_scene1 : Scene.t :=
  @Scene.mk Example.domain
    (SceneSettings.mk "one" Handedness.Right float_one) [Some 0%nat] [] [] [].
Definition clip_scene2 : Scene.t :=
  @Scene.mk Example.domain
    (SceneSettings.mk "two" Handedness.RightZUp float_one) [Some 0%nat] [] [] [].

(** The chain /A, /A/B, /A/B/C with its parent pointers and local
    matrices set. *)
Definition linked_entity (id : Z) (path : string) (parent : option nat)
    (m : list Z) : Transform.t :=
  Transform.set_local_matrix (Example.of_rows (Example.rows_of m))
    (Transform.set_parent parent
       (Example.entity id path EntityType.Transform false m)).
Definition linked_scene : Scene.t :=
  @Scene.mk Example.domain
    (SceneSettings.mk "linked" Handedness.Right float_one)
    [] [Some 0%nat; Some 1%nat; Some 2%nat] [7; 8] [[1; 2]].
Definition linked_world : World :=
  Example.world
    [linked_entity 3 "/A/B/C" (Some 2%nat) matrix_C;
     linked_entity 1 "/A" None matrix_A;
     linked_entity 2 "/A/B" (Some 1%nat) matrix_B]
    [].


(** * Properties *)

(** ** Reasoning about outcomes *)

Section MonadFacts.
Context {D : Domain}.

Lemma bind_Ok {A B} (m : M A) (k : A -> M B) w b w' :
  bind m k w = Ok b w' <-> exists a w1, m w = Ok a w1 /\ k a w1 = Ok b w'.
Proof.
  unfold bind. split.
  - destruct (m w) as [a w1| |] eqn:E; try discriminate. eauto.
  - intros (a & w1 & -> & Hk). exact Hk.
Qed.

Lemma bind_run {A B} (m : M A) (k : A -> M B) w a w1 :
  m w = Ok a w1 -> bind m k w = k a w1.
Proof. unfold bind. intros ->. reflexivity. Qed.

Lemma bind_bind {A B E} (m : M A) (k : A -> M B) (k' : B -> M E) w :
  bind (bind m k) k' w = bind m (fun a => bind (k a) k') w.
Proof. unfold bind. destruct (m w); reflexivity. Qed.

Lemma bind_ext {A A' B} (m : M A) (m' : M A') (k : A -> M B) (k' : A' -> M B) w :
  match m w, m' w with
  | Ok a w1, Ok a' w1' => w1 = w1' /\ k a w1 = k' a' w1
  | Throw s w1, Throw s' w1' => s = s' /\ w1 = w1'
  | Undef, Undef => True
  | _, _ => False
  end ->
  bind m k w = bind m' k' w.
Proof.
  unfold bind. destruct (m w), (m' w); try contradiction; auto.
  - intros [<- H]. exact H.
  - intros [<- <-]. reflexivity.
Qed.

Lemma bind_ret_l {A B} (a : A) (k : A -> M B) w : bind (ret a) k w = k a w.
Proof. reflexivity. Qed.

Lemma for_each_app {A S} (body : A -> S -> M S) l1 l2 s w :
  for_each body (l1 ++ l2) s w =
  bind (for_each body l1 s) (for_each body l2) w.
Proof.
  revert s w. induction l1 as [|x l1 IH]; intros s w; simpl.
  - reflexivity.
  - unfold bind. destruct (body x s w) as [s1 w1| |]; auto.
Qed.

(** An invariant of the iterations is an invariant of the loop. *)
Lemma for_each_inv {A S} (P : S -> World -> Prop) (body : A -> S -> M S) l :
  (forall x s w s' w', P s w -> body x s w = Ok s' w' -> P s' w') ->
  forall s w s' w', P s w -> for_each body l s w = Ok s' w' -> P s' w'.
Proof.
  intros Hbody. induction l as [|x l IH]; intros s w s' w' HP Hrun; simpl in Hrun.
  - inversion Hrun; subst; exact HP.
  - apply bind_Ok in Hrun as (s1 & w1 & H1 & H2). eauto.
Qed.

Lemma at_Ok {A} (v : list A) i w x w' :
  at_ v i w = Ok x w' <-> v !! i = Some x /\ w' = w.
Proof.
  unfold at_. destruct (v !! i); split; try (intros [? ?]); try intro;
    simplify_eq; auto; discriminate.
Qed.

Lemma deref_Ok p w e w' :
  deref p w = Ok e w' <->
  exists l, p = Some l /\ entity_heap w !! l = Some e /\ w' = w.
Proof.
  unfold deref. split.
  - destruct p as [l|]; [|discriminate].
    destruct (entity_heap w !! l) eqn:E; [|discriminate].
    intros; simplify_eq; eauto.
  - intros (l & -> & -> & ->). reflexivity.
Qed.
End MonadFacts.

(** Splits a hypothesis [bind m k w = Ok _ _] into its two runs. *)
Ltac bind_inv H :=
  let a := fresh "a" in
  let w := fresh "w" in
  let H1 := fresh H "l" in
  apply bind_Ok in H as (a & w & H1 & H).


(** ** Alignment guard *)

Section Alignment.
Context {D : Domain} {C : Collaborators}.

(** C3.  When the two entity collections differ in length, [strip] and
    [merge] (receiver against base) and [diff] and [lerp] (first against
    second snapshot) return at once: the receiver is the scene it was,
    member by member, and no object of the store has changed. *)
Theorem length_mismatch_is_noop
    (base s1 s2 this : Scene.t) (t_ : float) (w : World) :
  (length (Scene.entities this) <> length (Scene.entities base) ->
     Scene.strip base this w = Ok this w /\
     Scene.merge base this w = Ok this w) /\
  (length (Scene.entities s1) <> length (Scene.entities s2) ->
     Scene.diff s1 s2 this w = Ok this w /\
     Scene.lerp s1 s2 t_ this w = Ok this w).
Proof.
  split; intros Hne; apply Nat.eqb_neq in Hne.
  - unfold Scene.strip, Scene.merge. rewrite Hne. split; reflexivity.
  - unfold Scene.diff, Scene.lerp. rewrite Hne. split; reflexivity.
Qed.
End Alignment.

(** ** Loops that fill the receiver's slots

    An iteration of [diff] or [lerp] does one of three things to slot [i]
    of the receiver: it stores a pointer to an object it has just created,
    it stores a pointer it was given, or it leaves the slot alone (after
    logging, in [diff]). *)

Section Actions.
Context {D : Domain} {C : Collaborators}.

Lemma run_actions (plan : nat -> action) (idx : list nat) :
  NoDup idx ->
  forall (this : Scene.t) (w : World),
    Forall (fun i => (i < length (Scene.entities this))%nat) idx ->
    exists this' w' extra,
      for_each (fun i => run_action i (plan i)) idx this w = Ok this' w' /\
      Scene.settings this' = Scene.settings this /\
      Scene.assets this' = Scene.assets this /\
      Scene.constraints this' = Scene.constraints this /\
      Scene.scene_buffers this' = Scene.scene_buffers this /\
      length (Scene.entities this') = length (Scene.entities this) /\
      entity_heap w' = entity_heap w ++ extra /\
      asset_heap w' = asset_heap w /\
      error_log w' = error_log w ++ concat (map (fun i => action_log (plan i)) idx) /\
      (forall i, i ∉ idx ->
         Scene.entities this' !! i = Scene.entities this !! i) /\
      (forall i, i ∈ idx ->
         slot_after (plan i) (entity_heap w) (entity_heap w')
                    (Scene.entities this !! i) (Scene.entities this' !! i)).
Proof.
  induction 1 as [|i idx Hi Hnd IH]; intros this w Hlt.
  - exists this, w, []. simpl. rewrite !app_nil_r.
    repeat split; auto. intros i Hin. inversion Hin.
  - apply Forall_cons in Hlt as [Hilt Hlt].
    simpl. unfold bind.
    destruct (plan i) as [v|p|msgs] eqn:Hplan; unfold run_action at 1.
    + (* a new object *)
      set (this1 := Scene.set_entities _ this).
      set (w1 := mkWorld _ _ _).
      destruct (IH this1 w1) as
        (this' & w' & extra & Hrun & Hs & Ha & Hc & Hb & Hlen & Hheap & Hah & Hlog & Hout & Hin).
      { subst this1; simpl. rewrite length_insert. exact Hlt. }
      exists this', w', (v :: extra). rewrite Hrun.
      subst this1 w1; simpl in *. rewrite length_insert in Hlen.
      rewrite Hheap, <- app_assoc. simpl.
      repeat split; auto.
      * intros j Hj. apply not_elem_of_cons in Hj as [Hne Hj].
        rewrite Hout by exact Hj. apply list_lookup_insert_ne. auto.
      * intros j Hj. apply elem_of_cons in Hj as [->|Hj].
        -- rewrite Hplan. simpl. exists (length (entity_heap w)).
           rewrite Hout by exact Hi.
           rewrite list_lookup_insert_eq by exact Hilt.
           split; [reflexivity|]. split; [lia|].
           rewrite lookup_app_r by lia. rewrite Nat.sub_diag. reflexivity.
        -- specialize (Hin j Hj).
           assert (i <> j) by (intros ->; contradiction).
           rewrite list_lookup_insert_ne in Hin by assumption.
           destruct (plan j); simpl in *; auto.
           destruct Hin as (l & ? & Hl & Hv). exists l.
           rewrite length_app in Hl. simpl in Hl.
           rewrite Hheap, <- app_assoc in Hv. simpl in Hv.
           repeat split; auto; lia.
    + (* a pointer passed on *)
      set (this1 := Scene.set_entities _ this).
      destruct (IH this1 w) as
        (this' & w' & extra & Hrun & Hs & Ha & Hc & Hb & Hlen & Hheap & Hah & Hlog & Hout & Hin).
      { subst this1; simpl. rewrite length_insert. exact Hlt. }
      exists this', w', extra. rewrite Hrun.
      subst this1; simpl in *. rewrite length_insert in Hlen.
      repeat split; auto.
      * intros j Hj. apply not_elem_of_cons in Hj as [Hne Hj].
        rewrite Hout by exact Hj. apply list_lookup_insert_ne. auto.
      * intros j Hj. apply elem_of_cons in Hj as [->|Hj].
        -- rewrite Hplan. simpl. rewrite Hout by exact Hi.
           apply list_lookup_insert_eq. exact Hilt.
        -- specialize (Hin j Hj).
           assert (i <> j) by (intros ->; contradiction).
           rewrite list_lookup_insert_ne in Hin by assumption. exact Hin.
    + (* the slot is left alone *)
      set (w1 := match msgs with
                 | [] => w
                 | _ => mkWorld (entity_heap w) (asset_heap w) (error_log w ++ msgs)
                 end).
      assert (Hw1 : entity_heap w1 = entity_heap w /\ asset_heap w1 = asset_heap w /\
                    error_log w1 = error_log w ++ msgs).
      { subst w1. destruct msgs; simpl; rewrite ?app_nil_r; auto. }
      destruct Hw1 as (Hw1h & Hw1a & Hw1l).
      destruct (IH this w1) as
        (this' & w' & extra & Hrun & Hs & Ha & Hc & Hb & Hlen & Hheap & Hah & Hlog & Hout & Hin).
      { exact Hlt. }
      exists this', w', extra.
      replace (match msgs with [] => Ok this w | _ => _ end) with (Ok this w1)
        by (subst w1; destruct msgs; reflexivity).
      rewrite Hrun. rewrite Hw1h in *. rewrite Hw1a in *. rewrite Hw1l in *.
      simpl in *. rewrite Hlog, <- app_assoc.
      repeat split; auto.
      * intros j Hj. apply not_elem_of_cons in Hj as [Hne Hj]. auto.
      * intros j Hj. apply elem_of_cons in Hj as [->|Hj].
        -- rewrite Hplan. simpl. apply Hout. exact Hi.
        -- apply Hin. exact Hj.
Qed.
End Actions.


(** ** [diff] and [lerp] as slot-filling loops *)

Section DiffLerp.
Context {D : Domain} {C : Collaborators}.

(** Two loops whose bodies agree on every world the second one reaches. *)
Lemma for_each_ext {A S} (I : World -> Prop) (b1 b2 : A -> S -> M S) l :
  (forall x s w, x ∈ l -> I w -> b1 x s w = b2 x s w) ->
  (forall x s w s' w', x ∈ l -> I w -> b2 x s w = Ok s' w' -> I w') ->
  forall s w, I w -> for_each b1 l s w = for_each b2 l s w.
Proof.
  induction l as [|x l IH]; intros Heq Hinv s w HI; simpl; [reflexivity|].
  unfold bind. rewrite Heq by (auto; left).
  destruct (b2 x s w) as [s1 w1| |] eqn:E; auto.
  apply IH.
  - intros; apply Heq; auto. right; auto.
  - intros; eapply Hinv; eauto. right; auto.
  - eapply Hinv; eauto. left.
Qed.

Lemma entity_at_app heap extra ents i v :
  entity_at heap ents i = Some v -> entity_at (heap ++ extra) ents i = Some v.
Proof.
  unfold entity_at, target. destruct (ents !! i) as [[l|]|]; try discriminate.
  intros Hl. apply lookup_app_l_Some. exact Hl.
Qed.

Lemma targets_lookup {A} (heap : list A) ptrs vs i :
  targets heap ptrs = Some vs ->
  (i < length ptrs)%nat ->
  exists p v, ptrs !! i = Some p /\ target heap p = Some v /\ vs !! i = Some v.
Proof.
  revert vs i. induction ptrs as [|p ptrs IH]; intros vs i Ht Hi; simpl in *.
  - lia.
  - destruct (target heap p) as [v|] eqn:Ev; [|discriminate].
    destruct (targets heap ptrs) as [vs'|] eqn:Evs; [|discriminate].
    inversion Ht; subst. destruct i as [|i]; simpl.
    + eauto.
    + apply IH; [reflexivity|lia].
Qed.

Lemma ents_valid_at heap ents i :
  ents_valid heap ents -> (i < length ents)%nat ->
  is_Some (entity_at heap ents i).
Proof.
  intros [vs Hvs] Hi.
  destruct (targets_lookup heap ents vs i Hvs Hi) as (p & v & Hp & Hv & _).
  unfold entity_at. rewrite Hp. eauto.
Qed.

Lemma lookup_snoc_length {A} (l : list A) x : (l ++ [x]) !! length l = Some x.
Proof. rewrite lookup_app_r by lia. rewrite Nat.sub_diag. reflexivity. Qed.

Lemma insert_snoc_length {A} (l : list A) x y :
  <[length l := y]> (l ++ [x]) = l ++ [y].
Proof.
  rewrite insert_app_r_alt by lia. rewrite Nat.sub_diag. reflexivity.
Qed.

Lemma diff_body_run s1 s2 i this w v1 v2 :
  entity_at (entity_heap w) (Scene.entities s1) i = Some v1 ->
  entity_at (entity_heap w) (Scene.entities s2) i = Some v2 ->
  Scene.diff_body s1 s2 i this w = run_action i (diff_action v1 v2) this w.
Proof.
  unfold entity_at, target. intros H1 H2.
  destruct (Scene.entities s1 !! i) as [[l1|]|] eqn:E1; try discriminate.
  destruct (Scene.entities s2 !! i) as [[l2|]|] eqn:E2; try discriminate.
  unfold Scene.diff_body, bind, at_, deref, diff_action.
  rewrite E1, E2, H1, H2.
  destruct (Z.eqb (Transform.id v1) (Transform.id v2)); [|reflexivity].
  unfold alloc, store, ret, run_action. simpl.
  rewrite lookup_snoc_length. simpl. rewrite lookup_snoc_length.
  rewrite insert_snoc_length. reflexivity.
Qed.

Lemma lerp_body_run s1 s2 t_ i this w v1 v2 :
  entity_at (entity_heap w) (Scene.entities s1) i = Some v1 ->
  entity_at (entity_heap w) (Scene.entities s2) i = Some v2 ->
  Scene.lerp_body s1 s2 t_ i this w =
  run_action i (lerp_action (default None (Scene.entities s1 !! i)) v1 v2 t_) this w.
Proof.
  unfold entity_at, target. intros H1 H2.
  destruct (Scene.entities s1 !! i) as [[l1|]|] eqn:E1; try discriminate.
  destruct (Scene.entities s2 !! i) as [[l2|]|] eqn:E2; try discriminate.
  unfold Scene.lerp_body, bind, at_, deref, lerp_action.
  rewrite E1, E2, H1, H2. simpl.
  destruct (Z.eqb (Transform.id v1) (Transform.id v2)); [|reflexivity].
  destruct (isGeometry v1 && negb (Transform.constant_topology v1)); [reflexivity|].
  unfold alloc, store, ret, run_action. simpl.
  rewrite lookup_snoc_length. simpl. rewrite lookup_snoc_length.
  rewrite insert_snoc_length. reflexivity.
Qed.

Lemma run_action_grows i a this w this' w' :
  run_action i a this w = Ok this' w' ->
  exists extra, entity_heap w' = entity_heap w ++ extra.
Proof.
  destruct a as [v|p|[|m msgs]]; simpl; intros E; inversion E; subst; simpl; eauto;
    exists []; rewrite app_nil_r; reflexivity.
Qed.

(** The loop of [diff] (or [lerp]) runs the plan made on the initial store. *)
Lemma slot_loop_run (body : nat -> Scene.t -> M Scene.t)
    (plan : list Transform.t -> nat -> action) ents1 ents2 idx this w :
  (forall i this w' v1 v2,
      entity_at (entity_heap w') ents1 i = Some v1 ->
      entity_at (entity_heap w') ents2 i = Some v2 ->
      body i this w' = run_action i (plan (entity_heap w') i) this w') ->
  (forall i heap extra v1 v2,
      entity_at heap ents1 i = Some v1 ->
      entity_at heap ents2 i = Some v2 ->
      plan (heap ++ extra) i = plan heap i) ->
  (forall i, i ∈ idx -> is_Some (entity_at (entity_heap w) ents1 i) /\
                        is_Some (entity_at (entity_heap w) ents2 i)) ->
  for_each body idx this w =
  for_each (fun i => run_action i (plan (entity_heap w) i)) idx this w.
Proof.
  intros Hbody Hplan Hvalid.
  apply (for_each_ext
           (fun w' => exists extra, entity_heap w' = entity_heap w ++ extra)).
  - intros i s w' Hi [extra Hw'].
    destruct (Hvalid i Hi) as [[v1 H1] [v2 H2]].
    rewrite (Hbody i s w' v1 v2), Hw'.
    + rewrite (Hplan i _ extra v1 v2); auto.
    + rewrite Hw'. apply entity_at_app; auto.
    + rewrite Hw'. apply entity_at_app; auto.
  - intros i s w1 s' w2 _ [extra Hw1] Hrun.
    apply run_action_grows in Hrun as [extra' Hw2].
    exists (extra ++ extra'). rewrite Hw2, Hw1, app_assoc. reflexivity.
  - exists []. rewrite app_nil_r. reflexivity.
Qed.
End DiffLerp.


Section DiffLerpSpec.
Context {D : Domain} {C : Collaborators}.

Lemma diff_plan_stable s1 s2 i heap extra v1 v2 :
  entity_at heap (Scene.entities s1) i = Some v1 ->
  entity_at heap (Scene.entities s2) i = Some v2 ->
  diff_plan (heap ++ extra) s1 s2 i = diff_plan heap s1 s2 i.
Proof.
  intros H1 H2. unfold diff_plan.
  rewrite (entity_at_app _ extra _ _ _ H1), (entity_at_app _ extra _ _ _ H2), H1, H2.
  reflexivity.
Qed.

Lemma lerp_plan_stable s1 s2 t_ i heap extra v1 v2 :
  entity_at heap (Scene.entities s1) i = Some v1 ->
  entity_at heap (Scene.entities s2) i = Some v2 ->
  lerp_plan (heap ++ extra) s1 s2 t_ i = lerp_plan heap s1 s2 t_ i.
Proof.
  intros H1 H2. unfold lerp_plan.
  rewrite (entity_at_app _ extra _ _ _ H1), (entity_at_app _ extra _ _ _ H2), H1, H2.
  reflexivity.
Qed.

Lemma fill_slots (plan : nat -> action) (n : nat) (src : SceneSettings.t)
    (this : Scene.t) (w : World) :
  exists this' w',
    for_each (fun i => run_action i (plan i)) (seq 0 n)
      (Scene.set_entities (resize n None (Scene.entities this))
         (Scene.set_settings src this)) w = Ok this' w' /\
    filled plan n src this w this' w'.
Proof.
  destruct (run_actions plan (seq 0 n) (NoDup_seq 0 n)
              (Scene.set_entities (resize n None (Scene.entities this))
                 (Scene.set_settings src this)) w)
    as (this' & w' & extra & Hrun & Hs & Ha & Hc & Hb & Hlen & Hheap & Hah & Hlog & _ & Hin).
  { simpl. rewrite length_resize. apply Forall_forall. intros i Hi.
    apply elem_of_seq in Hi. lia. }
  exists this', w'. split; [exact Hrun|].
  simpl in *. rewrite length_resize in Hlen.
  repeat split; eauto.
  intros i Hi. apply Hin. apply elem_of_seq. lia.
Qed.

Lemma diff_spec (s1 s2 this : Scene.t) (w : World) :
  length (Scene.entities s1) = length (Scene.entities s2) ->
  ents_valid (entity_heap w) (Scene.entities s1) ->
  ents_valid (entity_heap w) (Scene.entities s2) ->
  exists this' w',
    Scene.diff s1 s2 this w = Ok this' w' /\
    filled (diff_plan (entity_heap w) s1 s2) (length (Scene.entities s1))
           (Scene.settings s1) this w this' w'.
Proof.
  intros Hlen Hv1 Hv2. unfold Scene.diff.
  rewrite <- Hlen, Nat.eqb_refl. unfold parallel_for. rewrite Nat.sub_0_r.
  rewrite (slot_loop_run (Scene.diff_body s1 s2)
             (fun heap => diff_plan heap s1 s2)
             (Scene.entities s1) (Scene.entities s2)).
  - exact (fill_slots _ _ (Scene.settings s1) this w).
  - intros i this0 w' v1 v2 H1 H2.
    rewrite (diff_body_run s1 s2 i this0 w' v1 v2 H1 H2).
    unfold diff_plan. rewrite H1, H2. reflexivity.
  - intros. eapply diff_plan_stable; eauto.
  - intros i Hi. apply elem_of_seq in Hi. split.
    + apply (ents_valid_at _ _ _ Hv1). lia.
    + apply (ents_valid_at _ _ _ Hv2). lia.
Qed.

Lemma lerp_spec (s1 s2 this : Scene.t) (t_ : float) (w : World) :
  length (Scene.entities s1) = length (Scene.entities s2) ->
  ents_valid (entity_heap w) (Scene.entities s1) ->
  ents_valid (entity_heap w) (Scene.entities s2) ->
  exists this' w',
    Scene.lerp s1 s2 t_ this w = Ok this' w' /\
    filled (lerp_plan (entity_heap w) s1 s2 t_) (length (Scene.entities s1))
           (Scene.settings s1) this w this' w'.
Proof.
  intros Hlen Hv1 Hv2. unfold Scene.lerp.
  rewrite <- Hlen, Nat.eqb_refl. unfold parallel_for. rewrite Nat.sub_0_r.
  rewrite (slot_loop_run (Scene.lerp_body s1 s2 t_)
             (fun heap => lerp_plan heap s1 s2 t_)
             (Scene.entities s1) (Scene.entities s2)).
  - exact (fill_slots _ _ (Scene.settings s1) this w).
  - intros i this0 w' v1 v2 H1 H2.
    rewrite (lerp_body_run s1 s2 t_ i this0 w' v1 v2 H1 H2).
    unfold lerp_plan. rewrite H1, H2. reflexivity.
  - intros. eapply lerp_plan_stable; eauto.
  - intros i Hi. apply elem_of_seq in Hi. split.
    + apply (ents_valid_at _ _ _ Hv1). lia.
    + apply (ents_valid_at _ _ _ Hv2). lia.
Qed.
End DiffLerpSpec.


(** ** [diff] *)

Section DiffClaims.
Context {D : Domain} {C : Collaborators}.

Lemma diff_plan_log heap s1 s2 idx :
  concat (map (fun i => action_log (diff_plan heap s1 s2 i)) idx) =
  map (fun _ => Scene.diff_message) (List.filter (id_mismatch heap s1 s2) idx).
Proof.
  induction idx as [|i idx IH]; simpl; [reflexivity|].
  rewrite IH. unfold diff_plan at 1, id_mismatch at 2, diff_action.
  destruct (entity_at heap (Scene.entities s1) i) as [v1|]; [|reflexivity].
  destruct (entity_at heap (Scene.entities s2) i) as [v2|]; [|reflexivity].
  destruct (Z.eqb (Transform.id v1) (Transform.id v2)); reflexivity.
Qed.

(** C4.  [diff] of two scenes with equally many entities, all of them
    live objects, returns.  Where the identities at an index agree, the
    slot of the receiver points to an object created by the call that
    holds the clone of the first scene's entity with the entity-level
    diff applied.  Where they disagree, one error is logged for the index
    and the slot is what it was in the receiver (resized to the common
    length): it is not written.  No object that existed before the call
    is changed. *)
Theorem diff_slots (s1 s2 this : Scene.t) (w : World) :
  length (Scene.entities s1) = length (Scene.entities s2) ->
  ents_valid (entity_heap w) (Scene.entities s1) ->
  ents_valid (entity_heap w) (Scene.entities s2) ->
  exists this' w',
    Scene.diff s1 s2 this w = Ok this' w' /\
    (exists extra, entity_heap w' = entity_heap w ++ extra) /\
    error_log w' =
      error_log w ++
      map (fun _ => Scene.diff_message)
          (List.filter (id_mismatch (entity_heap w) s1 s2)
                       (seq 0 (length (Scene.entities s1)))) /\
    forall i v1 v2,
      entity_at (entity_heap w) (Scene.entities s1) i = Some v1 ->
      entity_at (entity_heap w) (Scene.entities s2) i = Some v2 ->
      if Z.eqb (Transform.id v1) (Transform.id v2) then
        exists l,
          Scene.entities this' !! i = Some (Some l) /\
          (length (entity_heap w) <= l)%nat /\
          entity_heap w' !! l = Some (ent_diff (ent_clone false v1) v1 v2)
      else
        Scene.entities this' !! i =
        resize (length (Scene.entities s1)) None (Scene.entities this) !! i.
Proof.
  intros Hlen Hv1 Hv2.
  destruct (diff_spec s1 s2 this w Hlen Hv1 Hv2)
    as (this' & w' & Hrun & _ & _ & _ & _ & _ & Hheap & _ & Hlog & Hslot).
  exists this', w'. rewrite diff_plan_log in Hlog.
  repeat split; auto.
  intros i v1 v2 H1 H2.
  assert (Hi : (i < length (Scene.entities s1))%nat).
  { unfold entity_at in H1.
    destruct (Scene.entities s1 !! i) eqn:E; [|discriminate].
    eapply lookup_lt_Some; eauto. }
  specialize (Hslot i Hi). unfold diff_plan, diff_action in Hslot.
  rewrite H1, H2 in Hslot.
  destruct (Z.eqb (Transform.id v1) (Transform.id v2)); exact Hslot.
Qed.
End DiffClaims.

(** ** [lerp] *)

Section LerpClaims.
Context {D : Domain} {C : Collaborators}.

(** C5.  [lerp] of two scenes with equally many entities, all of them
    live objects, returns, for every [t].  At an index where the
    identities agree: if the entity of the first scene is geometry whose
    [constant_topology] flag is unset, the slot of the receiver is the
    very pointer of the first scene, whatever [t] is, and the object is
    unchanged; otherwise the slot points to an object created by the call
    that holds the clone of the first scene's entity with the entity-level
    lerp at [t] applied.  Hence, when the entity-level lerp returns its
    first argument at 0 and its second at 1, the receiver's entity is the
    first scene's at 0 and, if it was interpolated, the second scene's
    at 1. *)
Theorem lerp_slots (s1 s2 this : Scene.t) (t_ : float) (w : World) :
  length (Scene.entities s1) = length (Scene.entities s2) ->
  ents_valid (entity_heap w) (Scene.entities s1) ->
  ents_valid (entity_heap w) (Scene.entities s2) ->
  exists this' w',
    Scene.lerp s1 s2 t_ this w = Ok this' w' /\
    (exists extra, entity_heap w' = entity_heap w ++ extra) /\
    forall i v1 v2,
      entity_at (entity_heap w) (Scene.entities s1) i = Some v1 ->
      entity_at (entity_heap w) (Scene.entities s2) i = Some v2 ->
      Transform.id v1 = Transform.id v2 ->
      (if isGeometry v1 && negb (Transform.constant_topology v1) then
         Scene.entities this' !! i = Scene.entities s1 !! i /\
         entity_at (entity_heap w') (Scene.entities this') i = Some v1
       else
         exists l,
           Scene.entities this' !! i = Some (Some l) /\
           (length (entity_heap w) <= l)%nat /\
           entity_heap w' !! l = Some (ent_lerp (ent_clone false v1) v1 v2 t_)) /\
      (t_ = float_zero ->
       ent_lerp (ent_clone false v1) v1 v2 float_zero = v1 ->
       entity_at (entity_heap w') (Scene.entities this') i = Some v1) /\
      (t_ = float_one ->
       ent_lerp (ent_clone false v1) v1 v2 float_one = v2 ->
       isGeometry v1 && negb (Transform.constant_topology v1) = false ->
       entity_at (entity_heap w') (Scene.entities this') i = Some v2).
Proof.
  intros Hlen Hv1 Hv2.
  destruct (lerp_spec s1 s2 this t_ w Hlen Hv1 Hv2)
    as (this' & w' & Hrun & _ & _ & _ & _ & _ & Hheap & _ & _ & Hslot).
  exists this', w'. split; [exact Hrun|]. split; [exact Hheap|].
  intros i v1 v2 H1 H2 Hid.
  assert (Hi : (i < length (Scene.entities s1))%nat).
  { unfold entity_at in H1.
    destruct (Scene.entities s1 !! i) eqn:E; [|discriminate].
    eapply lookup_lt_Some; eauto. }
  specialize (Hslot i Hi). unfold lerp_plan, lerp_action in Hslot.
  rewrite H1, H2 in Hslot.
  apply Z.eqb_eq in Hid. rewrite Hid in Hslot.
  destruct Hheap as [extra Hheap].
  destruct (isGeometry v1 && negb (Transform.constant_topology v1)) eqn:Hgeo;
    simpl in Hslot.
  - (* held: the pointer of the first scene *)
    assert (Hp : Scene.entities this' !! i = Scene.entities s1 !! i).
    { rewrite Hslot. apply lookup_lt_is_Some in Hi as [p Hp]. rewrite Hp. reflexivity. }
    assert (Hv : entity_at (entity_heap w') (Scene.entities this') i = Some v1).
    { unfold entity_at. rewrite Hp. rewrite Hheap.
      apply entity_at_app. assumption. }
    repeat split; auto. intros; discriminate.
  - (* interpolated: a new object *)
    destruct Hslot as (l & Hl & Hfresh & Hv).
    split; [exists l; auto|].
    split; intros -> Hlaw; intros; unfold entity_at; rewrite Hl; simpl; rewrite Hv; congruence.
Qed.
End LerpClaims.


(** ** What [diff] and [lerp] do not write *)

Section Frame.
Context {D : Domain} {C : Collaborators}.

Lemma store_Ok l e w u w' :
  store l e w = Ok u w' ->
  asset_heap w' = asset_heap w /\ error_log w' = error_log w /\
  entity_heap w' = <[l := e]> (entity_heap w).
Proof.
  unfold store. destruct (entity_heap w !! l); [|discriminate].
  intros E; inversion E; subst; auto.
Qed.

Lemma diff_body_frame this0 w0 s1 s2 i this w this' w' :
  same_rest this0 w0 this w ->
  Scene.diff_body s1 s2 i this w = Ok this' w' ->
  same_rest this0 w0 this' w'.
Proof.
  unfold Scene.diff_body, same_rest. intros HP Hrun.
  bind_inv Hrun. apply at_Ok in Hrunl as [_ ->].
  bind_inv Hrun. apply at_Ok in Hrunl as [_ ->].
  bind_inv Hrun. apply deref_Ok in Hrunl as (l1 & _ & _ & ->).
  bind_inv Hrun. apply deref_Ok in Hrunl as (l2 & _ & _ & ->).
  destruct (Z.eqb (Transform.id a1) (Transform.id a2)).
  - bind_inv Hrun. unfold alloc in Hrunl. inversion Hrunl; subst; clear Hrunl.
    bind_inv Hrun. apply deref_Ok in Hrunl as (l3 & _ & _ & ->).
    bind_inv Hrun. apply store_Ok in Hrunl as (Ha & _ & _).
    inversion Hrun; subst. simpl in *. rewrite Ha. exact HP.
  - bind_inv Hrun. unfold msLogError in Hrunl. inversion Hrunl; subst; clear Hrunl.
    inversion Hrun; subst. simpl. exact HP.
Qed.

Lemma lerp_body_frame this0 w0 s1 s2 t_ i this w this' w' :
  same_rest this0 w0 this w ->
  Scene.lerp_body s1 s2 t_ i this w = Ok this' w' ->
  same_rest this0 w0 this' w'.
Proof.
  unfold Scene.lerp_body, same_rest. intros HP Hrun.
  bind_inv Hrun. apply at_Ok in Hrunl as [_ ->].
  bind_inv Hrun. apply at_Ok in Hrunl as [_ ->].
  bind_inv Hrun. apply deref_Ok in Hrunl as (l1 & _ & _ & ->).
  bind_inv Hrun. apply deref_Ok in Hrunl as (l2 & _ & _ & ->).
  destruct (Z.eqb (Transform.id a1) (Transform.id a2)).
  - destruct (isGeometry a1 && negb (Transform.constant_topology a1)).
    + inversion Hrun; subst. simpl. exact HP.
    + bind_inv Hrun. unfold alloc in Hrunl. inversion Hrunl; subst; clear Hrunl.
      bind_inv Hrun. apply deref_Ok in Hrunl as (l3 & _ & _ & ->).
      bind_inv Hrun. apply store_Ok in Hrunl as (Ha & _ & _).
      inversion Hrun; subst. simpl in *. rewrite Ha. exact HP.
  - inversion Hrun; subst. exact HP.
Qed.

(** C10.  Whatever the receiver and the two snapshots are, a call of
    [diff] or [lerp] that returns leaves the receiver's [assets],
    [constraints] and [scene_buffers], and every asset object, as they
    were: only [settings] and [entities] are written, and nothing is
    taken from the assets or constraints of the snapshots.  The call does
    return when the entities of both snapshots are live objects. *)
Theorem diff_lerp_frame (s1 s2 this : Scene.t) (t_ : float) (w : World) :
  (forall this' w',
      Scene.diff s1 s2 this w = Ok this' w' \/
      Scene.lerp s1 s2 t_ this w = Ok this' w' ->
      Scene.assets this' = Scene.assets this /\
      Scene.constraints this' = Scene.constraints this /\
      Scene.scene_buffers this' = Scene.scene_buffers this /\
      asset_heap w' = asset_heap w) /\
  (ents_valid (entity_heap w) (Scene.entities s1) ->
   ents_valid (entity_heap w) (Scene.entities s2) ->
   (exists this' w', Scene.diff s1 s2 this w = Ok this' w') /\
   (exists this' w', Scene.lerp s1 s2 t_ this w = Ok this' w')).
Proof.
  split.
  - intros this' w' [Hrun|Hrun].
    + unfold Scene.diff in Hrun.
      destruct (Nat.eqb _ _).
      * eapply (for_each_inv (same_rest this w)) in Hrun; eauto.
        -- intros; eapply diff_body_frame; eauto.
        -- repeat split.
      * inversion Hrun; subst. repeat split.
    + unfold Scene.lerp in Hrun.
      destruct (Nat.eqb _ _).
      * eapply (for_each_inv (same_rest this w)) in Hrun; eauto.
        -- intros; eapply lerp_body_frame; eauto.
        -- repeat split.
      * inversion Hrun; subst. repeat split.
  - intros Hv1 Hv2.
    destruct (Nat.eq_dec (length (Scene.entities s1)) (length (Scene.entities s2)))
      as [Hlen|Hne].
    + destruct (diff_spec s1 s2 this w Hlen Hv1 Hv2) as (a & b & Ha & _).
      destruct (lerp_spec s1 s2 this t_ w Hlen Hv1 Hv2) as (c & d & Hc & _).
      eauto 6.
    + unfold Scene.diff, Scene.lerp. apply Nat.eqb_neq in Hne. rewrite Hne.
      unfold ret. eauto 6.
Qed.
End Frame.


(** ** The validation hash *)

Section Hash.
Context {D : Domain} {C : Collaborators}.

Lemma wrap64_add_l a b : wrap64 (wrap64 a + b) = wrap64 (a + b).
Proof. unfold wrap64. apply Zplus_mod_idemp_l. Qed.

Lemma hash_assets_loop heap ptrs avs r w :
  asset_heap w = heap ->
  targets heap ptrs = Some avs ->
  for_each (fun a r => v <- deref_asset a ;; ret (wrap64 (r + asset_hash v)))
           ptrs (wrap64 r) w
  = Ok (wrap64 (r + sum_Z (map asset_hash avs))) w.
Proof.
  intros <-. revert avs r.
  induction ptrs as [|p ptrs IH]; intros avs r Ht; simpl in Ht.
  - inversion Ht; subst. simpl. rewrite Z.add_0_r. reflexivity.
  - destruct (target (asset_heap w) p) as [v|] eqn:Ev; [|discriminate].
    destruct (targets (asset_heap w) ptrs) as [vs|] eqn:Evs; [|discriminate].
    inversion Ht; subst. simpl.
    unfold bind at 1. unfold bind at 1. unfold deref_asset.
    destruct p as [l|]; simpl in Ev; [|discriminate]. rewrite Ev.
    unfold ret at 1. rewrite wrap64_add_l.
    rewrite (IH vs (r + asset_hash v)) by reflexivity.
    f_equal. f_equal. lia.
Qed.

Lemma hash_entities_loop heap ptrs evs r w :
  entity_heap w = heap ->
  targets heap ptrs = Some evs ->
  for_each (fun e r => v <- deref e ;; ret (wrap64 (r + ent_hash v)))
           ptrs (wrap64 r) w
  = Ok (wrap64 (r + sum_Z (map ent_hash evs))) w.
Proof.
  intros <-. revert evs r.
  induction ptrs as [|p ptrs IH]; intros evs r Ht; simpl in Ht.
  - inversion Ht; subst. simpl. rewrite Z.add_0_r. reflexivity.
  - destruct (target (entity_heap w) p) as [v|] eqn:Ev; [|discriminate].
    destruct (targets (entity_heap w) ptrs) as [vs|] eqn:Evs; [|discriminate].
    inversion Ht; subst. simpl.
    unfold bind at 1. unfold bind at 1. unfold deref.
    destruct p as [l|]; simpl in Ev; [|discriminate]. rewrite Ev.
    unfold ret at 1. rewrite wrap64_add_l.
    rewrite (IH vs (r + ent_hash v)) by reflexivity.
    f_equal. f_equal. lia.
Qed.

(** The hash of a scene whose pointers are live. *)
Lemma hash_value (this : Scene.t) (w : World) avs evs :
  targets (asset_heap w) (Scene.assets this) = Some avs ->
  targets (entity_heap w) (Scene.entities this) = Some evs ->
  Scene.hash this w =
  Ok (wrap64 (sum_Z (map asset_hash avs) + sum_Z (map ent_hash evs))) w.
Proof.
  intros Ha He.
  pose proof (hash_assets_loop _ _ avs 0 w eq_refl Ha) as H1.
  change (wrap64 0) with 0 in H1.
  unfold Scene.hash. rewrite (bind_run _ _ _ _ _ H1).
  rewrite (hash_entities_loop _ _ evs _ w eq_refl He).
  reflexivity.
Qed.

Lemma targets_Permutation {A} (heap : list A) ptrs ptrs' vs :
  Permutation ptrs ptrs' ->
  targets heap ptrs = Some vs ->
  exists vs', targets heap ptrs' = Some vs' /\ Permutation vs vs'.
Proof.
  intros HP. revert vs. induction HP; intros vs Ht; simpl in *.
  - inversion Ht; subst. eauto.
  - destruct (target heap x) as [v|]; [|discriminate].
    destruct (targets heap l) as [vl|]; [|discriminate].
    inversion Ht; subst.
    destruct (IHHP vl eq_refl) as (vs' & -> & Hp). eauto.
  - destruct (target heap y) as [vy|]; [|discriminate].
    destruct (target heap x) as [vx|]; [|discriminate].
    destruct (targets heap l) as [vl|]; [|discriminate].
    inversion Ht; subst. eexists; split; [reflexivity|]. constructor.
  - destruct (IHHP1 vs Ht) as (vs1 & H1 & Hp1).
    destruct (IHHP2 vs1 H1) as (vs2 & H2 & Hp2).
    exists vs2. split; [exact H2|]. etransitivity; eauto.
Qed.

Lemma sum_Z_Permutation {A} (f : A -> Z) l l' :
  Permutation l l' -> sum_Z (map f l) = sum_Z (map f l').
Proof. induction 1; simpl; lia. Qed.

(** C9, as the code has it.  The validation hash of a scene whose asset
    and entity pointers are live is the sum of all asset hashes and all
    entity hashes modulo 2^64 (the additions wrap, they do not saturate),
    and a scene whose asset and entity collections are permutations of
    these has the same hash. *)
Theorem hash_is_wrapping_sum (this : Scene.t) (w : World) avs evs :
  targets (asset_heap w) (Scene.assets this) = Some avs ->
  targets (entity_heap w) (Scene.entities this) = Some evs ->
  Scene.hash this w =
    Ok ((sum_Z (map asset_hash avs) + sum_Z (map ent_hash evs)) mod 2 ^ 64) w /\
  forall this2,
    Permutation (Scene.assets this2) (Scene.assets this) ->
    Permutation (Scene.entities this2) (Scene.entities this) ->
    Scene.hash this2 w = Scene.hash this w.
Proof.
  intros Ha He. split.
  - apply hash_value; assumption.
  - intros this2 Hpa Hpe.
    destruct (targets_Permutation _ _ _ _ (Permutation_sym Hpa) Ha) as (avs2 & Ha2 & Hp2).
    destruct (targets_Permutation _ _ _ _ (Permutation_sym Hpe) He) as (evs2 & He2 & Hq2).
    rewrite (hash_value this w avs evs Ha He).
    rewrite (hash_value this2 w avs2 evs2 Ha2 He2).
    rewrite (sum_Z_Permutation asset_hash _ _ Hp2).
    rewrite (sum_Z_Permutation ent_hash _ _ Hq2). reflexivity.
Qed.
End Hash.

(** C9 as worded with a saturating sum fails: the hashes 2^64 - 1 and 1 add
    up to 0 in the code, and to 2^64 - 1 when saturating. *)
Lemma hash_does_not_saturate :
  targets (asset_heap overflow_world) (Scene.assets overflow_scene) =
    Some [Example.asset AssetType.File [] (2 ^ 64 - 1); Example.asset AssetType.File [] 1] /\
  Scene.hash overflow_scene overflow_world = Ok 0 overflow_world /\
  saturating_sum [asset_hash (Example.asset AssetType.File [] (2 ^ 64 - 1));
                  asset_hash (Example.asset AssetType.File [] 1)] = 2 ^ 64 - 1 /\
  Scene.hash overflow_scene overflow_world <>
    Ok (saturating_sum [asset_hash (Example.asset AssetType.File [] (2 ^ 64 - 1));
                        asset_hash (Example.asset AssetType.File [] 1)])
       overflow_world.
Proof.
  split; [reflexivity|]. split; [vm_compute; reflexivity|].
  split; [vm_compute; reflexivity|]. vm_compute. discriminate.
Qed.


(** ** The statements above on the example scenes *)

Lemma length_mismatch_is_noop_witness :
  length (Scene.entities five_entities) <> length (Scene.entities six_entities) /\
  Scene.strip six_entities five_entities snapshots_world = Ok five_entities snapshots_world /\
  Scene.merge six_entities five_entities snapshots_world = Ok five_entities snapshots_world /\
  Scene.diff five_entities six_entities receiver snapshots_world = Ok receiver snapshots_world /\
  Scene.lerp five_entities six_entities float_one receiver snapshots_world
    = Ok receiver snapshots_world.
Proof.
  assert (H : length (Scene.entities five_entities)
              <> length (Scene.entities six_entities)) by (simpl; lia).
  destruct (length_mismatch_is_noop six_entities five_entities six_entities
              five_entities float_one snapshots_world) as [H1 _].
  destruct (length_mismatch_is_noop six_entities five_entities six_entities
              receiver float_one snapshots_world) as [_ H2].
  destruct (H1 H) as [Hs Hm]. destruct (H2 H) as [Hd Hl].
  repeat split; assumption.
Defined.

Lemma diff_slots_witness :
  length (Scene.entities snapshot1) = length (Scene.entities snapshot2) /\
  ents_valid (entity_heap snapshots_world) (Scene.entities snapshot1) /\
  ents_valid (entity_heap snapshots_world) (Scene.entities snapshot2) /\
  exists this' w',
    Scene.diff snapshot1 snapshot2 receiver snapshots_world = Ok this' w' /\
    error_log w' = [Scene.diff_message].
Proof.
  assert (H1 : length (Scene.entities snapshot1) = length (Scene.entities snapshot2))
    by reflexivity.
  assert (H2 : ents_valid (entity_heap snapshots_world) (Scene.entities snapshot1))
    by (eexists; reflexivity).
  assert (H3 : ents_valid (entity_heap snapshots_world) (Scene.entities snapshot2))
    by (eexists; reflexivity).
  repeat (split; [assumption|]).
  destruct (diff_slots snapshot1 snapshot2 receiver snapshots_world H1 H2 H3)
    as (this' & w' & Hrun & _ & Hlog & _).
  exists this', w'. split; [exact Hrun|exact Hlog].
Defined.

Lemma lerp_slots_witness :
  length (Scene.entities snapshot1) = length (Scene.entities snapshot2) /\
  ents_valid (entity_heap snapshots_world) (Scene.entities snapshot1) /\
  ents_valid (entity_heap snapshots_world) (Scene.entities snapshot2) /\
  exists this' w',
    Scene.lerp snapshot1 snapshot2 float_one receiver snapshots_world = Ok this' w' /\
    entity_at (entity_heap w') (Scene.entities this') 0 =
      Some (Example.entity 1 "/A" EntityType.Transform false [2; 4; 6]) /\
    Scene.entities this' !! 1%nat = Some (Some 1%nat).
Proof.
  assert (H1 : length (Scene.entities snapshot1) = length (Scene.entities snapshot2))
    by reflexivity.
  assert (H2 : ents_valid (entity_heap snapshots_world) (Scene.entities snapshot1))
    by (eexists; reflexivity).
  assert (H3 : ents_valid (entity_heap snapshots_world) (Scene.entities snapshot2))
    by (eexists; reflexivity).
  repeat (split; [assumption|]).
  destruct (lerp_slots snapshot1 snapshot2 receiver float_one snapshots_world H1 H2 H3)
    as (this' & w' & Hrun & _ & Hslot).
  exists this', w'. split; [exact Hrun|]. split.
  - destruct (Hslot 0%nat _ _ eq_refl eq_refl eq_refl) as (_ & _ & Hone).
    apply Hone; reflexivity.
  - destruct (Hslot 1%nat _ _ eq_refl eq_refl eq_refl) as (Hheld & _).
    apply Hheld.
Defined.

Lemma diff_lerp_frame_witness :
  ents_valid (entity_heap snapshots_world) (Scene.entities snapshot1) /\
  ents_valid (entity_heap snapshots_world) (Scene.entities snapshot2) /\
  exists this' w',
    Scene.diff snapshot1 snapshot2 receiver snapshots_world = Ok this' w' /\
    Scene.assets this' = [Some 0%nat] /\
    Scene.constraints this' = [7] /\
    Scene.scene_buffers this' = [[1; 2]] /\
    asset_heap w' = asset_heap snapshots_world.
Proof.
  assert (H2 : ents_valid (entity_heap snapshots_world) (Scene.entities snapshot1))
    by (eexists; reflexivity).
  assert (H3 : ents_valid (entity_heap snapshots_world) (Scene.entities snapshot2))
    by (eexists; reflexivity).
  repeat (split; [assumption|]).
  destruct (diff_lerp_frame snapshot1 snapshot2 receiver float_one snapshots_world)
    as [Hframe Htotal].
  destruct (Htotal H2 H3) as [(this' & w' & Hrun) _].
  exists this', w'. split; [exact Hrun|].
  apply (Hframe this' w'). left. exact Hrun.
Defined.

Lemma hash_is_wrapping_sum_witness :
  targets (asset_heap snapshots_world) (Scene.assets receiver) =
    Some [Example.asset AssetType.Texture [] 11] /\
  targets (entity_heap snapshots_world) (Scene.entities snapshot1) =
    Some [Example.entity 1 "/A" EntityType.Transform false [1; 2; 3];
          Example.entity 2 "/A/B" EntityType.Mesh false [4; 5];
          Example.entity 3 "/A/B/C" EntityType.Mesh true [7]] /\
  Scene.hash (Scene.set_assets (Scene.assets receiver) snapshot1) snapshots_world
    = Ok 39 snapshots_world.
Proof.
  assert (Ha : targets (asset_heap snapshots_world)
                 (Scene.assets (Scene.set_assets (Scene.assets receiver) snapshot1)) =
               Some [Example.asset AssetType.Texture [] 11]) by reflexivity.
  assert (He : targets (entity_heap snapshots_world)
                 (Scene.entities (Scene.set_assets (Scene.assets receiver) snapshot1)) =
               Some [Example.entity 1 "/A" EntityType.Transform false [1; 2; 3];
                     Example.entity 2 "/A/B" EntityType.Mesh false [4; 5];
                     Example.entity 3 "/A/B/C" EntityType.Mesh true [7]]) by reflexivity.
  split; [exact Ha|]. split; [exact He|].
  destruct (hash_is_wrapping_sum _ snapshots_world _ _ Ha He) as [Hv _].
  rewrite Hv. reflexivity.
Defined.


(** ** Serialization *)

Section Serialization.
Context {D : Domain} {C : Collaborators} {SC : ScalarCodec} {CC : Codec}.

Lemma map_m_deref ptrs vs w :
  targets (entity_heap w) ptrs = Some vs -> map_m deref ptrs w = Ok vs w.
Proof.
  revert vs. induction ptrs as [|p ptrs IH]; intros vs Ht; simpl in *.
  - inversion Ht; reflexivity.
  - destruct (target (entity_heap w) p) as [v|] eqn:Ev; [|discriminate].
    destruct (targets (entity_heap w) ptrs) as [vs'|]; [|discriminate].
    inversion Ht; subst. destruct p as [l|]; [|discriminate]. simpl in Ev.
    assert (Hd : deref (Some l) w = Ok v w) by (unfold deref; rewrite Ev; reflexivity).
    rewrite (bind_run _ _ _ _ _ Hd), (bind_run _ _ _ _ _ (IH vs' eq_refl)).
    reflexivity.
Qed.

Lemma map_m_deref_asset ptrs vs w :
  targets (asset_heap w) ptrs = Some vs -> map_m deref_asset ptrs w = Ok vs w.
Proof.
  revert vs. induction ptrs as [|p ptrs IH]; intros vs Ht; simpl in *.
  - inversion Ht; reflexivity.
  - destruct (target (asset_heap w) p) as [v|] eqn:Ev; [|discriminate].
    destruct (targets (asset_heap w) ptrs) as [vs'|]; [|discriminate].
    inversion Ht; subst. destruct p as [l|]; [|discriminate]. simpl in Ev.
    assert (Hd : deref_asset (Some l) w = Ok v w)
      by (unfold deref_asset; rewrite Ev; reflexivity).
    rewrite (bind_run _ _ _ _ _ Hd), (bind_run _ _ _ _ _ (IH vs' eq_refl)).
    reflexivity.
Qed.

(** Objects created one after the other sit at consecutive locations. *)
Lemma map_m_alloc vals w :
  map_m alloc vals w =
  Ok (seq (length (entity_heap w)) (length vals))
     (mkWorld (entity_heap w ++ vals) (asset_heap w) (error_log w)).
Proof.
  revert w. induction vals as [|v vals IH]; intros w; simpl.
  - rewrite app_nil_r. destruct w; reflexivity.
  - unfold bind, alloc. rewrite IH. simpl.
    rewrite length_app, <- app_assoc. simpl.
    replace (length (entity_heap w) + 1)%nat with (S (length (entity_heap w))) by lia.
    reflexivity.
Qed.

Lemma map_m_alloc_asset vals w :
  map_m alloc_asset vals w =
  Ok (seq (length (asset_heap w)) (length vals))
     (mkWorld (entity_heap w) (asset_heap w ++ vals) (error_log w)).
Proof.
  revert w. induction vals as [|v vals IH]; intros w; simpl.
  - rewrite app_nil_r. destruct w; reflexivity.
  - unfold bind, alloc_asset. rewrite IH. simpl.
    rewrite length_app, <- app_assoc. simpl.
    replace (length (asset_heap w) + 1)%nat with (S (length (asset_heap w))) by lia.
    reflexivity.
Qed.

Lemma targets_fresh {A} (heap vals : list A) :
  targets (heap ++ vals) (map Some (seq (length heap) (length vals))) = Some vals.
Proof.
  revert heap. induction vals as [|v vals IH]; intros heap; simpl; [reflexivity|].
  rewrite lookup_app_r by lia. rewrite Nat.sub_diag. simpl.
  pose proof (IH (heap ++ [v])) as H.
  rewrite length_app, <- app_assoc in H. simpl in H.
  replace (length heap + 1)%nat with (S (length heap)) in H by lia.
  rewrite H. reflexivity.
Qed.

(** What [read_members] leaves: the scene read and the store with the
    new objects. *)
Lemma read_members_run ins this w :
  exists this' rest w',
    Scene.read_members ins this w = Ok (this', rest) w' /\
    Scene.settings this' = fst (SceneSettings.deserialize ins) /\
    (let r1 := snd (SceneSettings.deserialize ins) in
     let r2 := snd (read_assets r1) in
     let r3 := snd (read_entities r2) in
     targets (asset_heap w') (Scene.assets this') = Some (fst (read_assets r1)) /\
     targets (entity_heap w') (Scene.entities this') = Some (fst (read_entities r2)) /\
     Scene.constraints this' = fst (read_constraints r3) /\
     rest = snd (read_constraints r3)) /\
    Scene.scene_buffers this' = Scene.scene_buffers this /\
    (exists extra, entity_heap w' = entity_heap w ++ extra) /\
    (exists extra, asset_heap w' = asset_heap w ++ extra) /\
    error_log w' = error_log w.
Proof.
  unfold Scene.read_members.
  destruct (SceneSettings.deserialize ins) as [st r1]. simpl.
  destruct (read_assets r1) as [avs r2]. simpl.
  unfold bind. rewrite map_m_alloc_asset.
  destruct (read_entities r2) as [evs r3]. simpl.
  rewrite map_m_alloc. simpl.
  destruct (read_constraints r3) as [cs r4]. simpl.
  unfold ret. do 3 eexists. split; [reflexivity|]. simpl.
  repeat split; eauto using targets_fresh.
Qed.

(** The outcome of [deserialize], from what the reads return. *)
Lemma deserialize_run (ins : stream) (this : Scene.t) (w : World) :
  let stored := fst (read_uint64 ins) in
  let r0 := snd (read_uint64 ins) in
  let st := fst (SceneSettings.deserialize r0) in
  let r1 := snd (SceneSettings.deserialize r0) in
  let avs := fst (read_assets r1) in
  let r2 := snd (read_assets r1) in
  let evs := fst (read_entities r2) in
  let r3 := snd (read_entities r2) in
  let cs := fst (read_constraints r3) in
  let r4 := snd (read_constraints r3) in
  let recomputed := wrap64 (sum_Z (map asset_hash avs) + sum_Z (map ent_hash evs)) in
  exists this' w',
    Scene.settings this' = st /\
    targets (asset_heap w') (Scene.assets this') = Some avs /\
    targets (entity_heap w') (Scene.entities this') = Some evs /\
    Scene.constraints this' = cs /\
    Scene.hash this' w' = Ok recomputed w' /\
    Scene.deserialize ins this w =
      (if Z.eqb stored recomputed then Ok (this', r4) w'
       else Throw Scene.hash_mismatch w').
Proof.
  intros stored r0 st r1 avs r2 evs r3 cs r4 recomputed.
  assert (Hdef :
    Scene.deserialize ins this w =
    (r <- Scene.read_members r0 this ;;
     h <- Scene.hash (fst r) ;;
     if negb (Z.eqb stored h) then throw Scene.hash_mismatch else ret r) w).
  { unfold Scene.deserialize. subst stored r0.
    destruct (read_uint64 ins); reflexivity. }
  destruct (read_members_run r0 this w)
    as (this' & rest & w' & Hrun & Hst & (Ha & He & Hc & Hrest) & _).
  exists this', w'.
  pose proof (hash_value this' w' _ _ Ha He) as Hh.
  repeat split; auto.
  rewrite Hdef. rewrite (bind_run _ _ _ _ _ Hrun).
  simpl fst. rewrite (bind_run _ _ _ _ _ Hh).
  subst rest. unfold recomputed, avs, evs, r2, r1.
  match goal with
  | |- context [Z.eqb stored ?x] => destruct (Z.eqb stored x)
  end; reflexivity.
Qed.

(** C2.  [deserialize] reads the stored hash, then the settings (name,
    handedness, scale factor), the assets, the entities and the
    constraints, in this order, each from where the previous read
    stopped; the elements read become new objects.  It then computes the
    hash of the scene just built, which is the wrapping sum of the hashes
    of the assets and entities read, and throws "scene hash doesn't
    match" exactly when that differs from the stored hash; otherwise it
    returns the scene.  [create] is [deserialize] on a new scene, so it
    throws in exactly the same case. *)
Theorem deserialize_outcome (ins : stream) (this : Scene.t) (w : World) :
  let stored := fst (read_uint64 ins) in
  let r0 := snd (read_uint64 ins) in
  let st := fst (SceneSettings.deserialize r0) in
  let r1 := snd (SceneSettings.deserialize r0) in
  let avs := fst (read_assets r1) in
  let r2 := snd (read_assets r1) in
  let evs := fst (read_entities r2) in
  let r3 := snd (read_entities r2) in
  let cs := fst (read_constraints r3) in
  let r4 := snd (read_constraints r3) in
  let recomputed := wrap64 (sum_Z (map asset_hash avs) + sum_Z (map ent_hash evs)) in
  st = SceneSettings.mk
         (fst (read_string r0))
         (fst (read_handedness (snd (read_string r0))))
         (fst (read_float (snd (read_handedness (snd (read_string r0)))))) /\
  (exists this' w',
      Scene.settings this' = st /\
      targets (asset_heap w') (Scene.assets this') = Some avs /\
      targets (entity_heap w') (Scene.entities this') = Some evs /\
      Scene.constraints this' = cs /\
      Scene.hash this' w' = Ok recomputed w' /\
      Scene.deserialize ins this w =
        (if Z.eqb stored recomputed then Ok (this', r4) w'
         else Throw Scene.hash_mismatch w')) /\
  ((exists w', Scene.deserialize ins this w = Throw Scene.hash_mismatch w')
     <-> stored <> recomputed) /\
  Scene.create ins w = Scene.deserialize ins Scene.empty w /\
  ((exists w', Scene.create ins w = Throw Scene.hash_mismatch w')
     <-> stored <> recomputed).
Proof.
  intros stored r0 st r1 avs r2 evs r3 cs r4 recomputed.
  assert (Hthrow : forall this0,
    (exists w', Scene.deserialize ins this0 w = Throw Scene.hash_mismatch w')
    <-> stored <> recomputed).
  { intros this0.
    destruct (deserialize_run ins this0 w) as (this' & w' & _ & _ & _ & _ & _ & Hd).
    fold stored r0 r1 r2 r3 r4 avs evs recomputed in Hd.
    rewrite Hd. destruct (Z.eqb_spec stored recomputed) as [Heq|Hne].
    - split; [intros [w'' Hw]; discriminate | contradiction].
    - split; [auto | eauto]. }
  split.
  { subst st. unfold SceneSettings.deserialize.
    destruct (read_string r0) as [n q1]. simpl.
    destruct (read_handedness q1) as [h q2]. simpl.
    destruct (read_float q2) as [f q3]. reflexivity. }
  split; [exact (deserialize_run ins this w)|]. split; [apply Hthrow|].
  split; [reflexivity|]. unfold Scene.create. apply Hthrow.
Qed.

(** C1.  Take a scene whose asset and entity pointers are live, and
    field encodings that read back what they wrote for the members of
    this scene: its hash, the three settings, the asset and constraint
    collections and, of each entity, every member but the ones that are
    derived and not persisted (parent, local and global matrix), which
    may come back as anything; the hash of an entity is to be the same
    with and without these.  Then [serialize] returns a byte stream, and
    [deserialize] of that stream into a new scene returns, with the whole
    stream read: the scene read has the same settings and constraints,
    its assets are new objects equal one by one to those of the
    original, its entities are new objects equal to them one by one in
    every persisted member, and its hash is the stored one. *)
Theorem serialize_deserialize_roundtrip (S : Scene.t) (w : World)
    avs evs evs' :
  targets (asset_heap w) (Scene.assets S) = Some avs ->
  targets (entity_heap w) (Scene.entities S) = Some evs ->
  reads_back write_uint64 read_uint64
    (wrap64 (sum_Z (map asset_hash avs) + sum_Z (map ent_hash evs))) ->
  reads_back write_string read_string (SceneSettings.name (Scene.settings S)) ->
  reads_back write_handedness read_handedness
    (SceneSettings.handedness (Scene.settings S)) ->
  reads_back write_float read_float (SceneSettings.scale_factor (Scene.settings S)) ->
  reads_back write_assets read_assets avs ->
  (forall rest, read_entities (write_entities evs ++ rest) = (evs', rest)) ->
  Forall2 same_persisted evs evs' ->
  Forall2 (fun v v' => ent_hash v' = ent_hash v) evs evs' ->
  reads_back write_constraints read_constraints (Scene.constraints S) ->
  exists bytes S' w' h,
    Scene.serialize [] S w = Ok bytes w /\
    Scene.deserialize bytes Scene.empty w = Ok (S', []) w' /\
    Scene.settings S' = Scene.settings S /\
    targets (asset_heap w') (Scene.assets S') = Some avs /\
    targets (entity_heap w') (Scene.entities S') = Some evs' /\
    length (Scene.entities S') = length (Scene.entities S) /\
    (forall i v, entity_at (entity_heap w) (Scene.entities S) i = Some v ->
       exists v', entity_at (entity_heap w') (Scene.entities S') i = Some v' /\
                  same_persisted v v') /\
    Scene.constraints S' = Scene.constraints S /\
    Scene.hash S w = Ok h w /\
    Scene.hash S' w' = Ok h w' /\
    fst (read_uint64 bytes) = h.
Proof.
  intros Ha He Hu Hn Hh Hf Has Hes Hsame Hhash Hcs.
  assert (Hsum : sum_Z (map ent_hash evs') = sum_Z (map ent_hash evs)).
  { clear -Hhash. induction Hhash as [|v v' evs evs' Hv _ IH]; simpl;
      [reflexivity|]. rewrite Hv, IH. reflexivity. }
  set (h := wrap64 (sum_Z (map asset_hash avs) + sum_Z (map ent_hash evs))) in *.
  pose proof (hash_value S w avs evs Ha He) as Hhash0. fold h in Hhash0.
  set (bytes := write_uint64 h ++ write_string (SceneSettings.name (Scene.settings S))
                ++ write_handedness (SceneSettings.handedness (Scene.settings S))
                ++ write_float (SceneSettings.scale_factor (Scene.settings S))
                ++ write_assets avs ++ write_entities evs
                ++ write_constraints (Scene.constraints S) ++ []).
  assert (Hser : Scene.serialize [] S w = Ok bytes w).
  { unfold Scene.serialize. rewrite (bind_run _ _ _ _ _ Hhash0).
    rewrite (bind_run _ _ _ _ _ (map_m_deref_asset _ _ _ Ha)).
    rewrite (bind_run _ _ _ _ _ (map_m_deref _ _ _ He)).
    unfold ret, SceneSettings.serialize. f_equal. subst bytes.
    rewrite app_nil_r. simpl. rewrite <- !app_assoc. reflexivity. }
  assert (E0 : read_uint64 bytes = (h, write_string (SceneSettings.name (Scene.settings S))
                ++ write_handedness (SceneSettings.handedness (Scene.settings S))
                ++ write_float (SceneSettings.scale_factor (Scene.settings S))
                ++ write_assets avs ++ write_entities evs
                ++ write_constraints (Scene.constraints S) ++ [])) by apply Hu.
  assert (E1 : SceneSettings.deserialize
             (write_string (SceneSettings.name (Scene.settings S))
                ++ write_handedness (SceneSettings.handedness (Scene.settings S))
                ++ write_float (SceneSettings.scale_factor (Scene.settings S))
                ++ write_assets avs ++ write_entities evs
                ++ write_constraints (Scene.constraints S) ++ [])
           = (Scene.settings S, write_assets avs ++ write_entities evs
                ++ write_constraints (Scene.constraints S) ++ [])).
  { unfold SceneSettings.deserialize. rewrite Hn, Hh, Hf.
    destruct (Scene.settings S); reflexivity. }
  pose proof (deserialize_run bytes Scene.empty w) as Hout.
  cbv zeta in Hout.
  unfold reads_back in Has, Hcs.
  rewrite E0 in Hout. simpl fst in Hout. simpl snd in Hout.
  rewrite E1 in Hout. simpl fst in Hout. simpl snd in Hout.
  rewrite Has in Hout. simpl fst in Hout. simpl snd in Hout.
  rewrite Hes in Hout. simpl fst in Hout. simpl snd in Hout.
  rewrite Hcs in Hout. simpl fst in Hout. simpl snd in Hout.
  destruct Hout as (S' & w' & Hs & Hta & Hte & Hc & Hh' & Hd).
  rewrite Hsum in Hh', Hd.
  fold h in Hh', Hd. rewrite Z.eqb_refl in Hd.
  exists bytes, S', w', h. rewrite E0.
  assert (Hlen : length (Scene.entities S') = length (Scene.entities S)).
  { assert (Hl : forall {A} (heap : list A) ps vs,
               targets heap ps = Some vs -> length vs = length ps).
    { intros A heap ps. induction ps as [|p ps IH]; intros vs H; simpl in H.
      - inversion H. reflexivity.
      - destruct (target heap p); [|discriminate].
        destruct (targets heap ps); [|discriminate].
        inversion H. simpl. f_equal. apply IH. reflexivity. }
    rewrite <- (Hl _ _ _ _ Hte), <- (Hl _ _ _ _ He).
    symmetry. eapply Forall2_length. exact Hsame. }
  assert (Hat : forall i v,
            entity_at (entity_heap w) (Scene.entities S) i = Some v ->
            exists v', entity_at (entity_heap w') (Scene.entities S') i = Some v' /\
                       same_persisted v v').
  { intros i v Hv.
    assert (Hi : (i < length (Scene.entities S))%nat).
    { unfold entity_at in Hv.
      destruct (Scene.entities S !! i) eqn:E; [|discriminate].
      eapply lookup_lt_Some; eauto. }
    destruct (targets_lookup _ _ _ i He Hi) as (p & v0 & Hp & Hv0 & Hvi).
    unfold entity_at in Hv. rewrite Hp, Hv0 in Hv. inversion Hv; subst v0.
    destruct (Forall2_lookup_l _ _ _ _ _ Hsame Hvi) as (v' & Hvi' & Hrel).
    rewrite <- Hlen in Hi.
    destruct (targets_lookup _ _ _ i Hte Hi) as (p' & v1 & Hp' & Hv1 & Hvi1).
    rewrite Hvi' in Hvi1. inversion Hvi1; subst v1.
    exists v'. split; [|exact Hrel].
    unfold entity_at. rewrite Hp'. exact Hv1. }
  repeat split; auto.
Qed.
End Serialization.

(** A scene whose entities have been linked: the stream is read back, the
    entities as they were but for parent and matrices. *)
Lemma serialize_deserialize_roundtrip_witness :
  exists bytes S' w',
    Scene.serialize [] linked_scene linked_world = Ok bytes linked_world /\
    Scene.deserialize bytes Scene.empty linked_world = Ok (S', []) w' /\
    Scene.settings S' = Scene.settings linked_scene /\
    Scene.constraints S' = Scene.constraints linked_scene /\
    targets (entity_heap w') (Scene.entities S') =
      Some [Example.entity 3 "/A/B/C" EntityType.Transform false matrix_C;
            Example.entity 1 "/A" EntityType.Transform false matrix_A;
            Example.entity 2 "/A/B" EntityType.Transform false matrix_B] /\
    targets (entity_heap linked_world) (Scene.entities linked_scene) =
      Some [linked_entity 3 "/A/B/C" (Some 2%nat) matrix_C;
            linked_entity 1 "/A" None matrix_A;
            linked_entity 2 "/A/B" (Some 1%nat) matrix_B].
Proof.
  destruct (serialize_deserialize_roundtrip linked_scene linked_world
              []
              [linked_entity 3 "/A/B/C" (Some 2%nat) matrix_C;
               linked_entity 1 "/A" None matrix_A;
               linked_entity 2 "/A/B" (Some 1%nat) matrix_B]
              [Example.entity 3 "/A/B/C" EntityType.Transform false matrix_C;
               Example.entity 1 "/A" EntityType.Transform false matrix_A;
               Example.entity 2 "/A/B" EntityType.Transform false matrix_B])
    as (bytes & S' & w' & h & Hser & Hde & Hs & _ & He & _ & _ & Hc & _).
  - reflexivity.
  - reflexivity.
  - intros rest. vm_compute. reflexivity.
  - intros rest. vm_compute. reflexivity.
  - intros rest. vm_compute. reflexivity.
  - intros rest. vm_compute. reflexivity.
  - intros rest. vm_compute. reflexivity.
  - intros rest. vm_compute. reflexivity.
  - repeat constructor.
  - repeat constructor.
  - intros rest. vm_compute. reflexivity.
  - exists bytes, S', w'. repeat (split; [assumption|]). reflexivity.
Defined.


(** ** [import] *)

Section ImportFacts.
Context {D : Domain} {C : Collaborators}.

Lemma targets_live {A} (heap : list A) ptrs vs :
  targets heap ptrs = Some vs ->
  Forall (fun p => exists l, p = Some l /\ (l < length heap)%nat) ptrs.
Proof.
  revert vs. induction ptrs as [|p ptrs IH]; intros vs Ht; simpl in Ht.
  - constructor.
  - destruct (target heap p) as [v|] eqn:Ev; [|discriminate].
    destruct (targets heap ptrs) as [vs'|]; [|discriminate].
    constructor; [|eapply IH; reflexivity].
    destruct p as [l|]; [|discriminate]. exists l. split; [reflexivity|].
    eapply lookup_lt_Some. exact Ev.
Qed.

Lemma update_all_length {A} (f : A -> A) ptrs (heap : list A) :
  length (update_all f ptrs heap) = length heap.
Proof.
  unfold update_all. revert heap.
  induction ptrs as [|p ptrs IH]; intros heap; simpl; [reflexivity|].
  rewrite IH. destruct p as [l|]; [|reflexivity].
  destruct (heap !! l); [apply length_insert|reflexivity].
Qed.



Lemma update_entities_loop (f : Transform.t -> Transform.t) ptrs w :
  Forall (fun p => exists l, p = Some l /\ (l < length (entity_heap w))%nat) ptrs ->
  for_each (fun obj (_ : unit) => v <- deref obj ;; Scene.store_at obj (f v)) ptrs tt w
  = Ok tt (mkWorld (update_all f ptrs (entity_heap w)) (asset_heap w) (error_log w)).
Proof.
  revert w. induction ptrs as [|p ptrs IH]; intros w Hlive; simpl.
  - destruct w; reflexivity.
  - apply Forall_cons in Hlive as [(l & -> & Hl) Hlive].
    apply lookup_lt_is_Some in Hl as [v Hv].
    assert (Hbody : (v <- deref (Some l) ;; Scene.store_at (Some l) (f v)) w =
                    Ok tt (mkWorld (<[l := f v]> (entity_heap w)) (asset_heap w)
                                   (error_log w))).
    { unfold bind, deref, Scene.store_at, store. rewrite Hv. simpl. rewrite Hv. reflexivity. }
    rewrite (bind_run _ _ _ _ _ Hbody). rewrite IH; simpl.
    + unfold update_all at 2. simpl. rewrite Hv. reflexivity.
    + rewrite length_insert. exact Hlive.
Qed.

Lemma update_assets_loop (f : Asset.t -> Asset.t) ptrs w :
  Forall (fun p => exists l, p = Some l /\ (l < length (asset_heap w))%nat) ptrs ->
  for_each (fun asset (_ : unit) =>
              a <- deref_asset asset ;;
              match asset with
              | Some l => store_asset l (f a)
              | None => undefined
              end) ptrs tt w
  = Ok tt (mkWorld (entity_heap w) (update_all f ptrs (asset_heap w)) (error_log w)).
Proof.
  revert w. induction ptrs as [|p ptrs IH]; intros w Hlive; simpl.
  - destruct w; reflexivity.
  - apply Forall_cons in Hlive as [(l & -> & Hl) Hlive].
    apply lookup_lt_is_Some in Hl as [v Hv].
    assert (Hbody : (a <- deref_asset (Some l) ;; store_asset l (f a)) w =
                    Ok tt (mkWorld (entity_heap w) (<[l := f v]> (asset_heap w))
                                   (error_log w))).
    { unfold bind, deref_asset, store_asset. rewrite Hv. simpl. rewrite Hv. reflexivity. }
    rewrite (bind_run _ _ _ _ _ Hbody). rewrite IH; simpl.
    + unfold update_all at 2. simpl. rewrite Hv. reflexivity.
    + rewrite length_insert. exact Hlive.
Qed.

Lemma occurrences_absent (p : option loc) ptrs :
  p ∉ ptrs -> occurrences p ptrs = 0%nat.
Proof.
  unfold occurrences. induction ptrs as [|q ptrs IH]; intros Hp; simpl;
    [reflexivity|].
  apply not_elem_of_cons in Hp as [Hne Hp].
  rewrite bool_decide_eq_false_2 by congruence. apply IH. exact Hp.
Qed.

Lemma occurrences_NoDup (p : option loc) ptrs :
  NoDup ptrs -> (occurrences p ptrs <= 1)%nat.
Proof.
  induction 1 as [|q ptrs Hq Hnd IH]; [unfold occurrences; simpl; lia|].
  unfold occurrences in *. simpl.
  destruct (decide (q = p)) as [->|Hne].
  - rewrite bool_decide_eq_true_2 by reflexivity. simpl.
    pose proof (occurrences_absent p ptrs Hq) as H0.
    unfold occurrences in H0. lia.
  - rewrite bool_decide_eq_false_2 by exact Hne. exact IH.
Qed.

(** Distinct pointers: no object is shared, so there is no race. *)
Lemma no_shared_write (writes : Transform.t -> bool) heap ptrs :
  NoDup ptrs -> existsb (shared_write writes heap ptrs) ptrs = false.
Proof.
  intros Hnd.
  destruct (existsb (shared_write writes heap ptrs) ptrs) eqn:E; [|reflexivity].
  apply existsb_exists in E as (p & _ & Hp).
  unfold shared_write in Hp.
  destruct p as [l|]; [|discriminate].
  destruct (heap !! l); [|discriminate].
  apply andb_true_iff in Hp as [_ Hp]. apply Nat.ltb_lt in Hp.
  pose proof (occurrences_NoDup (Some l) ptrs Hnd). lia.
Qed.

Lemma parallel_for_each_run (writes : Transform.t -> bool)
    (body : option loc -> M unit) ptrs w :
  NoDup ptrs ->
  parallel_for_each writes body ptrs w =
  for_each (fun p (_ : unit) => body p) ptrs tt w.
Proof.
  intros Hnd. unfold parallel_for_each.
  rewrite (no_shared_write writes _ _ Hnd). reflexivity.
Qed.

Lemma update_all_lookup {A} (f : A -> A) ptrs (heap : list A) l :
  update_all f ptrs heap !! l =
  Nat.iter (slots_of ptrs l) f <$> heap !! l.
Proof.
  unfold update_all, slots_of. revert heap.
  induction ptrs as [|p ptrs IH]; intros heap; simpl.
  - destruct (heap !! l); reflexivity.
  - rewrite IH. destruct p as [l'|].
    + destruct (decide (l' = l)) as [->|Hne].
      * rewrite bool_decide_eq_true_2 by reflexivity. simpl length.
        destruct (heap !! l) as [v|] eqn:Hv.
        -- rewrite list_lookup_insert_eq by (eapply lookup_lt_Some; eauto).
           simpl. f_equal. symmetry. apply Nat.iter_succ_r.
        -- rewrite Hv. reflexivity.
      * rewrite bool_decide_eq_false_2 by congruence.
        destruct (heap !! l') as [v'|]; [|reflexivity].
        rewrite list_lookup_insert_ne by exact Hne. reflexivity.
    + rewrite bool_decide_eq_false_2 by discriminate. reflexivity.
Qed.

Lemma slots_of_NoDup ptrs l :
  NoDup ptrs ->
  slots_of ptrs l = if bool_decide (Some l ∈ ptrs) then 1%nat else 0%nat.
Proof.
  intros Hnd. change (slots_of ptrs l) with (occurrences (Some l) ptrs).
  destruct (decide (Some l ∈ ptrs)) as [Hin|Hout].
  - rewrite bool_decide_eq_true_2 by exact Hin.
    pose proof (occurrences_NoDup (Some l) ptrs Hnd) as Hle.
    assert (occurrences (Some l) ptrs <> 0%nat); [|lia].
    unfold occurrences. intros H0. apply length_zero_iff_nil in H0.
    assert (Hf : Some l ∈ List.filter (fun q => bool_decide (q = Some l)) ptrs).
    { apply list_elem_of_In, filter_In. split; [apply list_elem_of_In; exact Hin|].
      apply bool_decide_eq_true_2. reflexivity. }
    rewrite H0 in Hf. inversion Hf.
  - rewrite bool_decide_eq_false_2 by exact Hout.
    apply occurrences_absent. exact Hout.
Qed.

Lemma targets_same_length {A} (heap heap' : list A) ptrs :
  length heap' = length heap ->
  is_Some (targets heap ptrs) -> is_Some (targets heap' ptrs).
Proof.
  intros Hlen [vs Hvs].
  pose proof (targets_live _ _ _ Hvs) as Hlive. clear Hvs.
  induction Hlive as [|p ptrs (l & -> & Hl) _ IH]; simpl; [eauto|].
  rewrite <- Hlen in Hl. apply lookup_lt_is_Some in Hl as [v Hv].
  rewrite Hv. destruct IH as [us ->]. eauto.
Qed.

(** What [import] computes on a scene whose pointers are live, the
    entities being distinct. *)
Lemma import_run cv this w :
  ents_valid (entity_heap w) (Scene.entities this) ->
  NoDup (Scene.entities this) ->
  is_Some (targets (asset_heap w) (Scene.assets this)) ->
  let converters := Scene.import_converters (Scene.settings this) cv in
  Scene.import cv this w =
  Ok (canonical this)
     (mkWorld (update_all (Scene.import_entity cv converters)
                          (Scene.entities this) (entity_heap w))
              (update_all (Scene.import_asset converters)
                          (Scene.assets this) (asset_heap w))
              (error_log w)).
Proof.
  intros [evs He] Hnd [avs Ha] converters. unfold Scene.import. fold converters.
  erewrite bind_run; cycle 1.
  { rewrite parallel_for_each_run by exact Hnd.
    apply update_entities_loop. eapply targets_live. exact He. }
  erewrite bind_run;
    [|apply update_assets_loop; simpl; eapply targets_live; exact Ha].
  reflexivity.
Qed.


Lemma set_path_same (e : Transform.t) : Transform.set_path (Transform.path e) e = e.
Proof. destruct e; reflexivity. Qed.



End ImportFacts.



(** A stream whose stored hash was overwritten is rejected. *)
Lemma deserialize_rejects_corruption :
  exists bytes w',
    Scene.serialize [] persisted snapshots_world = Ok bytes snapshots_world /\
    Scene.deserialize (<[0%nat := Byte.xff]> bytes) Scene.empty snapshots_world
      = Throw Scene.hash_mismatch w' /\
    Scene.create (<[0%nat := Byte.xff]> bytes) snapshots_world
      = Throw Scene.hash_mismatch w'.
Proof.
  do 2 eexists. split; [vm_compute; reflexivity|].
  split; vm_compute; reflexivity.
Qed.


(** ** Loops over blocks and over indices *)

Section Loops.
Context {D : Domain}.

Lemma for_each_concat {A S} (body : A -> S -> M S) (blocks : list (list A)) s w :
  for_each (fun b s => for_each body b s) blocks s w =
  for_each body (concat blocks) s w.
Proof.
  revert s w. induction blocks as [|b blocks IH]; intros s w; simpl; [reflexivity|].
  rewrite for_each_app. unfold bind.
  destruct (for_each body b s w); auto.
Qed.

Lemma for_each_map {A B S} (body : B -> S -> M S) (f : A -> B) l s w :
  for_each (fun x s => body (f x) s) l s w = for_each body (map f l) s w.
Proof.
  revert s w. induction l as [|x l IH]; intros s w; simpl; [reflexivity|].
  unfold bind. destruct (body (f x) s w); auto.
Qed.

(** A body that does not look at the value threaded through the loop
    can as well thread nothing. *)
Lemma for_each_forget {A S} (body : A -> S -> M S) l s0 s w :
  (forall x s s' w, body x s w = body x s' w) ->
  (for_each body l s ;;; ret tt) w =
  for_each (fun x (_ : unit) => body x s0 ;;; ret tt) l tt w.
Proof.
  intros Hbody. revert s w.
  induction l as [|x l IH]; intros s w; simpl; [reflexivity|].
  rewrite !bind_bind. apply bind_ext. rewrite (Hbody x s s0 w).
  destruct (body x s0 w) as [s1 w1| |]; auto.
Qed.

(** The blocks of [parallel_for_blocked] are the index range, in order. *)
Lemma blocks_cover g fuel first last :
  (0 < g)%nat -> (last - first <= fuel)%nat ->
  concat (map (fun b => seq b (Nat.min (b + g) last - b))
              (block_starts_from fuel first last g))
  = seq first (last - first).
Proof.
  intros Hg. revert first.
  induction fuel as [|fuel IH]; intros first Hfuel; simpl.
  - replace (last - first)%nat with 0%nat by lia. reflexivity.
  - destruct (Nat.ltb_spec first last) as [Hlt|Hge]; simpl.
    + rewrite IH by lia.
      destruct (Nat.le_gt_cases last (first + g)) as [Hle|Hgt].
      * rewrite Nat.min_r by lia.
        replace (last - (first + g))%nat with 0%nat by lia.
        simpl. rewrite app_nil_r. reflexivity.
      * rewrite Nat.min_l by lia.
        replace (first + g - first)%nat with g by lia.
        replace (last - first)%nat with (g + (last - (first + g)))%nat by lia.
        rewrite seq_app. reflexivity.
    + replace (last - first)%nat with 0%nat by lia. reflexivity.
Qed.

Lemma parallel_for_blocked_flat {S} (g n : nat) (body : nat -> S -> M S) s w :
  (0 < g)%nat ->
  parallel_for_blocked 0 n g
    (fun begin end_ s => for_each body (seq begin (end_ - begin)) s) s w
  = for_each body (seq 0 n) s w.
Proof.
  intros Hg. unfold parallel_for_blocked, block_starts.
  rewrite (for_each_map (fun r s => for_each body r s)
             (fun b => seq b (Nat.min (b + g) n - b))).
  rewrite for_each_concat, blocks_cover by lia.
  rewrite Nat.sub_0_r. reflexivity.
Qed.

(** A loop over the indices of a vector is a loop over its elements. *)
Lemma for_each_indices {A St} (body : A -> St -> M St) (pre l : list A) s w :
  for_each (fun i s => x <- at_ (pre ++ l) i ;; body x s)
           (seq (length pre) (length l)) s w
  = for_each body l s w.
Proof.
  revert pre s w. induction l as [|x l IH]; intros pre s w; simpl; [reflexivity|].
  unfold bind at 1. unfold bind at 1. unfold at_ at 1.
  rewrite list_lookup_middle by reflexivity.
  unfold bind at 2.
  destruct (body x s w) as [s1 w1| |]; auto.
  specialize (IH (pre ++ [x]) s1 w1).
  rewrite length_app, <- app_assoc in IH. simpl in IH.
  replace (length pre + 1)%nat with (S (length pre)) in IH by lia.
  exact IH.
Qed.
End Loops.


(** ** The order on paths and the sorted index *)

Lemma str_lt_irrefl a : str_lt a a = false.
Proof.
  unfold str_lt. destruct (String_as_OT.compare_spec a a) as [_|H|H];
    try reflexivity; exfalso; eapply (StrictOrder_Irreflexive a); exact H.
Qed.

Lemma str_lt_lt a b : str_lt a b = true <-> String_as_OT.lt a b.
Proof.
  unfold str_lt, String_as_OT.lt.
  destruct (String_as_OT.compare a b); split; intros H; try discriminate; reflexivity.
Qed.

Lemma str_lt_trans a b c : str_lt a b = true -> str_lt b c = true -> str_lt a c = true.
Proof.
  rewrite !str_lt_lt. apply (@StrictOrder_Transitive _ _ String_as_OT.lt_strorder).
Qed.

Lemma str_lt_total a b : str_lt a b = false -> str_lt b a = false -> a = b.
Proof.
  intros Hab Hba.
  destruct (String_as_OT.compare_spec a b) as [Heq|Hlt|Hgt].
  - exact Heq.
  - apply str_lt_lt in Hlt. congruence.
  - apply str_lt_lt in Hgt. congruence.
Qed.

Lemma str_le_trans a b c :
  str_lt b a = false -> str_lt c b = false -> str_lt c a = false.
Proof.
  intros Hab Hbc. destruct (str_lt c a) eqn:Hca; [|reflexivity].
  destruct (str_lt a b) eqn:Eab.
  - rewrite (str_lt_trans c a b Hca Eab) in Hbc. discriminate.
  - rewrite (str_lt_total a b Eab Hab) in Hca. congruence.
Qed.

Section Find.
Context {D : Domain} {C : Collaborators}.

Lemma find_nil heap key : Scene.find heap [] key = None.
Proof. reflexivity. Qed.

Lemma find_cons heap x sorted key :
  Scene.find heap (x :: sorted) key =
  if str_lt (Scene.path_at heap x) key then Scene.find heap sorted key
  else if String.eqb (Scene.path_at heap x) key then x else None.
Proof.
  unfold Scene.find. simpl.
  destruct (str_lt (Scene.path_at heap x) key); reflexivity.
Qed.

(** What [find] returns is an element of the index that has the path. *)
Lemma find_sound heap sorted key l :
  Scene.find heap sorted key = Some l ->
  Some l ∈ sorted /\ Scene.path_at heap (Some l) = key.
Proof.
  induction sorted as [|x sorted IH]; [discriminate|].
  rewrite find_cons.
  destruct (str_lt (Scene.path_at heap x) key).
  - intros H. destruct (IH H). split; [right|]; assumption.
  - destruct (String.eqb_spec (Scene.path_at heap x) key) as [Heq|]; [|discriminate].
    intros ->. split; [left|exact Heq].
Qed.

(** On a sorted index, an element that has the path is found. *)
Lemma find_complete heap sorted key p :
  StronglySorted (fun a b => str_lt (Scene.path_at heap b) (Scene.path_at heap a) = false)
                 sorted ->
  p ∈ sorted -> Scene.path_at heap p = key ->
  exists q, Scene.find heap sorted key = q /\ q ∈ sorted /\ Scene.path_at heap q = key.
Proof.
  induction 1 as [|x sorted Hs IH Hall]; intros Hin Hkey.
  - inversion Hin.
  - rewrite find_cons.
    destruct (str_lt (Scene.path_at heap x) key) eqn:Hlt.
    + apply elem_of_cons in Hin as [->|Hin].
      * rewrite Hkey, str_lt_irrefl in Hlt. discriminate.
      * destruct (IH Hin Hkey) as (q & Hq & Hqin & Hqk).
        exists q. repeat split; auto. right. exact Hqin.
    + assert (Hx : Scene.path_at heap x = key).
      { apply elem_of_cons in Hin as [->|Hin]; [exact Hkey|].
        rewrite Forall_forall in Hall. specialize (Hall p).
        apply str_lt_total; [exact Hlt|].
        rewrite <- Hkey. apply Hall. exact Hin. }
      rewrite Hx, String.eqb_refl. exists x. repeat split; auto. left.
Qed.

Lemma find_ext heap heap' sorted key :
  (forall p, Scene.path_at heap p = Scene.path_at heap' p) ->
  Scene.find heap sorted key = Scene.find heap' sorted key.
Proof.
  intros Hp. induction sorted as [|x sorted IH]; [reflexivity|].
  rewrite !find_cons, IH, Hp. reflexivity.
Qed.
End Find.


(** ** [CalcGlobalMatrix] *)

Section Global.
Context {D : Domain} {C : Collaborators}.

(** More fuel does not change a result. *)
Lemma CalcGlobalMatrix_rec_mono fuel heap v m :
  Scene.CalcGlobalMatrix_rec fuel heap v = Some m ->
  Scene.CalcGlobalMatrix_rec (S fuel) heap v = Some m.
Proof.
  revert v m. induction fuel as [|fuel IH]; intros v m; [discriminate|].
  intros H. simpl in H. change (Scene.CalcGlobalMatrix_rec (S (S fuel)) heap v) with
    (match Transform.parent v with
     | None => Some (Transform.local_matrix v)
     | Some p =>
         match heap !! p with
         | Some tp =>
             match Scene.CalcGlobalMatrix_rec (S fuel) heap tp with
             | Some m => Some (mat_mul (Transform.local_matrix v) m)
             | None => None
             end
         | None => None
         end
     end).
  destruct (Transform.parent v) as [p|]; [|exact H].
  destruct (heap !! p) as [tp|]; [|discriminate].
  destruct (Scene.CalcGlobalMatrix_rec fuel heap tp) as [m'|] eqn:E; [|discriminate].
  rewrite (IH tp m' E). exact H.
Qed.

(** The result depends on the parent pointers and local matrices only. *)
Lemma CalcGlobalMatrix_rec_ext fuel heap heap' v v' :
  (forall l, option_map link_of (heap !! l) = option_map link_of (heap' !! l)) ->
  link_of v = link_of v' ->
  Scene.CalcGlobalMatrix_rec fuel heap v = Scene.CalcGlobalMatrix_rec fuel heap' v'.
Proof.
  intros Hheap. revert v v'.
  induction fuel as [|fuel IH]; intros v v' Hv; [reflexivity|].
  simpl. unfold link_of in Hv. inversion Hv as [[Hp Hl]]. rewrite Hp, Hl.
  destruct (Transform.parent v') as [p|]; [|reflexivity].
  specialize (Hheap p).
  destruct (heap !! p) as [tp|], (heap' !! p) as [tp'|]; simpl in Hheap;
    try discriminate; [|reflexivity].
  assert (Htp : link_of tp = link_of tp') by congruence.
  rewrite (IH tp tp' Htp). reflexivity.
Qed.

Lemma filter_length_lt {A} (P Q : A -> bool) (l : list A) x :
  (forall u, P u = true -> Q u = true) ->
  x ∈ l -> Q x = true -> P x = false ->
  (length (List.filter P l) < length (List.filter Q l))%nat.
Proof.
  intros HPQ Hin HQ HP.
  assert (Hle : forall l', (length (List.filter P l') <= length (List.filter Q l'))%nat).
  { induction l' as [|y l' IH]; simpl; [lia|].
    destruct (P y) eqn:EP.
    - rewrite (HPQ y EP). simpl. lia.
    - destruct (Q y); simpl; lia. }
  induction l as [|y l IH]; [inversion Hin|].
  apply elem_of_cons in Hin as [<-|Hin]; simpl.
  - rewrite HP, HQ. simpl. specialize (Hle l). lia.
  - specialize (IH Hin). destruct (P y) eqn:EP.
    + rewrite (HPQ y EP). simpl. lia.
    + destruct (Q y); simpl; lia.
Qed.

(** When every parent pointer leads to an object of a shorter path, the
    recursion ends within as many steps as the store has objects. *)
Lemma CalcGlobalMatrix_rec_total (E : loc -> Prop) heap :
  (forall l v p, E l -> heap !! l = Some v -> Transform.parent v = Some p ->
      E p /\ exists vp, heap !! p = Some vp /\
        (String.length (Transform.path vp) < String.length (Transform.path v))%nat) ->
  forall l v, E l -> heap !! l = Some v ->
    is_Some (Scene.CalcGlobalMatrix_rec (S (length heap)) heap v).
Proof.
  intros Hwf.
  assert (Hfuel : forall fuel l v, E l -> heap !! l = Some v ->
            (shorter_paths heap v < fuel)%nat ->
            is_Some (Scene.CalcGlobalMatrix_rec fuel heap v)).
  { induction fuel as [|fuel IH]; intros l v HE Hl Hc; [lia|].
    simpl. destruct (Transform.parent v) as [p|] eqn:Hp; [|eauto].
    destruct (Hwf l v p HE Hl Hp) as (HEp & vp & Hvp & Hlen).
    rewrite Hvp.
    destruct (IH p vp HEp Hvp) as [m Hm]; [|rewrite Hm; eauto].
    assert (shorter_paths heap vp < shorter_paths heap v)%nat; [|lia].
    unfold shorter_paths. apply (filter_length_lt _ _ heap vp).
    - intros u Hu. apply Nat.ltb_lt in Hu. apply Nat.ltb_lt. lia.
    - apply list_elem_of_lookup. eauto.
    - apply Nat.ltb_lt. exact Hlen.
    - apply Nat.ltb_ge. lia. }
  intros l v HE Hl. apply (Hfuel _ l v HE Hl).
  unfold shorter_paths.
  pose proof (List.filter_length_le
                (fun u => Nat.ltb (String.length (Transform.path u))
                                  (String.length (Transform.path v))) heap).
  lia.
Qed.

Lemma parent_path_shorter p :
  p <> EmptyString -> (String.length (parent_path p) < String.length p)%nat.
Proof.
  assert (H : forall s r, drop_last_segment s = Some r ->
                          (String.length r < String.length s)%nat).
  { induction s as [|c s IH]; intros r; simpl; [discriminate|].
    destruct (drop_last_segment s) as [r'|].
    - intros Hr. inversion Hr; subst. simpl. specialize (IH r' eq_refl). lia.
    - destruct (Ascii.eqb c "/"); [|discriminate].
      intros Hr. inversion Hr; subst. simpl. lia. }
  intros Hne. unfold parent_path.
  destruct (drop_last_segment p) as [r|] eqn:E.
  - apply H. exact E.
  - destruct p; [contradiction|simpl; lia].
Qed.
End Global.


(** ** [buildHierarchy] *)

Section Hierarchy.
Context {D : Domain} {C : Collaborators}.

(** A loop that returns and establishes, after each prefix of its
    elements, a property of the state and the store. *)
Lemma for_each_prefix {A St} (P : list A -> St -> World -> Prop)
    (body : A -> St -> M St) (l : list A) :
  (forall pre x post s w, l = pre ++ x :: post -> P pre s w ->
      exists s' w', body x s w = Ok s' w' /\ P (pre ++ [x]) s' w') ->
  forall s w, P [] s w ->
    exists s' w', for_each body l s w = Ok s' w' /\ P l s' w'.
Proof.
  intros Hstep.
  assert (Hgen : forall post pre s w, l = pre ++ post -> P pre s w ->
            exists s' w', for_each body post s w = Ok s' w' /\ P l s' w').
  { induction post as [|x post IH]; intros pre s w Hl HP; simpl.
    - rewrite app_nil_r in Hl. subst pre. eauto.
    - destruct (Hstep pre x post s w Hl HP) as (s1 & w1 & Hrun & HP1).
      rewrite (bind_run _ _ _ _ _ Hrun).
      apply (IH (pre ++ [x])); [|exact HP1].
      rewrite <- app_assoc. exact Hl. }
  intros s w HP. apply (Hgen l [] s w eq_refl HP).
Qed.

Lemma pass1_flat ents sorted w :
  parent_path_law ->
  parallel_for_blocked 0 (length ents) 32
    (fun begin end_ (_ : unit) =>
       for_each (fun i path => e <- at_ ents i ;; Scene.link_parent sorted e path)
                (seq begin (end_ - begin)) ""%string ;;; ret tt) tt w
  = for_each (fun e (_ : unit) => Scene.link_parent sorted e ""%string ;;; ret tt)
             ents tt w.
Proof.
  intros Hlaw.
  rewrite <- (for_each_indices
                (fun e (_ : unit) => Scene.link_parent sorted e ""%string ;;; ret tt)
                [] ents tt w).
  simpl. rewrite <- (parallel_for_blocked_flat 32) by lia.
  unfold parallel_for_blocked.
  apply (for_each_ext (fun _ => True)); auto.
  intros b [] w' _ _.
  rewrite (for_each_forget _ _ ""%string).
  - apply (for_each_ext (fun _ => True)); auto.
    intros i [] w'' _ _. rewrite bind_bind. reflexivity.
  - intros i s s' w''. apply bind_ext.
    destruct (at_ ents i w'') as [e w3| |]; auto. split; [reflexivity|].
    unfold Scene.link_parent. apply bind_ext.
    destruct (deref e w3) as [v w4| |]; auto. split; [reflexivity|].
    rewrite (Hlaw v s), (Hlaw v s'). reflexivity.
Qed.

Lemma pass2_flat ents w :
  parallel_for_blocked 0 (length ents) 32
    (fun begin end_ (_ : unit) =>
       for_each (fun i (_ : unit) => e <- at_ ents i ;; Scene.update_global e)
                (seq begin (end_ - begin)) tt) tt w
  = for_each (fun e (_ : unit) => Scene.update_global e) ents tt w.
Proof.
  rewrite <- (for_each_indices (fun e (_ : unit) => Scene.update_global e)
                [] ents tt w).
  simpl. rewrite <- (parallel_for_blocked_flat 32) by lia.
  unfold parallel_for_blocked.
  apply (for_each_ext (fun _ => True)); auto.
  intros b [] w' _ _. reflexivity.
Qed.
End Hierarchy.


Section HierarchyPasses.
Context {D : Domain} {C : Collaborators}.

Lemma targets_elem {A} (heap : list A) ptrs vs p :
  targets heap ptrs = Some vs -> p ∈ ptrs ->
  exists l v, p = Some l /\ heap !! l = Some v.
Proof.
  revert vs. induction ptrs as [|q ptrs IH]; intros vs Ht Hin; [inversion Hin|].
  simpl in Ht.
  destruct (target heap q) as [v|] eqn:Ev; [|discriminate].
  destruct (targets heap ptrs) as [vs'|]; [|discriminate].
  apply elem_of_cons in Hin as [->|Hin].
  - destruct q as [l|]; [|discriminate]. eauto.
  - eapply IH; eauto.
Qed.

Lemma visited_start f w0 : visited f w0 [] w0.
Proof.
  repeat split; auto.
Qed.

(** One more pointer visited, by a store through it. *)
Lemma visited_step f w0 pre l v0 w :
  visited f w0 pre w ->
  Some l ∉ pre ->
  entity_heap w0 !! l = Some v0 ->
  visited f w0 (pre ++ [Some l])
    (mkWorld (<[l := f v0]> (entity_heap w)) (asset_heap w) (error_log w)).
Proof.
  intros (Hlen & Ha & Hlog & Hobj) Hnew Hl. unfold visited. simpl.
  rewrite length_insert. repeat split; auto.
  intros l' v0' Hl'. destruct (decide (l' = l)) as [->|Hne].
  - rewrite list_lookup_insert_eq.
    + rewrite bool_decide_eq_true_2 by (apply elem_of_app; right; left).
      congruence.
    + rewrite Hlen. eapply lookup_lt_Some. exact Hl.
  - rewrite list_lookup_insert_ne by congruence.
    rewrite (Hobj l' v0' Hl'). f_equal.
    destruct (bool_decide_reflect (Some l' ∈ pre)) as [Hin|Hnin].
    + rewrite bool_decide_eq_true_2; [reflexivity|].
      apply elem_of_app. left. exact Hin.
    + rewrite bool_decide_eq_false_2; [reflexivity|].
      intros Hin. apply elem_of_app in Hin as [Hin|Hin]; [contradiction|].
      apply list_elem_of_singleton in Hin. congruence.
Qed.

Lemma visited_path_at f w0 pre w :
  (forall v, Transform.path (f v) = Transform.path v) ->
  visited f w0 pre w ->
  forall p, Scene.path_at (entity_heap w) p = Scene.path_at (entity_heap w0) p.
Proof.
  intros Hf (Hlen & _ & _ & Hobj) [l|]; [|reflexivity]. simpl.
  destruct (entity_heap w0 !! l) as [v0|] eqn:E0.
  - rewrite (Hobj l v0 E0). destruct (bool_decide _); auto.
  - apply lookup_ge_None in E0. rewrite <- Hlen in E0.
    apply lookup_ge_None in E0. rewrite E0. reflexivity.
Qed.

(** The first pass. *)
Lemma pass1_run ents sorted w0 :
  parent_path_law ->
  ents_valid (entity_heap w0) ents ->
  NoDup ents ->
  exists w1,
    for_each (fun e (_ : unit) => Scene.link_parent sorted e ""%string ;;; ret tt)
             ents tt w0 = Ok tt w1 /\
    visited (linked (entity_heap w0) sorted) w0 ents w1.
Proof.
  intros Hlaw [vs Hvalid] Hnd.
  destruct (for_each_prefix
              (fun pre (_ : unit) w => visited (linked (entity_heap w0) sorted) w0 pre w)
              (fun e (_ : unit) => Scene.link_parent sorted e ""%string ;;; ret tt)
              ents) with (s := tt) (w := w0) as ([] & w1 & Hrun & Hvis).
  - intros pre x post [] w Hents Hvis.
    destruct (targets_elem _ _ _ x Hvalid) as (l & v0 & -> & Hl0).
    { rewrite Hents. apply elem_of_app. right. left. }
    assert (Hnew : Some l ∉ pre).
    { rewrite Hents in Hnd. apply NoDup_app in Hnd as (_ & Hdisj & _).
      intros Hin. apply (Hdisj _ Hin). left. }
    assert (Hl : entity_heap w !! l = Some v0).
    { destruct Hvis as (_ & _ & _ & Hobj). rewrite (Hobj l v0 Hl0).
      rewrite bool_decide_eq_false_2 by exact Hnew. reflexivity. }
    exists tt. eexists. split; [|apply (visited_step _ _ _ l v0 w Hvis Hnew Hl0)].
    unfold Scene.link_parent. rewrite bind_bind.
    assert (Hd : deref (Some l) w = Ok v0 w) by (unfold deref; rewrite Hl; reflexivity).
    rewrite (bind_run _ _ _ _ _ Hd). rewrite Hlaw.
    unfold bind, Scene.store_at, store. rewrite Hl. unfold ret.
    rewrite (find_ext (entity_heap w) (entity_heap w0)).
    + reflexivity.
    + apply (visited_path_at (linked (entity_heap w0) sorted) w0 pre w
               (fun v => eq_refl) Hvis).
  - apply visited_start.
  - exists w1. split; assumption.
Qed.

Lemma visited_link_of f w0 pre w :
  (forall v, link_of (f v) = link_of v) ->
  visited f w0 pre w ->
  forall l, option_map link_of (entity_heap w !! l)
            = option_map link_of (entity_heap w0 !! l).
Proof.
  intros Hf (Hlen & _ & _ & Hobj) l.
  destruct (entity_heap w0 !! l) as [v0|] eqn:E0.
  - rewrite (Hobj l v0 E0). simpl. destruct (bool_decide _); [rewrite Hf|]; reflexivity.
  - apply lookup_ge_None in E0. rewrite <- Hlen in E0.
    apply lookup_ge_None in E0. rewrite E0. reflexivity.
Qed.

(** The second pass, on a store where the recursion ends. *)
Lemma pass2_run ents w1 :
  ents_valid (entity_heap w1) ents ->
  NoDup ents ->
  (forall l v, Some l ∈ ents -> entity_heap w1 !! l = Some v ->
     is_Some (Scene.CalcGlobalMatrix_rec (S (length (entity_heap w1)))
                                         (entity_heap w1) v)) ->
  exists w2,
    for_each (fun e (_ : unit) => Scene.update_global e) ents tt w1 = Ok tt w2 /\
    visited (fun v => Transform.set_global_matrix (global_of (entity_heap w1) v) v)
            w1 ents w2.
Proof.
  intros [vs Hvalid] Hnd Htotal.
  set (f := fun v => Transform.set_global_matrix (global_of (entity_heap w1) v) v).
  destruct (for_each_prefix
              (fun pre (_ : unit) w => visited f w1 pre w)
              (fun e (_ : unit) => Scene.update_global e)
              ents) with (s := tt) (w := w1) as ([] & w2 & Hrun & Hvis).
  - intros pre x post [] w Hents Hvis.
    assert (Hx : x ∈ ents) by (rewrite Hents; apply elem_of_app; right; left).
    destruct (targets_elem _ _ _ x Hvalid Hx) as (l & v1 & -> & Hl1).
    assert (Hnew : Some l ∉ pre).
    { rewrite Hents in Hnd. apply NoDup_app in Hnd as (_ & Hdisj & _).
      intros Hin. apply (Hdisj _ Hin). left. }
    assert (Hl : entity_heap w !! l = Some v1).
    { destruct Hvis as (_ & _ & _ & Hobj). rewrite (Hobj l v1 Hl1).
      rewrite bool_decide_eq_false_2 by exact Hnew. reflexivity. }
    exists tt. eexists. split; [|apply (visited_step _ _ _ l v1 w Hvis Hnew Hl1)].
    unfold Scene.update_global.
    assert (Hd : deref (Some l) w = Ok v1 w) by (unfold deref; rewrite Hl; reflexivity).
    rewrite (bind_run _ _ _ _ _ Hd).
    assert (Hg : Scene.CalcGlobalMatrix v1 w = Ok (global_of (entity_heap w1) v1) w).
    { unfold Scene.CalcGlobalMatrix, global_of.
      destruct Hvis as (Hlen & Hrest). rewrite Hlen.
      rewrite (CalcGlobalMatrix_rec_ext _ (entity_heap w) (entity_heap w1) v1 v1).
      - destruct (Htotal l v1 Hx Hl1) as [m ->]. reflexivity.
      - apply (visited_link_of f w1 pre w); [reflexivity|].
        split; assumption.
      - reflexivity. }
    rewrite (bind_run _ _ _ _ _ Hg).
    unfold Scene.store_at, store. rewrite Hl. reflexivity.
  - apply visited_start.
  - exists w2. split; assumption.
Qed.
End HierarchyPasses.


Section HierarchySpec.
Context {D : Domain} {C : Collaborators}.

Lemma targets_intro {A} (heap : list A) ptrs :
  (forall p, p ∈ ptrs -> exists l v, p = Some l /\ heap !! l = Some v) ->
  is_Some (targets heap ptrs).
Proof.
  induction ptrs as [|p ptrs IH]; intros Hall; simpl; [eauto|].
  destruct (Hall p) as (l & v & -> & Hl); [left|]. simpl. rewrite Hl.
  destruct IH as [vs ->]; [|eauto].
  intros q Hq. apply Hall. right. exact Hq.
Qed.

Lemma visited_valid f w0 pre w ents :
  visited f w0 pre w ->
  ents_valid (entity_heap w0) ents -> ents_valid (entity_heap w) ents.
Proof.
  intros (_ & _ & _ & Hobj) [vs Hvs]. apply targets_intro.
  intros p Hp. destruct (targets_elem _ _ _ p Hvs Hp) as (l & v0 & -> & Hl).
  exists l. eexists. split; [reflexivity|]. apply (Hobj l v0 Hl).
Qed.

(** [buildHierarchy] returns, and the store it leaves is the one after
    the two passes. *)
Lemma buildHierarchy_run (this : Scene.t) (w : World) :
  sort_law -> parent_path_law ->
  ents_valid (entity_heap w) (Scene.entities this) ->
  NoDup (Scene.entities this) ->
  paths_nonempty (entity_heap w) (Scene.entities this) ->
  let sorted :=
    std_sort (fun a b => str_lt (Scene.path_at (entity_heap w) a)
                                (Scene.path_at (entity_heap w) b))
             (Scene.entities this) in
  exists w1 w2,
    Scene.buildHierarchy this w = Ok this w2 /\
    visited (linked (entity_heap w) sorted) w (Scene.entities this) w1 /\
    visited (fun v => Transform.set_global_matrix (global_of (entity_heap w1) v) v)
            w1 (Scene.entities this) w2 /\
    (forall l v, Some l ∈ Scene.entities this -> entity_heap w1 !! l = Some v ->
       is_Some (Scene.CalcGlobalMatrix_rec (S (length (entity_heap w1)))
                                           (entity_heap w1) v)).
Proof.
  intros Hsort Hlaw Hvalid Hnd Hne sorted.
  destruct (pass1_run (Scene.entities this) sorted w Hlaw Hvalid Hnd)
    as (w1 & Hrun1 & Hvis1).
  pose proof (visited_valid _ _ _ _ _ Hvis1 Hvalid) as Hvalid1.
  destruct (Hsort (Scene.path_at (entity_heap w)) (Scene.entities this))
    as [Hperm _]. fold sorted in Hperm.
  assert (Hobj1 : forall l v0, Some l ∈ Scene.entities this ->
            entity_heap w !! l = Some v0 ->
            entity_heap w1 !! l = Some (linked (entity_heap w) sorted v0)).
  { intros l v0 Hin Hl. destruct Hvis1 as (_ & _ & _ & Hobj).
    rewrite (Hobj l v0 Hl). rewrite bool_decide_eq_true_2 by exact Hin. reflexivity. }
  assert (Htotal : forall l v, Some l ∈ Scene.entities this ->
            entity_heap w1 !! l = Some v ->
            is_Some (Scene.CalcGlobalMatrix_rec (S (length (entity_heap w1)))
                                                (entity_heap w1) v)).
  { apply (CalcGlobalMatrix_rec_total (fun l => Some l ∈ Scene.entities this)).
    intros l v p Hin Hl Hp.
    destruct Hvalid as [vs Hvs].
    destruct (targets_elem _ _ _ _ Hvs Hin) as (l' & v0 & Heq & Hl0).
    inversion Heq; subst l'. rewrite (Hobj1 l v0 Hin Hl0) in Hl.
    inversion Hl; subst v. simpl in Hp.
    apply find_sound in Hp as [Hps Hpath].
    assert (Hpin : Some p ∈ Scene.entities this) by (rewrite <- Hperm; exact Hps).
    split; [exact Hpin|].
    destruct (targets_elem _ _ _ _ Hvs Hpin) as (p' & vp0 & Heq' & Hp0).
    inversion Heq'; subst p'.
    exists (linked (entity_heap w) sorted vp0). split; [apply Hobj1; assumption|].
    simpl in Hpath. rewrite Hp0 in Hpath. simpl. rewrite Hpath.
    apply parent_path_shorter. apply (Hne l v0 Hin Hl0). }
  destruct (pass2_run (Scene.entities this) w1 Hvalid1 Hnd Htotal)
    as (w2 & Hrun2 & Hvis2).
  exists w1, w2. split; [|auto].
  unfold Scene.buildHierarchy.
  destruct Hvalid as [vs Hvs].
  rewrite (bind_run _ _ _ _ _ (map_m_deref _ _ _ Hvs)).
  cbv zeta. fold sorted.
  rewrite (bind_run _ _ w tt w1).
  - rewrite (bind_run _ _ w1 tt w2); [reflexivity|].
    rewrite pass2_flat. exact Hrun2.
  - rewrite pass1_flat by exact Hlaw. exact Hrun1.
Qed.

(** What [buildHierarchy] leaves in an entity of the scene. *)
Lemma buildHierarchy_spec (this : Scene.t) (w : World) :
  sort_law -> parent_path_law ->
  ents_valid (entity_heap w) (Scene.entities this) ->
  NoDup (Scene.entities this) ->
  paths_nonempty (entity_heap w) (Scene.entities this) ->
  exists w2,
    Scene.buildHierarchy this w = Ok this w2 /\
    forall l v0, Some l ∈ Scene.entities this -> entity_heap w !! l = Some v0 ->
      exists v2,
        entity_heap w2 !! l = Some v2 /\
        Transform.local_matrix v2 =
          toMatrix (Transform.set_parent (Transform.parent v2) v0) /\
        match Transform.parent v2 with
        | Some p =>
            Some p ∈ Scene.entities this /\
            (exists vp0, entity_heap w !! p = Some vp0 /\
                         Transform.path vp0 = parent_path (Transform.path v0)) /\
            (exists vp2, entity_heap w2 !! p = Some vp2 /\
                         Transform.global_matrix v2 =
                           mat_mul (Transform.local_matrix v2)
                                   (Transform.global_matrix vp2))
        | None =>
            (forall q vq, Some q ∈ Scene.entities this ->
                          entity_heap w !! q = Some vq ->
                          Transform.path vq <> parent_path (Transform.path v0)) /\
            Transform.global_matrix v2 = Transform.local_matrix v2
        end.
Proof.
  intros Hsort Hlaw Hvalid Hnd Hne.
  destruct (buildHierarchy_run this w Hsort Hlaw Hvalid Hnd Hne)
    as (w1 & w2 & Hrun & Hvis1 & Hvis2 & Htotal).
  set (sorted := std_sort _ (Scene.entities this)) in *.
  destruct (Hsort (Scene.path_at (entity_heap w)) (Scene.entities this))
    as [Hperm Hsorted]. fold sorted in Hperm, Hsorted.
  exists w2. split; [exact Hrun|].
  assert (Hobj1 : forall l v0, Some l ∈ Scene.entities this ->
            entity_heap w !! l = Some v0 ->
            entity_heap w1 !! l = Some (linked (entity_heap w) sorted v0)).
  { intros l v0 Hin Hl. destruct Hvis1 as (_ & _ & _ & Hobj).
    rewrite (Hobj l v0 Hl). rewrite bool_decide_eq_true_2 by exact Hin. reflexivity. }
  assert (Hobj2 : forall l v1, Some l ∈ Scene.entities this ->
            entity_heap w1 !! l = Some v1 ->
            entity_heap w2 !! l =
              Some (Transform.set_global_matrix (global_of (entity_heap w1) v1) v1)).
  { intros l v1 Hin Hl. destruct Hvis2 as (_ & _ & _ & Hobj).
    rewrite (Hobj l v1 Hl). rewrite bool_decide_eq_true_2 by exact Hin. reflexivity. }
  destruct Hvalid as [vs Hvs].
  intros l v0 Hin Hl0.
  pose proof (Hobj1 l v0 Hin Hl0) as Hl1.
  pose proof (Hobj2 l _ Hin Hl1) as Hl2.
  eexists. split; [exact Hl2|]. simpl. split; [reflexivity|].
  destruct (Htotal l _ Hin Hl1) as [g Hg].
  assert (Hgo : global_of (entity_heap w1) (linked (entity_heap w) sorted v0) = g)
    by (unfold global_of; rewrite Hg; reflexivity).
  rewrite !Hgo. simpl in Hg.
  destruct (Scene.find (entity_heap w) sorted (parent_path (Transform.path v0)))
    as [p|] eqn:Hfind.
  - pose proof (find_sound _ _ _ _ Hfind) as [Hps Hpath].
    assert (Hpin : Some p ∈ Scene.entities this) by (rewrite <- Hperm; exact Hps).
    destruct (targets_elem _ _ _ _ Hvs Hpin) as (p' & vp0 & Heq' & Hp0).
    inversion Heq'; subst p'.
    split; [exact Hpin|]. split.
    + exists vp0. split; [exact Hp0|]. simpl in Hpath. rewrite Hp0 in Hpath. exact Hpath.
    + pose proof (Hobj1 p vp0 Hpin Hp0) as Hp1.
      pose proof (Hobj2 p _ Hpin Hp1) as Hp2.
      eexists. split; [exact Hp2|]. simpl.
      rewrite Hp1 in Hg.
      destruct (Scene.CalcGlobalMatrix_rec (length (entity_heap w1)) (entity_heap w1)
                  (linked (entity_heap w) sorted vp0)) as [m|] eqn:Hm; [|discriminate].
      inversion Hg; subst g.
      unfold global_of. rewrite (CalcGlobalMatrix_rec_mono _ _ _ _ Hm). reflexivity.
  - split; [|inversion Hg; reflexivity].
    intros q vq Hqin Hq0 Hqpath.
    destruct (find_complete (entity_heap w) sorted
                (parent_path (Transform.path v0)) (Some q))
      as (r & Hr & Hrin & Hrpath).
    + exact Hsorted.
    + rewrite Hperm. exact Hqin.
    + simpl. rewrite Hq0. exact Hqpath.
    + rewrite Hfind in Hr. subst r.
      rewrite Hperm in Hrin.
      destruct (targets_elem _ _ _ _ Hvs Hrin) as (? & ? & ? & _). discriminate.
Qed.
End HierarchySpec.


(** The insertion sort of the example is a sort. *)
Lemma example_sort_law : @sort_law Example.domain Example.collaborators.
Proof.
  intros key l. simpl.
  set (lt := fun a b : option nat => str_lt (key a) (key b)).
  set (R := fun a b : option nat => str_lt (key b) (key a) = false).
  assert (Hperm : forall x l', Permutation (Example.insert_sorted lt x l') (x :: l')).
  { intros x l'. induction l' as [|y l' IH]; simpl; [reflexivity|].
    destruct (lt y x); [|reflexivity].
    rewrite IH. apply perm_swap. }
  assert (Hsorted : forall x l', StronglySorted R l' ->
                                 StronglySorted R (Example.insert_sorted lt x l')).
  { intros x l' Hs. induction Hs as [|y l' Hs IH Hall]; simpl.
    - repeat constructor.
    - destruct (lt y x) eqn:Hyx.
      + constructor; [exact IH|].
        rewrite (Hperm x l'). constructor; [|exact Hall].
        unfold R. unfold lt in Hyx.
        destruct (str_lt (key x) (key y)) eqn:Hxy; [|reflexivity].
        pose proof (str_lt_trans _ _ _ Hxy Hyx) as Hxx.
        rewrite str_lt_irrefl in Hxx. discriminate.
      + constructor; [constructor; assumption|].
        constructor; [exact Hyx|].
        eapply Forall_impl; [exact Hall|].
        intros z Hz. unfold R in *. unfold lt in Hyx.
        eapply str_le_trans; eassumption. }
  unfold Example.sort. induction l as [|x l [IHp IHs]]; simpl.
  - split; constructor.
  - split.
    + rewrite Hperm. constructor. exact IHp.
    + apply Hsorted. exact IHs.
Qed.

Section Chain.
Context {D : Domain} {C : Collaborators}.

(** C6, as the code has it.  Take a scene whose entity pointers are live
    and distinct, whose entities have distinct, non-empty paths, and
    among them entities with the paths /A, /A/B and /A/B/C ([std::sort]
    sorting and [getParentPath] giving the path without its last
    segment).  Then [buildHierarchy] returns; the parent of /A/B/C is
    /A/B, the parent of /A/B is /A and /A has none; each local matrix is
    [toMatrix] of the entity; and the global matrix of /A/B/C is
    local(/A/B/C) x (local(/A/B) x local(/A)): the product from the leaf
    to the root, as [global = local x parent.global] composes it. *)
Theorem hierarchy_of_chain (this : Scene.t) (w : World)
    (a b c : loc) (va vb vc : Transform.t) :
  sort_law -> parent_path_law ->
  ents_valid (entity_heap w) (Scene.entities this) ->
  NoDup (Scene.entities this) ->
  paths_unique (entity_heap w) (Scene.entities this) ->
  paths_nonempty (entity_heap w) (Scene.entities this) ->
  Some a ∈ Scene.entities this ->
  Some b ∈ Scene.entities this ->
  Some c ∈ Scene.entities this ->
  entity_heap w !! a = Some va -> Transform.path va = "/A"%string ->
  entity_heap w !! b = Some vb -> Transform.path vb = "/A/B"%string ->
  entity_heap w !! c = Some vc -> Transform.path vc = "/A/B/C"%string ->
  exists w' va' vb' vc',
    Scene.buildHierarchy this w = Ok this w' /\
    entity_heap w' !! a = Some va' /\
    entity_heap w' !! b = Some vb' /\
    entity_heap w' !! c = Some vc' /\
    Transform.parent vc' = Some b /\
    Transform.parent vb' = Some a /\
    Transform.parent va' = None /\
    Transform.local_matrix va' = toMatrix (Transform.set_parent None va) /\
    Transform.local_matrix vb' = toMatrix (Transform.set_parent (Some a) vb) /\
    Transform.local_matrix vc' = toMatrix (Transform.set_parent (Some b) vc) /\
    Transform.global_matrix vc' =
      mat_mul (Transform.local_matrix vc')
              (mat_mul (Transform.local_matrix vb') (Transform.local_matrix va')).
Proof.
  intros Hsort Hlaw Hvalid Hnd Huniq Hne Ha Hb Hc Hla Hpa Hlb Hpb Hlc Hpc.
  destruct (buildHierarchy_spec this w Hsort Hlaw Hvalid Hnd Hne)
    as (w' & Hrun & Hspec).
  destruct (Hspec a va Ha Hla) as (va' & Hla' & Hloca & Hpara).
  destruct (Hspec b vb Hb Hlb) as (vb' & Hlb' & Hlocb & Hparb).
  destruct (Hspec c vc Hc Hlc) as (vc' & Hlc' & Hlocc & Hparc).
  rewrite Hpa in Hpara. rewrite Hpb in Hparb. rewrite Hpc in Hparc.
  change (parent_path "/A") with ""%string in Hpara.
  change (parent_path "/A/B") with "/A"%string in Hparb.
  change (parent_path "/A/B/C") with "/A/B"%string in Hparc.
  (* /A is a root *)
  assert (Hra : Transform.parent va' = None /\
                Transform.global_matrix va' = Transform.local_matrix va').
  { destruct (Transform.parent va') as [p|].
    - destruct Hpara as (Hp & (vp0 & Hp0 & Hpp) & _).
      exfalso. apply (Hne p vp0 Hp Hp0). exact Hpp.
    - destruct Hpara as [_ Hg]. auto. }
  destruct Hra as [Hra Hga].
  (* the parent of /A/B is /A *)
  assert (Hrb : Transform.parent vb' = Some a /\
                Transform.global_matrix vb' =
                  mat_mul (Transform.local_matrix vb') (Transform.global_matrix va')).
  { destruct (Transform.parent vb') as [p|].
    - destruct Hparb as (Hp & (vp0 & Hp0 & Hpp) & (vp2 & Hp2 & Hg)).
      assert (p = a) by (apply (Huniq p a vp0 va); congruence). subst p.
      rewrite Hla' in Hp2. inversion Hp2; subst vp2. auto.
    - destruct Hparb as [Hnone _]. exfalso. apply (Hnone a va Ha Hla Hpa). }
  destruct Hrb as [Hrb Hgb].
  (* the parent of /A/B/C is /A/B *)
  assert (Hrc : Transform.parent vc' = Some b /\
                Transform.global_matrix vc' =
                  mat_mul (Transform.local_matrix vc') (Transform.global_matrix vb')).
  { destruct (Transform.parent vc') as [p|].
    - destruct Hparc as (Hp & (vp0 & Hp0 & Hpp) & (vp2 & Hp2 & Hg)).
      assert (p = b) by (apply (Huniq p b vp0 vb); congruence). subst p.
      rewrite Hlb' in Hp2. inversion Hp2; subst vp2. auto.
    - destruct Hparc as [Hnone _]. exfalso. apply (Hnone b vb Hb Hlb Hpb). }
  destruct Hrc as [Hrc Hgc].
  exists w', va', vb', vc'.
  rewrite Hra in Hloca. rewrite Hrb in Hlocb. rewrite Hrc in Hlocc.
  repeat (split; [assumption|]).
  rewrite Hgc, Hgb, Hga. reflexivity.
Qed.
End Chain.

Lemma hierarchy_of_chain_witness :
  exists w' va' vb' vc',
    Scene.buildHierarchy chain_scene chain_world = Ok chain_scene w' /\
    entity_heap w' !! 1%nat = Some va' /\
    entity_heap w' !! 2%nat = Some vb' /\
    entity_heap w' !! 0%nat = Some vc' /\
    Transform.parent vc' = Some 2%nat /\
    Transform.parent vb' = Some 1%nat /\
    Transform.parent va' = None /\
    Transform.global_matrix vc' =
      Example.mul (Transform.local_matrix vc')
                  (Example.mul (Transform.local_matrix vb') (Transform.local_matrix va')).
Proof.
  destruct (hierarchy_of_chain chain_scene chain_world 1%nat 2%nat 0%nat
              (Example.entity 1 "/A" EntityType.Transform false matrix_A)
              (Example.entity 2 "/A/B" EntityType.Transform false matrix_B)
              (Example.entity 3 "/A/B/C" EntityType.Mesh true matrix_C))
    as (w' & va' & vb' & vc' & Hrun & Ha & Hb & Hc & Hpc & Hpb & Hpa & _ & _ & _ & Hg).
  - exact example_sort_law.
  - intros v dst. reflexivity.
  - eexists. reflexivity.
  - apply (bool_decide_unpack _). vm_compute. exact I.
  - intros l l' v v' Hl Hl' Hv Hv' Hp.
    simpl in Hl, Hl'.
    repeat (apply elem_of_cons in Hl as [Hl|Hl]; [inversion Hl; subst l; clear Hl|]);
      [| | |inversion Hl];
    repeat (apply elem_of_cons in Hl' as [Hl'|Hl']; [inversion Hl'; subst l'; clear Hl'|]);
      try (inversion Hl'); try reflexivity;
      simpl in Hv, Hv'; inversion Hv; inversion Hv'; subst; discriminate.
  - intros l v Hl Hv. simpl in Hl.
    repeat (apply elem_of_cons in Hl as [Hl|Hl]; [inversion Hl; subst l; clear Hl|]);
      [| | |inversion Hl];
      simpl in Hv; inversion Hv; subst; discriminate.
  - apply (bool_decide_unpack _). vm_compute. exact I.
  - apply (bool_decide_unpack _). vm_compute. exact I.
  - apply (bool_decide_unpack _). vm_compute. exact I.
  - reflexivity.
  - reflexivity.
  - reflexivity.
  - reflexivity.
  - reflexivity.
  - reflexivity.
  - exists w', va', vb', vc'. repeat (split; [assumption|]). exact Hg.
Defined.

(** C6 as worded fails: the global matrix of /A/B/C is the product from
    leaf to root, which differs from the product of the local matrices in
    root-to-leaf order, however that one is bracketed. *)
Lemma global_matrix_is_not_root_to_leaf :
  exists w' vc',
    Scene.buildHierarchy chain_scene chain_world = Ok chain_scene w' /\
    entity_heap w' !! 0%nat = Some vc' /\
    Transform.path vc' = "/A/B/C"%string /\
    Transform.global_matrix vc' = Example.mul local_C (Example.mul local_B local_A) /\
    Transform.global_matrix vc' <> Example.mul (Example.mul local_A local_B) local_C /\
    Transform.global_matrix vc' <> Example.mul local_A (Example.mul local_B local_C).
Proof.
  do 2 eexists. split; [vm_compute; reflexivity|].
  split; [reflexivity|]. split; [reflexivity|].
  split; [vm_compute; reflexivity|].
  split; vm_compute; discriminate.
Qed.


(** ** Names, numerals and the map of [flatternHierarchy] *)

Lemma unhex_hex i : unhex (hex i) = Some i.
Proof.
  unfold unhex, hex.
  destruct (Nat.to_hex_uint i) as [ | d | d | d | d | d | d | d | d | d | d | d | d | d | d
                                     | d | d] eqn:E;
    try (rewrite NilZero.usu by discriminate; simpl; rewrite <- E;
         rewrite HexadecimalNat.Unsigned.of_to; reflexivity).
  pose proof (HexadecimalNat.Unsigned.of_to i) as H. rewrite E in H.
  simpl in H. subst i. reflexivity.
Qed.

Lemma hex_inj i j : hex i = hex j -> i = j.
Proof.
  intros H. pose proof (unhex_hex i) as Hi. rewrite H, unhex_hex in Hi.
  congruence.
Qed.

Lemma append_inj_r (s a b : string) : (s ++ a = s ++ b)%string -> a = b.
Proof.
  induction s as [|c s IH]; simpl; [auto|].
  intros H. inversion H. auto.
Qed.

Section MapFacts.

Lemma find_keys k (m : StringMap.t) v :
  StringMap.find k m = Some v -> k ∈ map fst m.
Proof.
  induction m as [|[k' v'] m IH]; simpl; [discriminate|].
  destruct (String.eqb_spec k k') as [->|Hne].
  - intros _. left.
  - intros H. right. auto.
Qed.

Lemma find_None k (m : StringMap.t) :
  StringMap.find k m = None <-> k ∉ map fst m.
Proof.
  induction m as [|[k' v'] m IH]; simpl.
  - split; [intros _ H; inversion H|auto].
  - destruct (String.eqb_spec k k') as [->|Hne].
    + split; [discriminate|]. intros H. exfalso. apply H. left.
    + rewrite IH. split.
      * intros H Hin. apply elem_of_cons in Hin as [Heq|Hin]; auto.
      * intros H Hin. apply H. right. exact Hin.
Qed.

(** In a map without null pointers, a name is vacant exactly when it
    is not a key. *)
Lemma vacant_keys k (m : StringMap.t) :
  Forall (fun kv => is_Some (snd kv)) m ->
  StringMap.vacant k m = true <-> k ∉ map fst m.
Proof.
  intros Hall. unfold StringMap.vacant. rewrite <- find_None.
  destruct (StringMap.find k m) as [[l|]|] eqn:E.
  - split; discriminate.
  - exfalso. clear -Hall E.
    induction m as [|[k' v'] m IH]; simpl in E; [discriminate|].
    apply Forall_cons in Hall as [Hv Hall].
    destruct (String.eqb k k').
    + inversion E; subst. destruct Hv as [? Hv]. discriminate.
    + auto.
  - split; auto.
Qed.

Lemma insert_perm k v (m : StringMap.t) :
  k ∉ map fst m -> Permutation (StringMap.insert k v m) ((k, v) :: m).
Proof.
  induction m as [|[k' v'] m IH]; simpl; intros Hk; [reflexivity|].
  destruct (String.eqb_spec k k') as [->|Hne].
  - exfalso. apply Hk. left.
  - destruct (str_lt k k'); [reflexivity|].
    rewrite IH.
    + apply perm_swap.
    + intros Hin. apply Hk. right. exact Hin.
Qed.

Lemma insert_ascend k v (m : StringMap.t) :
  k ∉ map fst m -> keys_ascend m -> keys_ascend (StringMap.insert k v m).
Proof.
  unfold keys_ascend. intros Hk Hs. induction Hs as [|[k' v'] m Hs IH Hall]; simpl.
  - repeat constructor.
  - destruct (String.eqb_spec k k') as [->|Hne].
    + exfalso. apply Hk. left.
    + destruct (str_lt k k') eqn:Hlt.
      * constructor; [constructor; assumption|].
        constructor; [exact Hlt|].
        eapply Forall_impl; [exact Hall|]. simpl.
        intros [k2 v2] H2. simpl in *. eapply str_lt_trans; eassumption.
      * assert (Hk' : k ∉ map fst m) by (intros Hin; apply Hk; right; exact Hin).
        constructor; [apply IH; exact Hk'|].
        rewrite (insert_perm k v m Hk'). constructor; [|exact Hall].
        simpl. destruct (str_lt k' k) eqn:Hgt; [reflexivity|].
        exfalso. apply Hne. apply str_lt_total; assumption.
Qed.

(** Among more names than the map has keys, one is not a key. *)
Lemma some_name_free (names : list string) (m : StringMap.t) :
  NoDup names -> (length m < length names)%nat ->
  exists n, n ∈ names /\ n ∉ map fst m.
Proof.
  intros Hnd Hlen.
  destruct (Exists_dec (fun n => n ∉ map fst m) names) as [Hex|Hall].
  - apply Exists_exists in Hex. exact Hex.
  - exfalso.
    assert (Hincl : names ⊆ map fst m).
    { intros n Hn. destruct (decide (n ∈ map fst m)) as [|Hnin]; [assumption|].
      exfalso. apply Hall. apply Exists_exists. eauto. }
    pose proof (submseteq_length _ _ (NoDup_submseteq _ _ Hnd
                   (fun n Hn => Hincl n Hn))) as Hle.
    rewrite length_map in Hle. lia.
Qed.
End MapFacts.

Section Probe.
Context {D : Domain} {C : Collaborators}.

(** The probing loop finds the first vacant suffix, if there is one
    within its reach. *)
Lemma probe_first fuel (result : StringMap.t) name i j :
  (i <= j < i + fuel)%nat ->
  StringMap.vacant (name ++ hex j) result = true ->
  exists j', (i <= j' <= j)%nat /\
    Scene.probe fuel result name i = Some (name ++ hex j')%string /\
    StringMap.vacant (name ++ hex j') result = true /\
    forall j'', (i <= j'' < j')%nat ->
                StringMap.vacant (name ++ hex j'') result = false.
Proof.
  revert i. induction fuel as [|fuel IH]; intros i Hj Hvac; [lia|].
  simpl. destruct (StringMap.vacant (name ++ hex i) result) eqn:Hi.
  - exists i. repeat split; auto; try lia; intros; lia.
  - assert (Hne : i <> j) by (intros ->; congruence).
    destruct (IH (S i)) as (j' & Hj' & Hp & Hv & Hbelow); [lia|exact Hvac|].
    exists j'. repeat split; auto; try lia.
    intros j'' Hj''. destruct (decide (j'' = i)) as [->|]; [exact Hi|].
    apply Hbelow. lia.
Qed.

(** With one more step than the map has entries, the loop ends. *)
Lemma probe_total (result : StringMap.t) name :
  Forall (fun kv => is_Some (snd kv)) result ->
  exists j,
    Scene.probe (S (length result)) result name 0 = Some (name ++ hex j)%string /\
    StringMap.vacant (name ++ hex j) result = true /\
    forall j', (j' < j)%nat -> StringMap.vacant (name ++ hex j') result = false.
Proof.
  intros Hall.
  destruct (some_name_free
              (map (fun j => (name ++ hex j)%string) (seq 0 (S (length result))))
              result) as (n & Hn & Hfree).
  - apply NoDup_fmap_2; [|apply NoDup_seq].
    intros a b Hab. apply hex_inj. eapply append_inj_r. exact Hab.
  - rewrite length_map, length_seq. lia.
  - apply list_elem_of_fmap in Hn as (j & -> & Hj). apply elem_of_seq in Hj.
    destruct (probe_first (S (length result)) result name 0 j) as (j' & _ & Hp & Hv & Hb).
    + lia.
    + apply vacant_keys; assumption.
    + exists j'. repeat split; auto. intros j'' Hj''. apply Hb. lia.
Qed.
End Probe.


(** ** [flatternHierarchy] *)

Section Flatten.
Context {D : Domain} {C : Collaborators}.

Lemma filter_elem {A} (f : A -> bool) (l : list A) x :
  x ∈ List.filter f l <-> x ∈ l /\ f x = true.
Proof. rewrite !list_elem_of_In. apply filter_In. Qed.

Lemma filter_NoDup {A} (f : A -> bool) (l : list A) :
  NoDup l -> NoDup (List.filter f l).
Proof.
  induction 1 as [|x l Hx Hnd IH]; simpl; [constructor|].
  destruct (f x); [|exact IH]. constructor; [|exact IH].
  intros Hin. apply filter_elem in Hin as [Hin _]. contradiction.
Qed.

Lemma filter_snoc {A} (f : A -> bool) (l : list A) x :
  List.filter f (l ++ [x]) = List.filter f l ++ (if f x then [x] else []).
Proof. rewrite List.filter_app. reflexivity. Qed.

Lemma named_mono heap keys keys' kv :
  (forall k, k ∈ keys -> k ∈ keys') -> named heap keys kv -> named heap keys' kv.
Proof.
  intros Hsub (l & v & dst & Hp & Hl & Hn & Hk).
  exists l, v, dst. repeat split; auto.
  destruct Hk as [Hk|(i & Hk & Hbelow)]; [left; exact Hk|right].
  exists i. split; auto.
Qed.

Lemma insert_keys k v (m : StringMap.t) k' :
  k ∉ map fst m ->
  k' ∈ map fst (StringMap.insert k v m) <-> k' = k \/ k' ∈ map fst m.
Proof.
  intros Hk. rewrite (insert_perm k v m Hk). simpl. apply elem_of_cons.
Qed.

(** One more entity entered into the map. *)
Lemma flatten_insert_step heap pre l v result name w :
  entity_heap w = heap ->
  heap !! l = Some v ->
  flat_map heap pre result ->
  exists result' name',
    Scene.flatten_insert (Some l) (result, name) w = Ok (result', name') w /\
    flat_map heap (pre ++ [Some l]) result'.
Proof.
  intros <- Hl (Hasc & Hsome & Hperm & Hnamed).
  unfold Scene.flatten_insert.
  assert (Hd : deref (Some l) w = Ok v w) by (unfold deref; rewrite Hl; reflexivity).
  rewrite (bind_run _ _ _ _ _ Hd).
  assert (Hkept : kept (entity_heap w) (Some l) =
                  negb (EntityType.eqb (Transform.type v) EntityType.Transform)).
  { unfold kept. simpl. rewrite Hl. reflexivity. }
  destruct (negb (EntityType.eqb (Transform.type v) EntityType.Transform)) eqn:Hty.
  - set (n := getName v name).
    assert (Hadd : forall k, k ∉ map fst result ->
              named (entity_heap w) (k :: map fst result) (k, Some l) ->
              flat_map (entity_heap w) (pre ++ [Some l])
                       (StringMap.insert k (Some l) result)).
    { intros k Hk Hnew. unfold flat_map.
      pose proof (insert_perm k (Some l) result Hk) as Hp.
      split; [apply insert_ascend; assumption|].
      split; [rewrite Hp; constructor; [eexists; reflexivity|assumption]|].
      split.
      - rewrite Hp, filter_snoc, Hkept. simpl. rewrite Hperm.
        apply Permutation_cons_append.
      - eapply Permutation_Forall; [symmetry; exact Hp|]. constructor.
        + eapply named_mono; [|exact Hnew].
          intros k' Hk'. apply insert_keys; [exact Hk|].
          apply elem_of_cons in Hk'. exact Hk'.
        + eapply Forall_impl; [exact Hnamed|].
          intros kv Hkv. eapply named_mono; [|exact Hkv].
          intros k' Hk'. apply insert_keys; [exact Hk|]. right. exact Hk'. }
    destruct (StringMap.vacant n result) eqn:Hvac.
    + exists (StringMap.insert n (Some l) result), n. split; [reflexivity|].
      apply vacant_keys in Hvac; [|exact Hsome].
      apply Hadd; [exact Hvac|].
      exists l, v, name. simpl. repeat split; auto. left.
    + destruct (probe_total result n Hsome) as (j & Hp & Hv & Hbelow).
      rewrite Hp.
      exists (StringMap.insert (n ++ hex j)%string (Some l) result), n.
      split; [reflexivity|].
      assert (Htaken : forall k, StringMap.vacant k result = false ->
                                 k ∈ map fst result).
      { intros k Hk. destruct (decide (k ∈ map fst result)) as [|Hnin]; [assumption|].
        apply vacant_keys in Hnin; [congruence|exact Hsome]. }
      apply vacant_keys in Hv; [|exact Hsome].
      apply Hadd; [exact Hv|].
      exists l, v, name. simpl. fold n. repeat split; auto.
      * right. apply Htaken. exact Hvac.
      * right. exists j. split; [reflexivity|].
        intros j' Hj'. right. apply Htaken. apply Hbelow. exact Hj'.
  - exists result, name. split; [reflexivity|].
    unfold flat_map. rewrite filter_snoc, Hkept, app_nil_r. auto.
Qed.

(** The first loop. *)
Lemma flatten_insert_run ents w :
  ents_valid (entity_heap w) ents ->
  exists result name,
    for_each Scene.flatten_insert ents ([], ""%string) w = Ok (result, name) w /\
    flat_map (entity_heap w) ents result.
Proof.
  intros [vs Hvalid].
  destruct (for_each_prefix
              (fun pre (st : StringMap.t * string) w' =>
                 w' = w /\ flat_map (entity_heap w) pre (fst st))
              Scene.flatten_insert ents) with (s := ([] : StringMap.t, ""%string)) (w := w)
    as ([result name] & w' & Hrun & -> & Hmap).
  - intros pre x post [result name] w' Hents [-> Hmap].
    destruct (targets_elem _ _ _ x Hvalid) as (l & v & -> & Hl).
    { rewrite Hents. apply elem_of_app. right. left. }
    destruct (flatten_insert_step _ pre l v result name w eq_refl Hl Hmap)
      as (result' & name' & Hrun & Hmap').
    exists (result', name'), w. auto.
  - split; [reflexivity|]. unfold flat_map. simpl.
    repeat split; constructor.
  - exists result, name. auto.
Qed.

(** The second loop. *)
Lemma flatten_emit_run (result : StringMap.t) w :
  NoDup (map snd result) ->
  (forall k p, (k, p) ∈ result ->
     exists l v0, p = Some l /\ entity_heap w !! l = Some v0) ->
  exists w',
    for_each Scene.flatten_emit result [] w = Ok (map snd result) w' /\
    emitted w result w'.
Proof.
  intros Hnd Hvalid.
  destruct (for_each_prefix
              (fun pre (ents : list (option loc)) w' =>
                 ents = map snd pre /\ emitted w pre w')
              Scene.flatten_emit result) with (s := @nil (option loc)) (w := w)
    as (ents & w' & Hrun & -> & Hem).
  - intros pre [k p] post ents w' Hres (-> & Hlen & Ha & Hlog & Hdone & Hrest).
    destruct (Hvalid k p) as (l & v0 & -> & Hl0).
    { rewrite Hres. apply elem_of_app. right. left. }
    assert (Hnew : Some l ∉ map snd pre).
    { rewrite Hres, map_app in Hnd. apply NoDup_app in Hnd as (_ & Hdisj & _).
      intros Hin. apply (Hdisj _ Hin). left. }
    assert (Hl : entity_heap w' !! l = Some v0) by (rewrite (Hrest l Hnew); exact Hl0).
    eexists. eexists. split.
    + unfold Scene.flatten_emit. simpl.
      assert (Hd : deref (Some l) w' = Ok v0 w') by (unfold deref; rewrite Hl; reflexivity).
      rewrite (bind_run _ _ _ _ _ Hd).
      unfold bind, Scene.store_at, store. rewrite Hl. reflexivity.
    + split; [rewrite map_app; reflexivity|].
      unfold emitted. simpl. rewrite length_insert.
      repeat split; auto.
      * intros k' p' Hin. apply elem_of_app in Hin as [Hin|Hin].
        -- destruct (Hdone k' p' Hin) as (l' & v0' & -> & Hl0' & Hl').
           exists l', v0'. repeat split; auto.
           rewrite list_lookup_insert_ne; [exact Hl'|].
           intros <-. apply Hnew. apply list_elem_of_fmap.
           exists (k', Some l). split; [reflexivity|exact Hin].
        -- apply list_elem_of_singleton in Hin. inversion Hin; subst.
           exists l, v0. repeat split; auto.
           apply list_lookup_insert_eq. rewrite Hlen.
           eapply lookup_lt_Some. exact Hl0.
      * intros l' Hl'. rewrite map_app in Hl'. simpl in Hl'.
        rewrite list_lookup_insert_ne.
        -- apply Hrest. intros Hin. apply Hl'. apply elem_of_app. left. exact Hin.
        -- intros <-. apply Hl'. apply elem_of_app. right. left.
  - split; [reflexivity|]. unfold emitted. repeat split; auto.
    intros k p Hin. inversion Hin.
  - exists w'. auto.
Qed.
End Flatten.


Section FlattenClaim.
Context {D : Domain} {C : Collaborators}.

Lemma EntityType_eqb_eq a b : EntityType.eqb a b = true <-> a = b.
Proof. destruct a, b; simpl; split; intros H; try discriminate; reflexivity. Qed.

(** In a map with ascending keys a key has one entry. *)
Lemma keys_ascend_functional (m : StringMap.t) k p q :
  keys_ascend m -> (k, p) ∈ m -> (k, q) ∈ m -> p = q.
Proof.
  unfold keys_ascend. induction 1 as [|[k0 p0] m Hs IH Hall]; intros Hp Hq.
  - inversion Hp.
  - rewrite Forall_forall in Hall.
    apply elem_of_cons in Hp as [Hp|Hp]; apply elem_of_cons in Hq as [Hq|Hq].
    + congruence.
    + inversion Hp; subst. specialize (Hall _ Hq). simpl in Hall.
      rewrite str_lt_irrefl in Hall. discriminate.
    + inversion Hq; subst. specialize (Hall _ Hp). simpl in Hall.
      rewrite str_lt_irrefl in Hall. discriminate.
    + auto.
Qed.

(** The run of [flatternHierarchy], map and store. *)
Lemma flatten_run (this : Scene.t) (w : World) :
  ents_valid (entity_heap w) (Scene.entities this) ->
  NoDup (Scene.entities this) ->
  exists result w',
    Scene.flatternHierarchy this w =
      Ok (Scene.set_entities (map snd result) this) w' /\
    keys_ascend result /\
    NoDup (map snd result) /\
    Permutation (map snd result)
                (List.filter (kept (entity_heap w)) (Scene.entities this)) /\
    Forall (named (entity_heap w) (map fst result)) result /\
    length (entity_heap w') = length (entity_heap w) /\
    (forall k p, (k, p) ∈ result ->
       exists l v0,
         p = Some l /\ Some l ∈ Scene.entities this /\
         kept (entity_heap w) (Some l) = true /\
         entity_heap w !! l = Some v0 /\
         entity_heap w' !! l = Some (Transform.set_path ("/" ++ k) v0)) /\
    (forall l, Some l ∉ map snd result ->
               entity_heap w' !! l = entity_heap w !! l) /\
    exists name,
      for_each Scene.flatten_insert (Scene.entities this) ([], ""%string) w
      = Ok (result, name) w.
Proof.
  intros Hvalid Hnd.
  destruct (flatten_insert_run _ w Hvalid)
    as (result & name & Hrun1 & Hasc & Hsome & Hperm & Hnamed).
  assert (Hptr : forall k p, (k, p) ∈ result ->
            exists l v0, p = Some l /\ entity_heap w !! l = Some v0 /\
                         Some l ∈ Scene.entities this /\
                         kept (entity_heap w) (Some l) = true).
  { intros k p Hin.
    assert (Hp : p ∈ List.filter (kept (entity_heap w)) (Scene.entities this)).
    { rewrite <- Hperm. apply list_elem_of_fmap. exists (k, p). auto. }
    apply filter_elem in Hp as [Hp Hk].
    destruct Hvalid as [vs Hvs].
    destruct (targets_elem _ _ _ p Hvs Hp) as (l & v0 & -> & Hl).
    exists l, v0. auto. }
  assert (Hnd' : NoDup (map snd result))
    by (rewrite Hperm; apply filter_NoDup; exact Hnd).
  destruct (flatten_emit_run result w) as (w' & Hrun2 & Hem); [exact Hnd'| |].
  { intros k p Hin. destruct (Hptr k p Hin) as (l & v0 & -> & Hl & _). eauto. }
  destruct Hem as (Hlen & _ & _ & Hdone & Hrest).
  exists result, w'.
  split.
  { unfold Scene.flatternHierarchy.
    rewrite (bind_run _ _ _ _ _ Hrun1). simpl fst.
    rewrite (bind_run _ _ _ _ _ Hrun2). reflexivity. }
  repeat (split; [assumption|]).
  split; [|split; [exact Hrest|exists name; exact Hrun1]].
  intros k p Hin.
  destruct (Hptr k p Hin) as (l & v0 & -> & Hl0 & Hin0 & Hk).
  destruct (Hdone k (Some l) Hin) as (l' & v0' & Heq & Hl0' & Hl').
  inversion Heq; subst l'. rewrite Hl0 in Hl0'. inversion Hl0'; subst v0'.
  exists l, v0. auto.
Qed.

Lemma entry_of (result : StringMap.t) p :
  p ∈ map snd result -> exists k, (k, p) ∈ result.
Proof.
  intros H. apply list_elem_of_fmap in H as ([k q] & -> & Hin).
  exists k. exact Hin.
Qed.

Lemma entry_of_key (result : StringMap.t) k :
  k ∈ map fst result -> exists p, (k, p) ∈ result.
Proof.
  intros H. apply list_elem_of_fmap in H as ([k' q] & -> & Hin).
  exists q. exact Hin.
Qed.

(** *** The same entities at other locations *)

Lemma relocate_find rho k (m : StringMap.t) :
  StringMap.find k (relocate rho m) = option_map (option_map rho) (StringMap.find k m).
Proof.
  induction m as [|[k' v] m IH]; simpl; [reflexivity|].
  destruct (String.eqb k k'); [reflexivity|exact IH].
Qed.

Lemma relocate_vacant rho k (m : StringMap.t) :
  StringMap.vacant k (relocate rho m) = StringMap.vacant k m.
Proof.
  unfold StringMap.vacant. rewrite relocate_find.
  destruct (StringMap.find k m) as [[l|]|]; reflexivity.
Qed.

Lemma relocate_insert rho k v (m : StringMap.t) :
  StringMap.insert k (option_map rho v) (relocate rho m)
  = relocate rho (StringMap.insert k v m).
Proof.
  induction m as [|[k' v'] m IH]; simpl; [reflexivity|].
  destruct (String.eqb k k'); [reflexivity|].
  destruct (str_lt k k'); [reflexivity|].
  rewrite IH. reflexivity.
Qed.

Lemma relocate_probe rho fuel (m : StringMap.t) name i :
  Scene.probe fuel (relocate rho m) name i = Scene.probe fuel m name i.
Proof.
  revert i. induction fuel as [|fuel IH]; intros i; simpl; [reflexivity|].
  rewrite relocate_vacant, IH. reflexivity.
Qed.

(** The first loop on the relocated entities builds the relocated map. *)
Lemma relocate_insert_run rho ents w w2 :
  (forall l, Some l ∈ ents -> entity_heap w2 !! rho l = entity_heap w !! l) ->
  forall m name m' name',
    for_each Scene.flatten_insert ents (m, name) w = Ok (m', name') w ->
    for_each Scene.flatten_insert (map (option_map rho) ents)
             (relocate rho m, name) w2
    = Ok (relocate rho m', name') w2.
Proof.
  induction ents as [|p ents IH]; intros Hsame m name m' name' Hrun;
    cbn [map for_each] in *.
  - inversion Hrun. reflexivity.
  - apply bind_Ok in Hrun as ([m1 name1] & w1 & Hstep & Hrun).
    assert (Hw1 : w1 = w /\
              Scene.flatten_insert (option_map rho p) (relocate rho m, name) w2
              = Ok (relocate rho m1, name1) w2).
    { unfold Scene.flatten_insert in Hstep |- *.
      apply bind_Ok in Hstep as (v & w0 & Hd & Hstep).
      apply deref_Ok in Hd as (l & -> & Hl & ->).
      assert (Hd2 : deref (option_map rho (Some l)) w2 = Ok v w2).
      { unfold deref. simpl. rewrite (Hsame l); [|left]. rewrite Hl. reflexivity. }
      rewrite (bind_run _ _ _ _ _ Hd2).
      destruct (negb (EntityType.eqb (Transform.type v) EntityType.Transform)).
      - rewrite relocate_vacant.
        destruct (StringMap.vacant (getName v name) m).
        + inversion Hstep; subst. split; [reflexivity|].
          unfold ret. rewrite <- relocate_insert. reflexivity.
        + unfold relocate at 1. rewrite length_map, relocate_probe.
          destruct (Scene.probe (S (length m)) m (getName v name) 0)
            as [tmp|]; [|discriminate].
          inversion Hstep; subst. split; [reflexivity|].
          unfold ret. rewrite <- relocate_insert. reflexivity.
      - inversion Hstep; subst. split; reflexivity. }
    destruct Hw1 as [-> Hstep2].
    rewrite (bind_run _ _ _ _ _ Hstep2). cbv beta.
    apply IH; [|exact Hrun].
    intros l Hl. apply Hsame. right. exact Hl.
Qed.

(** C7.  On a scene whose entity pointers are live and distinct,
    [flatternHierarchy] returns.  The new entity collection is the
    values of a map with strictly ascending keys, in key order, so no two
    names collide.  It holds every entity that is not a [Transform]
    node, once.  The entity behind each entry has the path "/" followed
    by the key and is otherwise what it was; nothing else is changed.
    The key is the name of the entity, or, when that was taken, the name
    followed by the first hexadecimal numeral 0, 1, 2, ... that was free.
    Hence, when two distinct entities kept have the same name [n] (Box,
    say), the output holds an entity with the path "/" [n] and one with
    the path "/" [n] "0": /Box and /Box0.  The mapping depends on the
    entities in their order and not on where they are stored: on the
    same entities at other locations, in any scene, it gives the same
    keys to the same entities, in the same order, with the same paths. *)
Theorem flatten_naming (this : Scene.t) (w : World) :
  ents_valid (entity_heap w) (Scene.entities this) ->
  NoDup (Scene.entities this) ->
  exists result w',
    Scene.flatternHierarchy this w =
      Ok (Scene.set_entities (map snd result) this) w' /\
    keys_ascend result /\
    Permutation (map snd result)
                (List.filter (kept (entity_heap w)) (Scene.entities this)) /\
    (forall k p, (k, p) ∈ result ->
       exists l v0 v',
         p = Some l /\ entity_heap w !! l = Some v0 /\
         entity_heap w' !! l = Some v' /\
         Transform.path v' = ("/" ++ k)%string /\
         v' = Transform.set_path (Transform.path v') v0 /\
         named (entity_heap w) (map fst result) (k, p)) /\
    (forall l, Some l ∉ map snd result ->
               entity_heap w' !! l = entity_heap w !! l) /\
    (forall n l1 l2 v1 v2,
       l1 <> l2 ->
       Some l1 ∈ Scene.entities this -> Some l2 ∈ Scene.entities this ->
       entity_heap w !! l1 = Some v1 -> entity_heap w !! l2 = Some v2 ->
       Transform.type v1 <> EntityType.Transform ->
       Transform.type v2 <> EntityType.Transform ->
       (forall dst, getName v1 dst = n) -> (forall dst, getName v2 dst = n) ->
       exists la lb va vb,
         (n, Some la) ∈ result /\ ((n ++ "0")%string, Some lb) ∈ result /\
         entity_heap w' !! la = Some va /\
         Transform.path va = ("/" ++ n)%string /\
         entity_heap w' !! lb = Some vb /\
         Transform.path vb = ("/" ++ n ++ "0")%string) /\
    (forall (rho : nat -> nat) (this2 : Scene.t) (w2 : World),
       Scene.entities this2 = map (option_map rho) (Scene.entities this) ->
       (forall l, Some l ∈ Scene.entities this ->
                  entity_heap w2 !! rho l = entity_heap w !! l) ->
       (forall l l', Some l ∈ Scene.entities this ->
                     Some l' ∈ Scene.entities this -> rho l = rho l' -> l = l') ->
       exists w2',
         Scene.flatternHierarchy this2 w2 =
           Ok (Scene.set_entities (map snd (relocate rho result)) this2) w2' /\
         forall k l, (k, Some l) ∈ result ->
           exists v2, entity_heap w2' !! rho l = Some v2 /\
                      Transform.path v2 = ("/" ++ k)%string).
Proof.
  intros Hvalid Hnd.
  destruct (flatten_run this w Hvalid Hnd)
    as (result & w' & Hrun & Hasc & Hnd' & Hperm & Hnamed & _ & Hdone & Hrest
        & name & Hrun1).
  rewrite Forall_forall in Hnamed.
  assert (Hentry : forall k p, (k, p) ∈ result ->
            exists l v0 v',
              p = Some l /\ entity_heap w !! l = Some v0 /\
              entity_heap w' !! l = Some v' /\
              Transform.path v' = ("/" ++ k)%string /\
              v' = Transform.set_path (Transform.path v') v0 /\
              named (entity_heap w) (map fst result) (k, p)).
  { intros k p Hin.
    destruct (Hdone k p Hin) as (l & v0 & -> & _ & _ & Hl0 & Hl').
    exists l, v0, (Transform.set_path ("/" ++ k) v0).
    repeat split; auto. }
  exists result, w'.
  split; [exact Hrun|]. split; [exact Hasc|]. split; [exact Hperm|].
  split; [exact Hentry|]. split; [exact Hrest|].
  split.
  - intros n l1 l2 v1 v2 Hne Hin1 Hin2 Hl1 Hl2 Hty1 Hty2 Hn1 Hn2.
    assert (Hkey : forall l v, Some l ∈ Scene.entities this ->
              entity_heap w !! l = Some v ->
              Transform.type v <> EntityType.Transform ->
              (forall dst, getName v dst = n) ->
              exists k, (k, Some l) ∈ result /\ n ∈ map fst result /\
                (k = n \/ exists i, k = (n ++ hex i)%string /\
                          forall j, (j < i)%nat -> (n ++ hex j)%string ∈ map fst result)).
    { intros l v Hin Hl Hty Hn.
      assert (Hp : Some l ∈ map snd result).
      { rewrite Hperm. apply filter_elem. split; [exact Hin|].
        unfold kept. simpl. rewrite Hl.
        destruct (EntityType.eqb (Transform.type v) EntityType.Transform) eqn:E;
          [|reflexivity].
        apply EntityType_eqb_eq in E. contradiction. }
      apply entry_of in Hp as (k & Hkp).
      exists k. split; [exact Hkp|].
      destruct (Hnamed _ Hkp) as (l' & v' & dst & Heq & Hl' & Hkeys & Hrule).
      simpl in Heq. inversion Heq; subst l'. rewrite Hl in Hl'. inversion Hl'; subst v'.
      rewrite Hn in Hkeys, Hrule. simpl in Hrule. auto. }
    destruct (Hkey l1 v1 Hin1 Hl1 Hty1 Hn1) as (k1 & Hk1 & Hkeys & Hrule1).
    destruct (Hkey l2 v2 Hin2 Hl2 Hty2 Hn2) as (k2 & Hk2 & _ & Hrule2).
    assert (Hsuffix : forall k l, (k, Some l) ∈ result ->
              (exists i, k = (n ++ hex i)%string /\
                 forall j, (j < i)%nat -> (n ++ hex j)%string ∈ map fst result) ->
              (n ++ "0")%string ∈ map fst result).
    { intros k l Hk (i & -> & Hbelow). destruct i as [|i].
      - apply list_elem_of_fmap. exists ((n ++ hex 0)%string, Some l). auto.
      - apply (Hbelow 0%nat). lia. }
    assert (Hzero : (n ++ "0")%string ∈ map fst result).
    { destruct Hrule1 as [->|Hrule1]; [|exact (Hsuffix k1 l1 Hk1 Hrule1)].
      destruct Hrule2 as [->|Hrule2]; [|exact (Hsuffix k2 l2 Hk2 Hrule2)].
      exfalso. apply Hne.
      pose proof (keys_ascend_functional _ _ _ _ Hasc Hk1 Hk2) as Heq. congruence. }
    apply entry_of_key in Hkeys as (pa & Ha).
    apply entry_of_key in Hzero as (pb & Hb).
    destruct (Hentry _ _ Ha) as (la & va0 & va & -> & _ & Hla & Hpa & _).
    destruct (Hentry _ _ Hb) as (lb & vb0 & vb & -> & _ & Hlb & Hpb & _).
    exists la, lb, va, vb.
    auto 10.
  - intros rho this2 w2 Hents Hsame Hinj.
    assert (Hsub : forall k l, (k, Some l) ∈ result -> Some l ∈ Scene.entities this).
    { intros k l Hin.
      destruct (Hdone k (Some l) Hin) as (l' & v0 & Heq & Hl & _).
      inversion Heq; subst l'. exact Hl. }
    pose proof (relocate_insert_run rho (Scene.entities this) w w2 Hsame
                  _ _ _ _ Hrun1) as Hrun1'.
    change (relocate rho []) with (@nil (string * option nat)) in Hrun1'.
    destruct (flatten_emit_run (relocate rho result) w2)
      as (w2' & Hrun2' & Hem).
    { unfold relocate. rewrite map_map. simpl.
      rewrite <- (map_map snd (option_map rho)).
      apply NoDup_fmap_2_strong; [|exact Hnd'].
      intros p q Hp Hq Heq.
      apply entry_of in Hp as (kp & Hp). apply entry_of in Hq as (kq & Hq).
      destruct (Hdone _ _ Hp) as (lp & vp & -> & Hlp & _).
      destruct (Hdone _ _ Hq) as (lq & vq & -> & Hlq & _).
      simpl in Heq. inversion Heq as [Heq']. f_equal. apply Hinj; assumption. }
    { intros k p Hin. unfold relocate in Hin.
      apply list_elem_of_fmap in Hin as ([k0 p0] & Heq & Hin).
      simpl in Heq. inversion Heq; subst k p.
      destruct (Hdone _ _ Hin) as (l & v0 & -> & Hl & _ & Hl0 & _).
      exists (rho l), v0. split; [reflexivity|].
      rewrite (Hsame l Hl). exact Hl0. }
    destruct Hem as (_ & _ & _ & Hdone2 & _).
    exists w2'. split.
    + unfold Scene.flatternHierarchy. rewrite Hents.
      rewrite (bind_run _ _ _ _ _ Hrun1'). simpl fst.
      rewrite (bind_run _ _ _ _ _ Hrun2'). reflexivity.
    + intros k l Hin.
      destruct (Hdone2 k (Some (rho l))) as (l' & v0 & Heq & _ & Hl').
      { unfold relocate. apply list_elem_of_fmap. exists (k, Some l). auto. }
      inversion Heq; subst l'.
      eexists. split; [exact Hl'|reflexivity].
Qed.
End FlattenClaim.

(** The two boxes: the output has an entity with the path /Box and one with
    the path /Box0; moved two locations up in a larger store, the entities
    get the same names. *)
Lemma flatten_naming_witness :
  ents_valid (entity_heap boxes_world) (Scene.entities boxes_scene) /\
  NoDup (Scene.entities boxes_scene) /\
  exists result w' la lb va vb,
    Scene.flatternHierarchy boxes_scene boxes_world =
      Ok (Scene.set_entities (map snd result) boxes_scene) w' /\
    keys_ascend result /\
    ("Box"%string, Some la) ∈ result /\ ("Box0"%string, Some lb) ∈ result /\
    entity_heap w' !! la = Some va /\ Transform.path va = "/Box"%string /\
    entity_heap w' !! lb = Some vb /\ Transform.path vb = "/Box0"%string /\
    exists w2',
      Scene.flatternHierarchy moved_boxes_scene moved_boxes_world =
        Ok (Scene.set_entities (map snd (relocate (Nat.add 2) result))
              moved_boxes_scene) w2' /\
      exists va2 vb2,
        entity_heap w2' !! (2 + la)%nat = Some va2 /\
        Transform.path va2 = "/Box"%string /\
        entity_heap w2' !! (2 + lb)%nat = Some vb2 /\
        Transform.path vb2 = "/Box0"%string.
Proof.
  assert (Hv : ents_valid (entity_heap boxes_world) (Scene.entities boxes_scene))
    by (eexists; reflexivity).
  assert (Hnd : NoDup (Scene.entities boxes_scene))
    by (apply (bool_decide_unpack _); vm_compute; exact I).
  split; [exact Hv|]. split; [exact Hnd|].
  destruct (flatten_naming boxes_scene boxes_world Hv Hnd)
    as (result & w' & Hrun & Hasc & _ & _ & _ & Hbox & Hmove).
  destruct (Hbox "Box"%string 1%nat 3%nat
           (Example.entity 2 "/Room/Box" EntityType.Mesh true [1])
           (Example.entity 4 "/Hall/Box" EntityType.Mesh true [2]))
    as (la & lb & va & vb & Ha & Hb & Hla & Hpa & Hlb & Hpb).
  - discriminate.
  - apply (bool_decide_unpack _). vm_compute. exact I.
  - apply (bool_decide_unpack _). vm_compute. exact I.
  - reflexivity.
  - reflexivity.
  - discriminate.
  - discriminate.
  - intros dst. reflexivity.
  - intros dst. reflexivity.
  - destruct (Hmove (Nat.add 2) moved_boxes_scene moved_boxes_world)
      as (w2' & Hrun2 & Hpaths).
    + reflexivity.
    + intros l Hl.
      assert (Hlt : (l < 5)%nat).
      { apply list_elem_of_In in Hl. vm_compute in Hl.
        repeat (destruct Hl as [Hl|Hl]; [inversion Hl; lia|]). destruct Hl. }
      do 5 (destruct l as [|l]; [reflexivity|]). lia.
    + intros l l' _ _ Heq. lia.
    + destruct (Hpaths _ _ Ha) as (va2 & Hla2 & Hpa2).
      destruct (Hpaths _ _ Hb) as (vb2 & Hlb2 & Hpb2).
      exists result, w', la, lb, va, vb.
      repeat (split; [assumption|]).
      exists w2'. split; [exact Hrun2|].
      exists va2, vb2. auto.
Defined.

(** The two boxes and the apple, flattened: the entities in key order and
    their new paths. *)
Lemma flatten_boxes :
  exists w',
    Scene.flatternHierarchy boxes_scene boxes_world =
      Ok (Scene.set_entities [Some 4%nat; Some 1%nat; Some 3%nat] boxes_scene) w' /\
    map Transform.path (entity_heap w') =
      ["/Room"; "/Box"; "/Hall"; "/Box0"; "/Apple"]%string.
Proof.
  eexists. split; vm_compute; reflexivity.
Qed.


(** * Copies of a scene *)

Section Clone.
Context {D : Domain} {C : Collaborators}.

Lemma targets_length {A} (heap : list A) ps vs :
  targets heap ps = Some vs -> length vs = length ps.
Proof.
  revert vs. induction ps as [|p ps IH]; simpl; intros vs H.
  - inversion H. reflexivity.
  - destruct (target heap p); [|discriminate].
    destruct (targets heap ps); [|discriminate].
    inversion H. simpl. f_equal. apply IH. reflexivity.
Qed.

Lemma targets_grow {A} (heap extra : list A) ps vs :
  targets heap ps = Some vs -> targets (heap ++ extra) ps = Some vs.
Proof.
  revert vs. induction ps as [|p ps IH]; simpl; intros vs H; [exact H|].
  destruct (target heap p) as [v|] eqn:Hp; [|discriminate].
  destruct (targets heap ps) as [us|]; [|discriminate].
  rewrite (IH us eq_refl).
  destruct p as [l|]; [|discriminate]. simpl in *.
  rewrite (lookup_app_l_Some _ _ _ _ Hp). exact H.
Qed.

(** The loop of [clone] from slot [length pre] on. *)
Lemma clone_loop detach (this : Scene.t) heap0 alog elog post :
  forall pre pvs qvs,
    Scene.entities this = pre ++ post ->
    targets heap0 post = Some qvs ->
    length pvs = length pre ->
    for_each (fun ei ret_ =>
                e <- at_ (Scene.entities this) ei ;;
                v <- deref e ;;
                e' <- alloc (ent_clone detach v) ;;
                ret (Scene.set_entities
                       (<[ei := Some e']> (Scene.entities ret_)) ret_))
             (seq (length pre) (length post))
             (Scene.set_entities
                (map Some (seq (length heap0) (length pre)) ++ post) this)
             (mkWorld (heap0 ++ pvs) alog elog)
    = Ok (Scene.set_entities
            (map Some (seq (length heap0) (length (pre ++ post)))) this)
         (mkWorld (heap0 ++ pvs ++ map (ent_clone detach) qvs) alog elog).
Proof.
  induction post as [|e post IH]; intros pre pvs qvs Hents Hq Hlen.
  - simpl in Hq. inversion Hq; subst qvs. simpl.
    rewrite !app_nil_r. reflexivity.
  - simpl in Hq.
    destruct (target heap0 e) as [v|] eqn:He; [|discriminate].
    destruct (targets heap0 post) as [us|] eqn:Hus; [|discriminate].
    inversion Hq; subst qvs; clear Hq.
    destruct e as [l|]; [|discriminate]. simpl in He.
    cbn [length seq for_each].
    erewrite bind_run; cycle 1.
    { erewrite bind_run;
        [|apply at_Ok; split; [|reflexivity];
          rewrite Hents; apply list_lookup_middle; reflexivity].
      erewrite bind_run;
        [|apply deref_Ok; exists l; split; [reflexivity|]; split; [|reflexivity];
          simpl; apply lookup_app_l_Some; exact He].
      unfold bind, alloc, ret. simpl. reflexivity. }
    assert (H1 : Scene.entities this = (pre ++ [Some l]) ++ post)
      by (rewrite <- app_assoc; exact Hents).
    assert (H3 : length (pvs ++ [ent_clone detach v]) = length (pre ++ [Some l]))
      by (rewrite !length_app; simpl; lia).
    pose proof (IH (pre ++ [Some l]) (pvs ++ [ent_clone detach v]) us H1 eq_refl H3)
      as IH'.
    rewrite <- !app_assoc in IH'.
    replace (length (pre ++ [Some l])) with (S (length pre)) in IH'
      by (rewrite length_app; simpl; lia).
    etransitivity; [|exact IH'].
    f_equal.
    + unfold Scene.set_entities. cbn [Scene.entities Scene.settings Scene.assets
                                      Scene.constraints Scene.scene_buffers].
      f_equal.
      rewrite seq_S, map_app, <- app_assoc.
      rewrite insert_app_r_alt by (rewrite length_map, length_seq; lia).
      rewrite length_map, length_seq, Nat.sub_diag, length_app, Hlen.
      reflexivity.
    + rewrite <- app_assoc. reflexivity.
Qed.

Lemma clone_run detach (this : Scene.t) w evs :
  targets (entity_heap w) (Scene.entities this) = Some evs ->
  Scene.clone detach this w =
    Ok (Scene.set_entities
          (map Some (seq (length (entity_heap w)) (length evs))) this)
       (mkWorld (entity_heap w ++ map (ent_clone detach) evs)
                (asset_heap w) (error_log w)).
Proof.
  intros Hev. unfold Scene.clone, parallel_for.
  rewrite Nat.sub_0_r.
  pose proof (clone_loop detach this (entity_heap w) (asset_heap w) (error_log w)
                (Scene.entities this) [] [] evs eq_refl Hev eq_refl) as H.
  simpl in H. rewrite app_nil_r in H.
  rewrite (targets_length _ _ _ Hev).
  destruct w as [eh ah el]. destruct this as [st assets ents cs bufs].
  simpl in *. exact H.
Qed.

(** X1.  [Scene::clone] succeeds whenever every entity pointer is live.
    The copy has the receiver's settings, asset pointers, constraints and
    buffers; its entity slots point, in the receiver's order, to objects
    that did not exist before, each the clone of the entity at the same
    index.  No object that existed is changed, and nothing is logged. *)
Theorem clone_fresh_copies detach (this : Scene.t) (w : World) evs :
  targets (entity_heap w) (Scene.entities this) = Some evs ->
  exists copy w',
    Scene.clone detach this w = Ok copy w' /\
    Scene.settings copy = Scene.settings this /\
    Scene.assets copy = Scene.assets this /\
    Scene.constraints copy = Scene.constraints this /\
    Scene.scene_buffers copy = Scene.scene_buffers this /\
    length (Scene.entities copy) = length (Scene.entities this) /\
    targets (entity_heap w') (Scene.entities copy)
      = Some (map (ent_clone detach) evs) /\
    targets (entity_heap w') (Scene.entities this) = Some evs /\
    (forall l, Some l ∈ Scene.entities copy ->
               (length (entity_heap w) <= l)%nat /\
               Some l ∉ Scene.entities this) /\
    NoDup (Scene.entities copy) /\
    (exists extra, entity_heap w' = entity_heap w ++ extra) /\
    asset_heap w' = asset_heap w /\
    error_log w' = error_log w.
Proof.
  intros Hev. eexists _, _. split; [apply (clone_run _ _ _ _ Hev)|].
  pose proof (targets_length _ _ _ Hev) as Hlen.
  simpl. repeat (split; [reflexivity|]).
  split; [rewrite length_map, length_seq; exact Hlen|].
  split.
  { rewrite <- (length_map (ent_clone detach) evs). apply targets_fresh. }
  split; [apply targets_grow; exact Hev|].
  split.
  { intros l Hl. apply list_elem_of_fmap in Hl as (l' & Heq & Hl').
    inversion Heq; subst l'. apply elem_of_seq in Hl'.
    split; [lia|]. intros Hin.
    destruct (targets_elem _ _ _ _ Hev Hin) as (l2 & v & Heq2 & Hv).
    inversion Heq2; subst l2. apply lookup_lt_Some in Hv. lia. }
  split.
  { apply NoDup_fmap_2; [intros a b Hab; inversion Hab; reflexivity|].
    apply NoDup_seq. }
  split; [eexists; reflexivity|]. split; reflexivity.
Qed.

(** X20.  When the clone of each entity has the hash of the entity, the
    clone of a scene has the hash of the scene: the assets are the same
    objects and the entities are hashed in the same order. *)
Theorem clone_keeps_hash detach (this : Scene.t) (w : World) avs evs :
  targets (asset_heap w) (Scene.assets this) = Some avs ->
  targets (entity_heap w) (Scene.entities this) = Some evs ->
  Forall (fun v => ent_hash (ent_clone detach v) = ent_hash v) evs ->
  exists copy w' h,
    Scene.clone detach this w = Ok copy w' /\
    Scene.hash this w = Ok h w /\
    Scene.hash copy w' = Ok h w'.
Proof.
  intros Ha He Hh. eexists _, _, _.
  split; [apply (clone_run _ _ _ _ He)|].
  split; [apply (hash_value this w avs evs Ha He)|].
  erewrite hash_value; cycle 1.
  - simpl. exact Ha.
  - simpl. rewrite <- (length_map (ent_clone detach) evs). apply targets_fresh.
  - do 3 f_equal. clear He.
    induction Hh as [|v evs Hv _ IH]; simpl; [reflexivity|].
    rewrite Hv, IH. reflexivity.
Qed.
End Clone.

(** The first snapshot cloned with its parents dropped. *)
Lemma clone_fresh_copies_witness :
  exists copy w',
    Scene.clone true snapshot1 snapshots_world = Ok copy w' /\
    Scene.entities copy = [Some 6%nat; Some 7%nat; Some 8%nat] /\
    targets (entity_heap w') (Scene.entities copy) =
      Some [Example.entity 1 "/A" EntityType.Transform false [1; 2; 3];
            Example.entity 2 "/A/B" EntityType.Mesh false [4; 5];
            Example.entity 3 "/A/B/C" EntityType.Mesh true [7]].
Proof.
  destruct (clone_fresh_copies true snapshot1 snapshots_world
              [Example.entity 1 "/A" EntityType.Transform false [1; 2; 3];
               Example.entity 2 "/A/B" EntityType.Mesh false [4; 5];
               Example.entity 3 "/A/B/C" EntityType.Mesh true [7]] eq_refl)
    as (copy & w' & Hrun & _ & _ & _ & _ & _ & Hc & _).
  exists copy, w'. split; [exact Hrun|].
  assert (Hv : Ok copy w' = Scene.clone true snapshot1 snapshots_world)
    by (symmetry; exact Hrun).
  vm_compute in Hv. inversion Hv; subst copy w'; clear Hv.
  split; reflexivity.
Defined.

(** The clone of [persisted] without parents has its hash, 70. *)
Lemma clone_keeps_hash_witness :
  exists copy w',
    Scene.clone true persisted snapshots_world = Ok copy w' /\
    Scene.hash persisted snapshots_world = Ok 70 snapshots_world /\
    Scene.hash copy w' = Ok 70 w'.
Proof.
  destruct (clone_keeps_hash true persisted snapshots_world
              [Example.asset AssetType.Texture [] 11;
               Example.asset AssetType.Material [] 31]
              [Example.entity 1 "/A" EntityType.Transform false [1; 2; 3];
               Example.entity 2 "/A/B" EntityType.Mesh false [4; 5];
               Example.entity 3 "/A/B/C" EntityType.Mesh true [7]]
              eq_refl eq_refl)
    as (copy & w' & h & Hrun & Hh & Hh').
  - repeat constructor.
  - assert (Hv : Ok h snapshots_world = Scene.hash persisted snapshots_world)
      by (symmetry; exact Hh).
    vm_compute in Hv. inversion Hv; subst h; clear Hv.
    exists copy, w'. repeat split; assumption.
Defined.


(** * Strip and merge on aligned scenes *)

Section Aligned.
Context {D : Domain} {C : Collaborators}.

Lemma seq_split_index n pre x post :
  seq 0 n = pre ++ x :: post -> x = length pre /\ (x < n)%nat.
Proof.
  intros H.
  assert (Hx : seq 0 n !! length pre = Some x)
    by (rewrite H; apply list_lookup_middle; reflexivity).
  apply lookup_seq in Hx. simpl in Hx. lia.
Qed.

(** The loop shared by [strip] and [merge]. *)
Lemma aligned_loop (op : Transform.t -> Transform.t -> Transform.t)
    (base this : Scene.t) (w : World) :
  length (Scene.entities this) = length (Scene.entities base) ->
  ents_valid (entity_heap w) (Scene.entities this) ->
  ents_valid (entity_heap w) (Scene.entities base) ->
  NoDup (Scene.entities this) ->
  (forall i j p, Scene.entities this !! j = Some p ->
                 Scene.entities base !! i = Some p -> i = j) ->
  exists w',
    for_each (fun ei this0 =>
                ecur <- at_ (Scene.entities this0) ei ;;
                ebase <- at_ (Scene.entities base) ei ;;
                vcur <- deref ecur ;;
                vbase <- deref ebase ;;
                if Z.eqb (Transform.id vcur) (Transform.id vbase) then
                  Scene.store_at ecur (op vcur vbase) ;;; ret this0
                else ret this0)
             (seq 0 (length (Scene.entities this))) this w = Ok this w' /\
    aligned_store op this base (length (Scene.entities this)) w w'.
Proof.
  intros Hlen [tvs Ht] [bvs Hb] Hnd Hshare.
  set (n := length (Scene.entities this)).
  destruct (for_each_prefix
              (fun pre s w' => s = this /\
                               aligned_store op this base (length pre) w w')
              (fun ei this0 =>
                ecur <- at_ (Scene.entities this0) ei ;;
                ebase <- at_ (Scene.entities base) ei ;;
                vcur <- deref ecur ;;
                vbase <- deref ebase ;;
                if Z.eqb (Transform.id vcur) (Transform.id vbase) then
                  Scene.store_at ecur (op vcur vbase) ;;; ret this0
                else ret this0)
              (seq 0 n)) with (s := this) (w := w)
    as (s' & w' & Hrun & -> & Hst).
  - intros pre x post s w1 Hsplit [-> (Hl1 & Ha1 & He1 & Hdone & Hrest)].
    apply seq_split_index in Hsplit as [-> Hlt].
    destruct (targets_lookup _ _ _ (length pre) Ht Hlt)
      as (p & v & Hp & Htp & _).
    destruct (targets_lookup _ _ _ (length pre) Hb ltac:(unfold n in Hlt; lia))
      as (pb & vb & Hpb & Htpb & _).
    destruct p as [l|]; [|discriminate].
    destruct pb as [lb|]; [|discriminate].
    simpl in Htp, Htpb.
    assert (Hcur : entity_heap w1 !! l = Some v).
    { rewrite Hrest; [exact Htp|].
      intros j Hj Hjl.
      assert (j = length pre) by (eapply NoDup_lookup; eauto). lia. }
    assert (Hbase : entity_heap w1 !! lb = Some vb).
    { rewrite Hrest; [exact Htpb|].
      intros j Hj Hjl.
      assert (length pre = j) by (eapply Hshare; eauto). lia. }
    erewrite bind_run; [|apply at_Ok; split; [exact Hp|reflexivity]].
    erewrite bind_run; [|apply at_Ok; split; [exact Hpb|reflexivity]].
    erewrite bind_run;
      [|apply deref_Ok; exists l; repeat split; exact Hcur].
    erewrite bind_run;
      [|apply deref_Ok; exists lb; repeat split; exact Hbase].
    assert (Hstep : forall h,
               length h = length (entity_heap w1) ->
               h !! l = Some (aligned op v vb) ->
               (forall l', l' <> l -> h !! l' = entity_heap w1 !! l') ->
               aligned_store op this base (length (pre ++ [length pre])) w
                 (mkWorld h (asset_heap w1) (error_log w1))).
    { intros h Hh Hhl Hho. rewrite length_app. simpl.
      split; [simpl; lia|]. split; [exact Ha1|]. split; [exact He1|].
      split.
      - intros j l' lb' v' vb' Hj Hjl Hjb Hv' Hvb'. simpl.
        destruct (decide (j = length pre)) as [->|Hne].
        + rewrite Hp in Hjl. rewrite Hpb in Hjb.
          inversion Hjl; inversion Hjb; subst l' lb'.
          rewrite Htp in Hv'. rewrite Htpb in Hvb'.
          inversion Hv'; inversion Hvb'; subst v' vb'. exact Hhl.
        + rewrite Hho.
          * eapply Hdone; eauto. lia.
          * intros ->.
            assert (j = length pre) by (eapply NoDup_lookup; eauto). lia.
      - intros l' Hnot. simpl.
        assert (l' <> l).
        { intros ->. apply (Hnot (length pre)); [lia|exact Hp]. }
        rewrite Hho by assumption. apply Hrest.
        intros j Hj. apply Hnot. lia. }
    unfold aligned in Hstep.
    destruct (Z.eqb (Transform.id v) (Transform.id vb)) eqn:Hid.
    + unfold Scene.store_at, store, bind, ret. rewrite Hcur.
      eexists _, _. split; [reflexivity|]. split; [reflexivity|].
      apply Hstep.
      * rewrite length_insert. reflexivity.
      * apply list_lookup_insert_eq. eapply lookup_lt_Some; exact Hcur.
      * intros l' Hne. apply list_lookup_insert_ne. congruence.
    + unfold ret. eexists _, _. split; [reflexivity|]. split; [reflexivity|].
      destruct w1 as [h1 a1 e1]. simpl in *.
      apply Hstep; [reflexivity|exact Hcur|reflexivity].
  - split; [reflexivity|]. simpl.
    repeat (split; [reflexivity|]). split.
    + intros j l lb v vb Hj. lia.
    + reflexivity.
  - exists w'. rewrite length_seq in Hst. split; assumption.
Qed.

Lemma strip_run (base this : Scene.t) (w : World) :
  length (Scene.entities this) = length (Scene.entities base) ->
  ents_valid (entity_heap w) (Scene.entities this) ->
  ents_valid (entity_heap w) (Scene.entities base) ->
  NoDup (Scene.entities this) ->
  (forall i j p, Scene.entities this !! j = Some p ->
                 Scene.entities base !! i = Some p -> i = j) ->
  exists w',
    Scene.strip base this w = Ok this w' /\
    aligned_store ent_strip this base (length (Scene.entities this)) w w'.
Proof.
  intros Hlen Ht Hb Hnd Hshare.
  unfold Scene.strip, parallel_for. rewrite Hlen, Nat.eqb_refl, Nat.sub_0_r.
  rewrite <- Hlen. apply aligned_loop; assumption.
Qed.

Lemma merge_run (base this : Scene.t) (w : World) :
  length (Scene.entities this) = length (Scene.entities base) ->
  ents_valid (entity_heap w) (Scene.entities this) ->
  ents_valid (entity_heap w) (Scene.entities base) ->
  NoDup (Scene.entities this) ->
  (forall i j p, Scene.entities this !! j = Some p ->
                 Scene.entities base !! i = Some p -> i = j) ->
  exists w',
    Scene.merge base this w = Ok this w' /\
    aligned_store ent_merge this base (length (Scene.entities this)) w w'.
Proof.
  intros Hlen Ht Hb Hnd Hshare.
  unfold Scene.merge, parallel_for. rewrite Hlen, Nat.eqb_refl, Nat.sub_0_r.
  rewrite <- Hlen. apply aligned_loop; assumption.
Qed.

(** X2.  On two scenes of the same length whose entity pointers are live,
    the receiver's being distinct and sharing an object with the base
    only at the same index, [Scene::strip] and [Scene::merge] return the
    receiver as it was and rewrite the store in one way only: the entity
    behind slot [j] of the receiver becomes [strip] (resp. [merge]) of
    itself against the entity at slot [j] of the base when their ids are
    equal, and stays as it is when they differ.  Every other object, the
    assets and the log are unchanged. *)
Theorem strip_merge_aligned (base this : Scene.t) (w : World) :
  length (Scene.entities this) = length (Scene.entities base) ->
  ents_valid (entity_heap w) (Scene.entities this) ->
  ents_valid (entity_heap w) (Scene.entities base) ->
  NoDup (Scene.entities this) ->
  (forall i j p, Scene.entities this !! j = Some p ->
                 Scene.entities base !! i = Some p -> i = j) ->
  (exists w',
     Scene.strip base this w = Ok this w' /\
     aligned_store ent_strip this base (length (Scene.entities this)) w w') /\
  (exists w',
     Scene.merge base this w = Ok this w' /\
     aligned_store ent_merge this base (length (Scene.entities this)) w w').
Proof.
  intros Hlen Ht Hb Hnd Hshare. split.
  - apply strip_run; assumption.
  - apply merge_run; assumption.
Qed.

(** X3.  Strip followed by merge against the same base gives the store
    back, when the receiver and the base share no entity and, on every
    aligned pair with equal ids, the entity's own [strip] keeps the id
    and its [merge] undoes the [strip]. *)
Theorem strip_then_merge (base this : Scene.t) (w : World) :
  length (Scene.entities this) = length (Scene.entities base) ->
  ents_valid (entity_heap w) (Scene.entities this) ->
  ents_valid (entity_heap w) (Scene.entities base) ->
  NoDup (Scene.entities this) ->
  (forall p, p ∈ Scene.entities this -> p ∉ Scene.entities base) ->
  (forall j v vb,
     entity_at (entity_heap w) (Scene.entities this) j = Some v ->
     entity_at (entity_heap w) (Scene.entities base) j = Some vb ->
     Transform.id v = Transform.id vb ->
     Transform.id (ent_strip v vb) = Transform.id vb /\
     ent_merge (ent_strip v vb) vb = v) ->
  exists w1,
    Scene.strip base this w = Ok this w1 /\
    Scene.merge base this w1 = Ok this w.
Proof.
  intros Hlen Ht Hb Hnd Hdisj Hlaw.
  assert (Hshare : forall i j p, Scene.entities this !! j = Some p ->
                                 Scene.entities base !! i = Some p -> i = j).
  { intros i j p Hj Hi. exfalso. apply (Hdisj p).
    - apply list_elem_of_lookup. exists j. exact Hj.
    - apply list_elem_of_lookup. exists i. exact Hi. }
  destruct (strip_run base this w Hlen Ht Hb Hnd Hshare)
    as (w1 & Hrun1 & Hl1 & Ha1 & He1 & Hdone1 & Hrest1).
  assert (Hvalid : forall ents, ents_valid (entity_heap w) ents ->
                                ents_valid (entity_heap w1) ents).
  { intros ents [vs Hvs]. apply targets_intro. intros p Hp.
    destruct (targets_elem _ _ _ _ Hvs Hp) as (l & v & -> & Hv).
    apply lookup_lt_Some in Hv. rewrite <- Hl1 in Hv.
    apply lookup_lt_is_Some in Hv as [v1 Hv1]. exists l, v1. split; trivial. }
  destruct (merge_run base this w1 Hlen (Hvalid _ Ht) (Hvalid _ Hb) Hnd Hshare)
    as (w2 & Hrun2 & Hl2 & Ha2 & He2 & Hdone2 & Hrest2).
  exists w1. split; [exact Hrun1|]. rewrite Hrun2. f_equal.
  destruct w2 as [h2 a2 e2], w as [h a e]. simpl in *.
  rewrite Ha1 in Ha2. rewrite He1 in He2. subst a2 e2. f_equal.
  apply list_eq. intros l.
  destruct (decide (Some l ∈ Scene.entities this)) as [Hin|Hout].
  - apply list_elem_of_lookup in Hin as [j Hj].
    pose proof (lookup_lt_Some _ _ _ Hj) as Hjn.
    destruct Ht as [tvs Htv]. destruct Hb as [bvs Hbv].
    destruct (targets_lookup _ _ _ j Htv Hjn) as (p & v & Hp & Hv & _).
    destruct (targets_lookup _ _ _ j Hbv ltac:(lia)) as (pb & vb & Hpb & Hvb & _).
    rewrite Hj in Hp. inversion Hp; subst p. simpl in Hv.
    destruct pb as [lb|]; [|discriminate]. simpl in Hvb.
    assert (Hlb : entity_heap w1 !! lb = Some vb).
    { rewrite Hrest1; [exact Hvb|]. intros j' _ Hj'.
      apply (Hdisj (Some lb)); apply list_elem_of_lookup; eauto. }
    rewrite (Hdone2 j l lb _ vb Hjn Hj Hpb (Hdone1 j l lb v vb Hjn Hj Hpb Hv Hvb) Hlb).
    rewrite Hv. f_equal. unfold aligned.
    destruct (Z.eqb (Transform.id v) (Transform.id vb)) eqn:Hid.
    + apply Z.eqb_eq in Hid.
      destruct (Hlaw j v vb) as [Hid' Hback]; trivial.
      * unfold entity_at. rewrite Hj. exact Hv.
      * unfold entity_at. rewrite Hpb. exact Hvb.
      * rewrite Hid', Z.eqb_refl. exact Hback.
    + rewrite Hid. reflexivity.
  - rewrite Hrest2, Hrest1; [reflexivity| |].
    + intros j _ Hj. apply Hout. apply list_elem_of_lookup. eauto.
    + intros j _ Hj. apply Hout. apply list_elem_of_lookup. eauto.
Qed.
End Aligned.

(** The first entity loses the payload it shares with its base, the second
    keeps its own; the same holds with [merge] in place of [strip]. *)
Lemma strip_merge_aligned_witness :
  exists w',
    Scene.strip delta_base delta_scene delta_world = Ok delta_scene w' /\
    map Transform.data (entity_heap w') = [[]; [4; 5]; [1; 2; 3]; [9; 9]].
Proof.
  destruct (strip_merge_aligned delta_base delta_scene delta_world)
    as [(w' & Hrun & _) _].
  - reflexivity.
  - eexists. reflexivity.
  - eexists. reflexivity.
  - apply (bool_decide_unpack _). vm_compute. exact I.
  - intros i j p Hj Hi.
    destruct j as [|[|j]]; simpl in Hj; inversion Hj; subst p;
      destruct i as [|[|i]]; simpl in Hi; inversion Hi.
  - exists w'. split; [exact Hrun|].
    assert (Hv : Ok delta_scene w' = Scene.strip delta_base delta_scene delta_world)
      by (symmetry; exact Hrun).
    vm_compute in Hv. inversion Hv; subst w'; clear Hv. reflexivity.
Defined.

(** Strip, then merge, on the same scene and base. *)
Lemma strip_then_merge_witness :
  exists w1,
    Scene.strip delta_base delta_scene delta_world = Ok delta_scene w1 /\
    Scene.merge delta_base delta_scene w1 = Ok delta_scene delta_world /\
    w1 <> delta_world.
Proof.
  destruct (strip_then_merge delta_base delta_scene delta_world)
    as (w1 & Hrun1 & Hrun2).
  - reflexivity.
  - eexists. reflexivity.
  - eexists. reflexivity.
  - apply (bool_decide_unpack _). vm_compute. exact I.
  - intros p Hp Hb. apply list_elem_of_In in Hp, Hb. simpl in Hp, Hb.
    destruct Hp as [Hp|[Hp|[]]]; subst p;
      destruct Hb as [Hb|[Hb|[]]]; discriminate.
  - intros j v vb Hv Hvb Hid.
    destruct j as [|[|j]]; simpl in Hv, Hvb; inversion Hv; inversion Hvb;
      subst v vb; split; reflexivity.
  - exists w1. split; [exact Hrun1|]. split; [exact Hrun2|].
    assert (Hv : Ok delta_scene w1 = Scene.strip delta_base delta_scene delta_world)
      by (symmetry; exact Hrun1).
    vm_compute in Hv. inversion Hv; subst w1; clear Hv. discriminate.
Defined.


(** * Exceptions and null pointers *)

Section NoThrow.
Context {D : Domain} {C : Collaborators} {SC : ScalarCodec} {CC : Codec}.

Lemma no_throw_ret {A} (a : A) : no_throw (ret a).
Proof. intros w what w'. discriminate. Qed.

Lemma no_throw_undefined {A} : no_throw (@undefined _ A).
Proof. intros w what w'. discriminate. Qed.

Lemma no_throw_bind {A B} (m : M A) (k : A -> M B) :
  no_throw m -> (forall a, no_throw (k a)) -> no_throw (bind m k).
Proof.
  intros Hm Hk w what w'. unfold bind.
  destruct (m w) as [a w1|s w1|] eqn:E.
  - apply Hk.
  - exfalso. exact (Hm _ _ _ E).
  - discriminate.
Qed.

Lemma no_throw_deref p : no_throw (deref p).
Proof.
  intros w what w'. unfold deref.
  destruct p as [l|]; [destruct (entity_heap w !! l)|]; discriminate.
Qed.

Lemma no_throw_deref_asset p : no_throw (deref_asset p).
Proof.
  intros w what w'. unfold deref_asset.
  destruct p as [l|]; [destruct (asset_heap w !! l)|]; discriminate.
Qed.

Lemma no_throw_at {A} (v : list A) i : no_throw (at_ v i).
Proof. intros w what w'. unfold at_. destruct (v !! i); discriminate. Qed.

Lemma no_throw_alloc e : no_throw (alloc e).
Proof. intros w what w'. discriminate. Qed.

Lemma no_throw_alloc_asset a : no_throw (alloc_asset a).
Proof. intros w what w'. discriminate. Qed.

Lemma no_throw_store l e : no_throw (store l e).
Proof.
  intros w what w'. unfold store. destruct (entity_heap w !! l); discriminate.
Qed.

Lemma no_throw_store_asset l a : no_throw (store_asset l a).
Proof.
  intros w what w'. unfold store_asset.
  destruct (asset_heap w !! l); discriminate.
Qed.

Lemma no_throw_store_at p e : no_throw (Scene.store_at p e).
Proof.
  destruct p as [l|]; simpl; [apply no_throw_store|apply no_throw_undefined].
Qed.

Lemma no_throw_log msg : no_throw (msLogError msg).
Proof. intros w what w'. discriminate. Qed.

Lemma no_throw_for_each {A S} (body : A -> S -> M S) l :
  (forall x s, no_throw (body x s)) -> forall s, no_throw (for_each body l s).
Proof.
  intros Hb. induction l as [|x l IH]; intros s; simpl.
  - apply no_throw_ret.
  - apply no_throw_bind; [apply Hb|exact IH].
Qed.

Lemma no_throw_map_m {A B} (f : A -> M B) l :
  (forall x, no_throw (f x)) -> no_throw (map_m f l).
Proof.
  intros Hf. induction l as [|x l IH]; simpl.
  - apply no_throw_ret.
  - apply no_throw_bind; [apply Hf|]. intros y.
    apply no_throw_bind; [exact IH|]. intros ys. apply no_throw_ret.
Qed.

Lemma no_throw_parallel_for {S} first last (body : nat -> S -> M S) s :
  (forall i s, no_throw (body i s)) -> no_throw (parallel_for first last body s).
Proof. intros Hb. apply no_throw_for_each. exact Hb. Qed.

Lemma no_throw_parallel_for_blocked {S} first last g
    (body : nat -> nat -> S -> M S) s :
  (forall b e s, no_throw (body b e s)) ->
  no_throw (parallel_for_blocked first last g body s).
Proof. intros Hb. apply no_throw_for_each. intros x s'. apply Hb. Qed.

(** A loop whose body has no defined result on one of the elements has
    none either. *)
Lemma for_each_undef {A S} (body : A -> S -> M S) l x :
  x ∈ l ->
  (forall s w, body x s w = Undef) ->
  (forall y s, no_throw (body y s)) ->
  forall s w, for_each body l s w = Undef.
Proof.
  intros Hx Hu Hn. induction l as [|y l IH]; intros s w.
  - inversion Hx.
  - simpl. unfold bind.
    apply elem_of_cons in Hx as [<-|Hx].
    + rewrite Hu. reflexivity.
    + destruct (body y s w) as [s1 w1|what w1|] eqn:E.
      * apply IH. exact Hx.
      * exfalso. exact (Hn _ _ _ _ _ E).
      * reflexivity.
Qed.

Lemma map_m_undef {A B} (f : A -> M B) l x :
  x ∈ l ->
  (forall w, f x w = Undef) ->
  (forall y, no_throw (f y)) ->
  forall w, map_m f l w = Undef.
Proof.
  intros Hx Hu Hn. induction l as [|y l IH]; intros w.
  - inversion Hx.
  - simpl. unfold bind.
    apply elem_of_cons in Hx as [<-|Hx].
    + rewrite Hu. reflexivity.
    + destruct (f y w) as [s1 w1|what w1|] eqn:E.
      * rewrite (IH Hx). reflexivity.
      * exfalso. exact (Hn _ _ _ _ E).
      * reflexivity.
Qed.

Ltac no_throw_step :=
  first
    [ apply no_throw_ret | apply no_throw_undefined
    | apply no_throw_deref | apply no_throw_deref_asset
    | apply no_throw_at | apply no_throw_alloc | apply no_throw_alloc_asset
    | apply no_throw_store | apply no_throw_store_asset
    | apply no_throw_store_at | apply no_throw_log
    | apply no_throw_bind; [|intros ?]
    | apply no_throw_for_each; intros ? ?
    | apply no_throw_map_m; intros ?
    | apply no_throw_parallel_for; intros ? ?
    | apply no_throw_parallel_for_blocked; intros ? ? ?
    | match goal with
      | |- no_throw (if ?b then _ else _) => destruct b
      | |- no_throw (match ?p with Some _ => _ | None => _ end) => destruct p
      | |- no_throw (let '(_, _) := ?p in _) => destruct p
      end ].

Lemma no_throw_flatten_insert e st : no_throw (Scene.flatten_insert e st).
Proof.
  unfold Scene.flatten_insert. destruct st as [result name].
  repeat no_throw_step.
Qed.

Lemma for_each_undef_inv {A S} (P : S -> Prop) (body : A -> S -> M S) l x :
  x ∈ l ->
  (forall s w, P s -> body x s w = Undef) ->
  (forall y s, no_throw (body y s)) ->
  (forall y s w s' w', P s -> body y s w = Ok s' w' -> P s') ->
  forall s w, P s -> for_each body l s w = Undef.
Proof.
  intros Hx Hu Hn Hp. induction l as [|y l IH]; intros s w Hs.
  - inversion Hx.
  - simpl. unfold bind.
    apply elem_of_cons in Hx as [<-|Hx].
    + rewrite Hu by exact Hs. reflexivity.
    + destruct (body y s w) as [s1 w1|what w1|] eqn:E.
      * apply IH; [exact Hx|]. eapply Hp; eauto.
      * exfalso. exact (Hn _ _ _ _ _ E).
      * reflexivity.
Qed.

Lemma null_slot (ents : list (option loc)) :
  None ∈ ents ->
  exists i, ents !! i = Some None /\ i ∈ seq 0 (length ents).
Proof.
  intros H. apply list_elem_of_lookup in H as [i Hi]. exists i.
  split; [exact Hi|]. apply elem_of_seq.
  apply lookup_lt_Some in Hi. lia.
Qed.

Lemma aligned_loop_undef (op : Transform.t -> Transform.t -> Transform.t)
    (base this : Scene.t) w :
  None ∈ Scene.entities this ->
  length (Scene.entities this) = length (Scene.entities base) ->
  for_each (fun ei this0 =>
              ecur <- at_ (Scene.entities this0) ei ;;
              ebase <- at_ (Scene.entities base) ei ;;
              vcur <- deref ecur ;;
              vbase <- deref ebase ;;
              if Z.eqb (Transform.id vcur) (Transform.id vbase) then
                Scene.store_at ecur (op vcur vbase) ;;; ret this0
              else ret this0)
           (seq 0 (length (Scene.entities this))) this w = Undef.
Proof.
  intros Hnull Hlen. destruct (null_slot _ Hnull) as (i & Hi & Hin).
  apply (for_each_undef_inv (fun s => s = this)) with (x := i);
    [exact Hin| | | |reflexivity].
  - intros s w0 ->. unfold bind, at_. rewrite Hi.
    destruct (Scene.entities base !! i); reflexivity.
  - intros y s. repeat no_throw_step.
  - intros y s w0 s' w0' -> H.
    bind_inv H. bind_inv H. bind_inv H. bind_inv H.
    destruct (Z.eqb _ _).
    + bind_inv H. inversion H. reflexivity.
    + inversion H. reflexivity.
Qed.

Lemma hash_undef_null (this : Scene.t) w :
  None ∈ Scene.entities this -> Scene.hash this w = Undef.
Proof.
  intros Hnull.
  unfold Scene.hash, bind.
  destruct (for_each _ (Scene.assets this) 0 w) as [r w1|what w1|] eqn:E;
    [| |reflexivity].
  - apply for_each_undef with (x := None); [exact Hnull| |].
    + intros s w0. reflexivity.
    + intros y s. repeat no_throw_step.
  - exfalso. revert E. apply no_throw_for_each. intros y s.
    repeat no_throw_step.
Qed.

(** X5.  No operation that reads the entities checks for a null pointer:
    on a scene one of whose entity slots is null, [hash], [serialize],
    [clone], [import], [buildHierarchy] and [flatternHierarchy] have no
    defined result, and neither have [strip] and [merge] against a base of
    the same length, nor [diff] and [lerp] from it to a snapshot of the
    same length. *)
Theorem null_entity_is_dereferenced (this : Scene.t) (w : World) :
  None ∈ Scene.entities this ->
  Scene.hash this w = Undef /\
  (forall os, Scene.serialize os this w = Undef) /\
  (forall detach, Scene.clone detach this w = Undef) /\
  (forall cv, Scene.import cv this w = Undef) /\
  Scene.buildHierarchy this w = Undef /\
  Scene.flatternHierarchy this w = Undef /\
  (forall other receiver t_,
      length (Scene.entities this) = length (Scene.entities other) ->
      Scene.strip other this w = Undef /\
      Scene.merge other this w = Undef /\
      Scene.diff this other receiver w = Undef /\
      Scene.lerp this other t_ receiver w = Undef).
Proof.
  intros Hnull.
  pose proof (hash_undef_null this w Hnull) as Hhash.
  destruct (null_slot _ Hnull) as (i & Hi & Hin).
  split; [exact Hhash|].
  split; [intros os; unfold Scene.serialize, bind; rewrite Hhash; reflexivity|].
  split.
  { intros detach. unfold Scene.clone, parallel_for. rewrite Nat.sub_0_r.
    apply for_each_undef with (x := i); [exact Hin| |].
    - intros s w0. unfold bind, at_. rewrite Hi. reflexivity.
    - intros y s. repeat no_throw_step. }
  split.
  { intros cv. unfold Scene.import.
    unfold bind at 1. unfold parallel_for_each.
    destruct (existsb _ _); [reflexivity|].
    rewrite for_each_undef with (x := None); [reflexivity|exact Hnull| |].
    - intros s w0. reflexivity.
    - intros y s. repeat no_throw_step. }
  split.
  { unfold Scene.buildHierarchy. unfold bind at 1.
    rewrite map_m_undef with (x := None); [reflexivity|exact Hnull| |].
    - intros w0. reflexivity.
    - intros y. apply no_throw_deref. }
  split.
  { unfold Scene.flatternHierarchy. unfold bind at 1.
    rewrite for_each_undef with (x := None); [reflexivity|exact Hnull| |].
    - intros [result name] w0. reflexivity.
    - intros y st. apply no_throw_flatten_insert. }
  intros other receiver t_ Hlen.
  split.
  { unfold Scene.strip, parallel_for.
    rewrite <- Hlen, Nat.eqb_refl, Nat.sub_0_r.
    apply aligned_loop_undef; assumption. }
  split.
  { unfold Scene.merge, parallel_for.
    rewrite <- Hlen, Nat.eqb_refl, Nat.sub_0_r.
    apply aligned_loop_undef; assumption. }
  split.
  { unfold Scene.diff, parallel_for.
    rewrite <- Hlen, Nat.eqb_refl, Nat.sub_0_r.
    apply for_each_undef with (x := i); [exact Hin| |].
    - intros s w0. unfold Scene.diff_body, bind, at_. rewrite Hi.
      destruct (Scene.entities other !! i); reflexivity.
    - intros y s. unfold Scene.diff_body. repeat no_throw_step. }
  { unfold Scene.lerp, parallel_for.
    rewrite <- Hlen, Nat.eqb_refl, Nat.sub_0_r.
    apply for_each_undef with (x := i); [exact Hin| |].
    - intros s w0. unfold Scene.lerp_body, bind, at_. rewrite Hi.
      destruct (Scene.entities other !! i); reflexivity.
    - intros y s. unfold Scene.lerp_body. repeat no_throw_step. }
Qed.
End NoThrow.

(** The receiver of the examples has a null slot. *)
Lemma null_entity_is_dereferenced_witness :
  None ∈ Scene.entities receiver /\
  Scene.hash receiver snapshots_world = Undef /\
  Scene.clone false receiver snapshots_world = Undef.
Proof.
  assert (H : None ∈ Scene.entities receiver)
    by (apply (bool_decide_unpack _); vm_compute; exact I).
  split; [exact H|].
  destruct (null_entity_is_dereferenced receiver snapshots_world H)
    as (Hh & _ & Hc & _).
  split; [exact Hh|apply Hc].
Defined.


(** * Looking an entity up by its path *)

Section FindEntity.
Context {D : Domain} {C : Collaborators}.

Lemma findEntity_from_found pre l post path w pvs v :
  targets (entity_heap w) pre = Some pvs ->
  Forall (fun u => Transform.path u <> path) pvs ->
  entity_heap w !! l = Some v ->
  Transform.path v = path ->
  Scene.findEntity_from (pre ++ Some l :: post) path w = Ok (Some l) w.
Proof.
  revert pvs. induction pre as [|p pre IH]; intros pvs Hpre Hne Hl Hp; simpl.
  - unfold bind, deref. rewrite Hl.
    apply String.eqb_eq in Hp. rewrite Hp. reflexivity.
  - simpl in Hpre.
    destruct (target (entity_heap w) p) as [u|] eqn:Hu; [|discriminate].
    destruct (targets (entity_heap w) pre) as [us|] eqn:Hus; [|discriminate].
    inversion Hpre; subst pvs; clear Hpre.
    apply Forall_cons in Hne as [Hne1 Hne].
    destruct p as [lp|]; [|discriminate]. simpl in Hu.
    unfold bind, deref. rewrite Hu.
    apply String.eqb_neq in Hne1. rewrite Hne1.
    apply (IH us); trivial.
Qed.

Lemma findEntity_from_none ents path w evs :
  targets (entity_heap w) ents = Some evs ->
  Forall (fun u => Transform.path u <> path) evs ->
  Scene.findEntity_from ents path w = Ok None w.
Proof.
  revert evs. induction ents as [|p ents IH]; intros evs Hev Hne; simpl.
  - reflexivity.
  - simpl in Hev.
    destruct (target (entity_heap w) p) as [u|] eqn:Hu; [|discriminate].
    destruct (targets (entity_heap w) ents) as [us|] eqn:Hus; [|discriminate].
    inversion Hev; subst evs; clear Hev.
    apply Forall_cons in Hne as [Hne1 Hne].
    destruct p as [lp|]; [|discriminate]. simpl in Hu.
    unfold bind, deref. rewrite Hu.
    apply String.eqb_neq in Hne1. rewrite Hne1.
    apply (IH us); trivial.
Qed.

(** What the scan returns on a scene of live pointers. *)
Lemma findEntity_from_spec ents path w :
  ents_valid (entity_heap w) ents ->
  exists r,
    Scene.findEntity_from ents path w = Ok r w /\
    match r with
    | Some l => Some l ∈ ents /\ Scene.path_at (entity_heap w) (Some l) = path
    | None => forall p, p ∈ ents -> Scene.path_at (entity_heap w) p <> path
    end.
Proof.
  intros [evs Hev]. revert evs Hev.
  induction ents as [|p ents IH]; intros evs Hev; simpl.
  - exists None. split; [reflexivity|]. intros p Hp. inversion Hp.
  - simpl in Hev.
    destruct (target (entity_heap w) p) as [u|] eqn:Hu; [|discriminate].
    destruct (targets (entity_heap w) ents) as [us|] eqn:Hus; [|discriminate].
    destruct p as [lp|]; [|discriminate]. simpl in Hu.
    unfold bind, deref. rewrite Hu.
    destruct (String.eqb (Transform.path u) path) eqn:Heq.
    + exists (Some lp). split; [reflexivity|]. split; [left|].
      simpl. rewrite Hu. apply String.eqb_eq. exact Heq.
    + destruct (IH us eq_refl) as (r & Hrun & Hr).
      exists r. split; [exact Hrun|].
      destruct r as [l|].
      * destruct Hr as [Hin Hp]. split; [right; exact Hin|exact Hp].
      * intros p Hp. apply elem_of_cons in Hp as [->|Hp]; [|apply Hr; exact Hp].
        simpl. rewrite Hu. apply String.eqb_neq. exact Heq.
Qed.

(** X6.  [Scene::findEntity] scans the entities in order and stops at
    the first whose path is the one sought: it returns that pointer and
    looks at no later slot, which may even hold a null pointer.  When
    every entity is live and none has the path, it returns the null
    pointer.  The store is unchanged in both cases. *)
Theorem findEntity_first (path : string) (this : Scene.t) (w : World) :
  (forall pre l post pvs v,
      Scene.entities this = pre ++ Some l :: post ->
      targets (entity_heap w) pre = Some pvs ->
      Forall (fun u => Transform.path u <> path) pvs ->
      entity_heap w !! l = Some v ->
      Transform.path v = path ->
      Scene.findEntity path this w = Ok (Some l) w) /\
  (forall evs,
      targets (entity_heap w) (Scene.entities this) = Some evs ->
      Forall (fun u => Transform.path u <> path) evs ->
      Scene.findEntity path this w = Ok None w).
Proof.
  split.
  - intros pre l post pvs v Hents Hpre Hne Hl Hp.
    unfold Scene.findEntity. rewrite Hents.
    eapply findEntity_from_found; eauto.
  - intros evs Hev Hne. unfold Scene.findEntity.
    eapply findEntity_from_none; eauto.
Qed.

(** X7.  On a scene of live entities with pairwise different paths, the
    linear scan of [findEntity] and the binary search that
    [buildHierarchy] runs on its path-sorted copy of the entities return
    the same pointer for every path, null included. *)
Theorem findEntity_agrees_with_index (path : string) (this : Scene.t) (w : World) :
  sort_law ->
  ents_valid (entity_heap w) (Scene.entities this) ->
  paths_unique (entity_heap w) (Scene.entities this) ->
  Scene.findEntity path this w =
    Ok (Scene.find (entity_heap w)
          (std_sort (fun a b => str_lt (Scene.path_at (entity_heap w) a)
                                       (Scene.path_at (entity_heap w) b))
                    (Scene.entities this))
          path) w.
Proof.
  intros Hsort Hvalid Huniq.
  destruct (Hsort (Scene.path_at (entity_heap w)) (Scene.entities this))
    as [Hperm Hsorted].
  set (sorted := std_sort _ _) in *.
  destruct (findEntity_from_spec (Scene.entities this) path w Hvalid)
    as (r & Hrun & Hr).
  unfold Scene.findEntity. rewrite Hrun. f_equal.
  destruct Hvalid as [evs Hev].
  destruct r as [l|].
  - destruct Hr as [Hin Hp].
    assert (Hin' : Some l ∈ sorted) by (rewrite Hperm; exact Hin).
    destruct (find_complete _ _ _ _ Hsorted Hin' Hp) as (q & Hq & Hqin & Hqp).
    rewrite Hq. rewrite Hperm in Hqin.
    destruct (targets_elem _ _ _ _ Hev Hqin) as (l' & v' & -> & Hv').
    destruct (targets_elem _ _ _ _ Hev Hin) as (l0 & v & Heq & Hv).
    inversion Heq; subst l0. f_equal.
    apply (Huniq l l' v v'); trivial.
    unfold Scene.path_at in Hp, Hqp. rewrite Hv in Hp. rewrite Hv' in Hqp.
    congruence.
  - destruct (Scene.find (entity_heap w) sorted path) as [l|] eqn:Hf;
      [|reflexivity].
    apply find_sound in Hf as [Hin Hp]. rewrite Hperm in Hin.
    exfalso. exact (Hr _ Hin Hp).
Qed.
End FindEntity.

(** The scan stops at "/A/B", the first entity; the entity after it is
    never looked at. *)
Lemma findEntity_first_witness :
  Scene.findEntity "/A/B"
    (Scene.set_entities [Some 1%nat; None] snapshot1) snapshots_world
  = Ok (Some 1%nat) snapshots_world.
Proof.
  destruct (findEntity_first "/A/B"
              (Scene.set_entities [Some 1%nat; None] snapshot1) snapshots_world)
    as [Hfound _].
  apply (Hfound [] 1%nat [None] []
           (Example.entity 2 "/A/B" EntityType.Mesh false [4; 5]));
    try reflexivity.
  constructor.
Defined.

(** In the chain stored leaf first, both lookups of "/A/B" give the third
    object. *)
Lemma findEntity_agrees_with_index_witness :
  Scene.findEntity "/A/B" chain_scene chain_world = Ok (Some 2%nat) chain_world.
Proof.
  rewrite (findEntity_agrees_with_index "/A/B" chain_scene chain_world).
  - reflexivity.
  - exact example_sort_law.
  - eexists. reflexivity.
  - intros l l' v v' Hl Hl' Hv Hv' Hp.
    simpl in Hl, Hl'.
    repeat (apply elem_of_cons in Hl as [Hl|Hl]; [inversion Hl; subst l; clear Hl|]);
      [| | |inversion Hl];
    repeat (apply elem_of_cons in Hl' as [Hl'|Hl']; [inversion Hl'; subst l'; clear Hl'|]);
      try (inversion Hl'); try reflexivity;
      simpl in Hv, Hv'; inversion Hv; inversion Hv'; subst; discriminate.
Defined.


(** * The wire format *)

Section Wire.
Context {D : Domain} {C : Collaborators} {SC : ScalarCodec} {CC : Codec}.

Lemma serialize_run os (this : Scene.t) w avs evs :
  targets (asset_heap w) (Scene.assets this) = Some avs ->
  targets (entity_heap w) (Scene.entities this) = Some evs ->
  Scene.serialize os this w =
    Ok (os
        ++ write_uint64 (wrap64 (sum_Z (map asset_hash avs)
                                 + sum_Z (map ent_hash evs)))
        ++ write_string (SceneSettings.name (Scene.settings this))
        ++ write_handedness (SceneSettings.handedness (Scene.settings this))
        ++ write_float (SceneSettings.scale_factor (Scene.settings this))
        ++ write_assets avs ++ write_entities evs
        ++ write_constraints (Scene.constraints this)) w.
Proof.
  intros Ha He. unfold Scene.serialize.
  rewrite (bind_run _ _ _ _ _ (hash_value this w avs evs Ha He)).
  rewrite (bind_run _ _ _ _ _ (map_m_deref_asset _ _ _ Ha)).
  rewrite (bind_run _ _ _ _ _ (map_m_deref _ _ _ He)).
  unfold ret, SceneSettings.serialize. f_equal.
  rewrite <- !app_assoc. reflexivity.
Qed.

(** X8.  [Scene::serialize] appends to the stream, in this order: the
    validation hash, the name, the handedness, the scale factor, the
    assets, the entities and the constraints.  What it appends depends on
    the objects pointed to and not on where they are, the transient
    buffers are not written, and the store is left as it was. *)
Theorem serialize_layout os (this : Scene.t) (w : World) avs evs :
  targets (asset_heap w) (Scene.assets this) = Some avs ->
  targets (entity_heap w) (Scene.entities this) = Some evs ->
  Scene.serialize os this w =
    Ok (os
        ++ write_uint64 (wrap64 (sum_Z (map asset_hash avs)
                                 + sum_Z (map ent_hash evs)))
        ++ write_string (SceneSettings.name (Scene.settings this))
        ++ write_handedness (SceneSettings.handedness (Scene.settings this))
        ++ write_float (SceneSettings.scale_factor (Scene.settings this))
        ++ write_assets avs ++ write_entities evs
        ++ write_constraints (Scene.constraints this)) w /\
  forall os2 (other : Scene.t) (w2 : World),
    Scene.settings other = Scene.settings this ->
    Scene.constraints other = Scene.constraints this ->
    targets (asset_heap w2) (Scene.assets other) = Some avs ->
    targets (entity_heap w2) (Scene.entities other) = Some evs ->
    exists bytes,
      Scene.serialize os this w = Ok (os ++ bytes) w /\
      Scene.serialize os2 other w2 = Ok (os2 ++ bytes) w2.
Proof.
  intros Ha He. split; [apply serialize_run; assumption|].
  intros os2 other w2 Hs Hc Ha2 He2.
  eexists. split; [apply serialize_run; eassumption|].
  rewrite (serialize_run os2 other w2 avs evs Ha2 He2), Hs, Hc. reflexivity.
Qed.

Lemma settings_read_back (st : SceneSettings.t) rest :
  reads_back write_string read_string (SceneSettings.name st) ->
  reads_back write_handedness read_handedness (SceneSettings.handedness st) ->
  reads_back write_float read_float (SceneSettings.scale_factor st) ->
  SceneSettings.deserialize
    (write_string (SceneSettings.name st)
     ++ write_handedness (SceneSettings.handedness st)
     ++ write_float (SceneSettings.scale_factor st) ++ rest) = (st, rest).
Proof.
  intros Hn Hh Hf. unfold SceneSettings.deserialize.
  rewrite Hn, Hh, Hf. destruct st; reflexivity.
Qed.

(** X9.  [SceneSettings::serialize] appends the name, the handedness and
    the scale factor to the stream, and [SceneSettings::deserialize]
    reads them back in the same order: on what was written, followed by
    anything, it returns the settings and leaves what follows, provided
    each of the three field encodings reads back what it wrote. *)
Theorem settings_roundtrip (st : SceneSettings.t) :
  reads_back write_string read_string (SceneSettings.name st) ->
  reads_back write_handedness read_handedness (SceneSettings.handedness st) ->
  reads_back write_float read_float (SceneSettings.scale_factor st) ->
  forall os rest,
    SceneSettings.serialize os st = os ++ SceneSettings.serialize [] st /\
    SceneSettings.deserialize (SceneSettings.serialize [] st ++ rest) = (st, rest).
Proof.
  intros Hn Hh Hf os rest. unfold SceneSettings.serialize. simpl.
  split; [rewrite <- !app_assoc; reflexivity|].
  rewrite <- !app_assoc. apply settings_read_back; assumption.
Qed.

Lemma read_members_exact ins (this : Scene.t) w :
  let st := fst (SceneSettings.deserialize ins) in
  let r1 := snd (SceneSettings.deserialize ins) in
  let avs := fst (read_assets r1) in
  let r2 := snd (read_assets r1) in
  let evs := fst (read_entities r2) in
  let r3 := snd (read_entities r2) in
  Scene.read_members ins this w =
    Ok (Scene.mk st
          (map Some (seq (length (asset_heap w)) (length avs)))
          (map Some (seq (length (entity_heap w)) (length evs)))
          (fst (read_constraints r3)) (Scene.scene_buffers this),
        snd (read_constraints r3))
       (mkWorld (entity_heap w ++ evs) (asset_heap w ++ avs) (error_log w)).
Proof.
  unfold Scene.read_members.
  destruct (SceneSettings.deserialize ins) as [st r1]. simpl.
  destruct (read_assets r1) as [avs r2]. simpl.
  unfold bind. rewrite map_m_alloc_asset.
  destruct (read_entities r2) as [evs r3]. simpl.
  rewrite map_m_alloc. simpl.
  destruct (read_constraints r3) as [cs r4]. reflexivity.
Qed.

Lemma for_each_pure {A S} (f : A -> S -> M S) l :
  (forall x r w1 r' w1', f x r w1 = Ok r' w1' -> w1' = w1) ->
  forall r0 wa r wb, for_each f l r0 wa = Ok r wb -> wb = wa.
Proof.
  intros Hf. induction l as [|x l IH]; intros r0 wa r wb Hrun.
  - inversion Hrun. reflexivity.
  - simpl in Hrun. apply bind_Ok in Hrun as (r1 & w1 & Hx & Hrun).
    apply Hf in Hx. subst w1. eapply IH; eauto.
Qed.

Lemma hash_pure (this : Scene.t) w h w' :
  Scene.hash this w = Ok h w' -> w' = w.
Proof.
  unfold Scene.hash. intros H.
  apply bind_Ok in H as (r1 & w1 & H1 & H2).
  apply for_each_pure in H1; [apply for_each_pure in H2; [congruence|]|].
  - intros x r w2 r' w2' Hx.
    apply bind_Ok in Hx as (v & w3 & Hd & Hx).
    apply deref_Ok in Hd as (l & _ & _ & ->). inversion Hx. reflexivity.
  - intros x r w2 r' w2' Hx.
    apply bind_Ok in Hx as (v & w3 & Hd & Hx).
    unfold deref_asset in Hd.
    destruct x as [l|]; [|discriminate].
    destruct (asset_heap w2 !! l); [|discriminate].
    inversion Hd; subst. inversion Hx. reflexivity.
Qed.

(** X10.  Whatever the stream holds, a [deserialize] that returns has
    replaced the receiver's assets, entities, constraints and settings by
    what it read and kept its buffers.  Every asset and entity of the
    scene is an object created by the call, each slot its own, in the
    order read; the objects that existed are unchanged, and nothing is
    logged. *)
Theorem deserialize_allocates (ins : stream) (this this' : Scene.t)
    (rest : stream) (w w' : World) :
  Scene.deserialize ins this w = Ok (this', rest) w' ->
  (exists evs,
      entity_heap w' = entity_heap w ++ evs /\
      Scene.entities this' =
        map Some (seq (length (entity_heap w)) (length evs))) /\
  (exists avs,
      asset_heap w' = asset_heap w ++ avs /\
      Scene.assets this' =
        map Some (seq (length (asset_heap w)) (length avs))) /\
  Scene.scene_buffers this' = Scene.scene_buffers this /\
  error_log w' = error_log w.
Proof.
  intros H. unfold Scene.deserialize in H.
  destruct (read_uint64 ins) as [stored r0].
  apply bind_Ok in H as (r & w1 & Hrm & H).
  rewrite read_members_exact in Hrm.
  inversion Hrm; subst r w1; clear Hrm.
  apply bind_Ok in H as (h & w2 & Hh & H).
  apply hash_pure in Hh. subst w2.
  destruct (negb _); [discriminate|].
  inversion H; subst this' rest w'; clear H. simpl.
  split; [eexists; split; reflexivity|].
  split; [eexists; split; reflexivity|]. split; reflexivity.
Qed.

(** X11.  Under the premises of the round trip (live pointers, field
    encodings that read back what they wrote for this scene), the scene
    that [create] builds from the bytes of [serialize] serializes to the
    same bytes again. *)
Theorem reserialize_stable (S : Scene.t) (w : World) avs evs :
  targets (asset_heap w) (Scene.assets S) = Some avs ->
  targets (entity_heap w) (Scene.entities S) = Some evs ->
  reads_back write_uint64 read_uint64
    (wrap64 (sum_Z (map asset_hash avs) + sum_Z (map ent_hash evs))) ->
  reads_back write_string read_string (SceneSettings.name (Scene.settings S)) ->
  reads_back write_handedness read_handedness
    (SceneSettings.handedness (Scene.settings S)) ->
  reads_back write_float read_float (SceneSettings.scale_factor (Scene.settings S)) ->
  reads_back write_assets read_assets avs ->
  reads_back write_entities read_entities evs ->
  reads_back write_constraints read_constraints (Scene.constraints S) ->
  exists bytes S' w',
    Scene.serialize [] S w = Ok bytes w /\
    Scene.create bytes w = Ok (S', []) w' /\
    Scene.serialize [] S' w' = Ok bytes w'.
Proof.
  intros Ha He Hu Hn Hh Hf Has Hes Hcs.
  set (h := wrap64 (sum_Z (map asset_hash avs) + sum_Z (map ent_hash evs))) in *.
  set (tail3 := write_assets avs ++ write_entities evs
                ++ write_constraints (Scene.constraints S) ++ []).
  set (tail2 := write_string (SceneSettings.name (Scene.settings S))
                ++ write_handedness (SceneSettings.handedness (Scene.settings S))
                ++ write_float (SceneSettings.scale_factor (Scene.settings S))
                ++ tail3).
  assert (Hser : forall (S0 : Scene.t) w0,
             Scene.settings S0 = Scene.settings S ->
             Scene.constraints S0 = Scene.constraints S ->
             targets (asset_heap w0) (Scene.assets S0) = Some avs ->
             targets (entity_heap w0) (Scene.entities S0) = Some evs ->
             Scene.serialize [] S0 w0 = Ok (write_uint64 h ++ tail2) w0).
  { intros S0 w0 Hs0 Hc0 Ha0 He0.
    rewrite (serialize_run [] S0 w0 avs evs Ha0 He0), Hs0, Hc0.
    subst tail2 tail3. rewrite app_nil_r. reflexivity. }
  pose proof (deserialize_run (write_uint64 h ++ tail2) Scene.empty w) as Hout.
  cbv zeta in Hout. unfold reads_back in Has, Hes, Hcs.
  rewrite (Hu tail2) in Hout. simpl fst in Hout. simpl snd in Hout.
  unfold tail2 in Hout at 1 2 3 4 5 6 7 8 9 10.
  rewrite settings_read_back in Hout by assumption.
  simpl fst in Hout. simpl snd in Hout. unfold tail3 in Hout.
  rewrite Has in Hout. simpl fst in Hout. simpl snd in Hout.
  rewrite Hes in Hout. simpl fst in Hout. simpl snd in Hout.
  rewrite Hcs in Hout. simpl fst in Hout. simpl snd in Hout.
  destruct Hout as (S' & w' & Hs & Hta & Hte & Hc & _ & Hd).
  fold h in Hd. rewrite Z.eqb_refl in Hd.
  exists (write_uint64 h ++ tail2), S', w'.
  split; [apply Hser; trivial|]. split; [exact Hd|].
  apply Hser; assumption.
Qed.
End Wire.

(** The stream of [persisted]: it begins with the hash, 70 in eight bytes. *)
Lemma serialize_layout_witness :
  exists bytes,
    Scene.serialize [Byte.x2a] persisted snapshots_world
      = Ok (Byte.x2a :: Example.put_uint 8 70 ++ bytes) snapshots_world.
Proof.
  destruct (serialize_layout [Byte.x2a] persisted snapshots_world
              [Example.asset AssetType.Texture [] 11;
               Example.asset AssetType.Material [] 31]
              [Example.entity 1 "/A" EntityType.Transform false [1; 2; 3];
               Example.entity 2 "/A/B" EntityType.Mesh false [4; 5];
               Example.entity 3 "/A/B/C" EntityType.Mesh true [7]]
              eq_refl eq_refl) as [Hrun _].
  eexists. rewrite Hrun. reflexivity.
Defined.

(** The settings of [persisted], written and read back. *)
Lemma settings_roundtrip_witness :
  SceneSettings.deserialize
    (SceneSettings.serialize [] (Scene.settings persisted) ++ [Byte.x2a])
  = (Scene.settings persisted, [Byte.x2a]).
Proof.
  apply (settings_roundtrip (Scene.settings persisted)).
  - intros rest. vm_compute. reflexivity.
  - intros rest. vm_compute. reflexivity.
  - intros rest. vm_compute. reflexivity.
  - exact [].
Defined.

(** Reading [persisted] back creates two assets and three entities behind
    the eight objects of the store. *)
Lemma deserialize_allocates_witness :
  exists this' w' evs,
    Scene.deserialize persisted_bytes receiver snapshots_world = Ok (this', []) w' /\
    entity_heap w' = entity_heap snapshots_world ++ evs /\
    Scene.entities this' = map Some (seq 6 (length evs)) /\
    Scene.scene_buffers this' = Scene.scene_buffers receiver.
Proof.
  assert (Hrun : exists this' w',
             Scene.deserialize persisted_bytes receiver snapshots_world
             = Ok (this', []) w')
    by (eexists _, _; vm_compute; reflexivity).
  destruct Hrun as (this' & w' & Hrun).
  destruct (deserialize_allocates _ _ _ _ _ _ Hrun)
    as ((evs & Hheap & Hents) & _ & Hbuf & _).
  exists this', w', evs. repeat split; assumption.
Defined.

(** [persisted], written, read and written again. *)
Lemma reserialize_stable_witness :
  exists S' w',
    Scene.create persisted_bytes snapshots_world = Ok (S', []) w' /\
    Scene.serialize [] S' w' = Ok persisted_bytes w'.
Proof.
  destruct (reserialize_stable persisted snapshots_world
              [Example.asset AssetType.Texture [] 11;
               Example.asset AssetType.Material [] 31]
              [Example.entity 1 "/A" EntityType.Transform false [1; 2; 3];
               Example.entity 2 "/A/B" EntityType.Mesh false [4; 5];
               Example.entity 3 "/A/B/C" EntityType.Mesh true [7]])
    as (bytes & S' & w' & Hser & Hcreate & Hre).
  - reflexivity.
  - reflexivity.
  - intros rest. vm_compute. reflexivity.
  - intros rest. vm_compute. reflexivity.
  - intros rest. vm_compute. reflexivity.
  - intros rest. vm_compute. reflexivity.
  - intros rest. vm_compute. reflexivity.
  - intros rest. vm_compute. reflexivity.
  - intros rest. vm_compute. reflexivity.
  - assert (Hb : bytes = persisted_bytes).
    { unfold persisted_bytes. rewrite Hser. reflexivity. }
    subst bytes. exists S', w'. split; assumption.
Defined.


(** * Identity mismatches in [diff] and [lerp] *)

Section Mismatch.
Context {D : Domain} {C : Collaborators} {SC : ScalarCodec} {CC : Codec}.

Lemma lerp_plan_log heap s1 s2 t_ idx :
  concat (map (fun i => action_log (lerp_plan heap s1 s2 t_ i)) idx) = [].
Proof.
  induction idx as [|i idx IH]; simpl; [reflexivity|].
  rewrite IH, app_nil_r. unfold lerp_plan, lerp_action.
  destruct (entity_at heap (Scene.entities s1) i) as [v1|]; [|reflexivity].
  destruct (entity_at heap (Scene.entities s2) i) as [v2|]; [|reflexivity].
  destruct (Z.eqb (Transform.id v1) (Transform.id v2)); [|reflexivity].
  destruct (isGeometry v1 && negb (Transform.constant_topology v1)); reflexivity.
Qed.

Lemma entity_at_lt heap ents i v :
  entity_at heap ents i = Some v -> (i < length ents)%nat.
Proof.
  unfold entity_at. destruct (ents !! i) eqn:E; [|discriminate].
  intros _. eapply lookup_lt_Some; eauto.
Qed.

(** X12.  [diff] into a scene that has just been cleared: the delta gets
    the settings and the entity count of the first snapshot, and where
    the identities at an index disagree its slot is a null pointer.  The
    delta then has no hash and cannot be serialized, since both
    dereference every slot. *)
Theorem diff_mismatch_leaves_null (s1 s2 r : Scene.t) (w : World) i v1 v2 :
  length (Scene.entities s1) = length (Scene.entities s2) ->
  ents_valid (entity_heap w) (Scene.entities s1) ->
  ents_valid (entity_heap w) (Scene.entities s2) ->
  entity_at (entity_heap w) (Scene.entities s1) i = Some v1 ->
  entity_at (entity_heap w) (Scene.entities s2) i = Some v2 ->
  Transform.id v1 <> Transform.id v2 ->
  exists delta w',
    Scene.diff s1 s2 (Scene.clear r) w = Ok delta w' /\
    Scene.settings delta = Scene.settings s1 /\
    length (Scene.entities delta) = length (Scene.entities s1) /\
    Scene.entities delta !! i = Some None /\
    Scene.hash delta w' = Undef /\
    (forall os, Scene.serialize os delta w' = Undef).
Proof.
  intros Hlen Hv1 Hv2 H1 H2 Hne.
  destruct (diff_spec s1 s2 (Scene.clear r) w Hlen Hv1 Hv2)
    as (delta & w' & Hrun & Hset & _ & _ & _ & Hn & _ & _ & _ & Hslot).
  pose proof (entity_at_lt _ _ _ _ H1) as Hi.
  specialize (Hslot i Hi). unfold diff_plan, diff_action in Hslot.
  rewrite H1, H2 in Hslot. apply Z.eqb_neq in Hne. rewrite Hne in Hslot.
  unfold slot_after in Hslot.
  change (Scene.entities (Scene.clear r)) with (@nil (option nat)) in Hslot.
  rewrite resize_nil, lookup_replicate_2 in Hslot by exact Hi.
  assert (Hnull : None ∈ Scene.entities delta)
    by (apply list_elem_of_lookup; exists i; exact Hslot).
  pose proof (hash_undef_null delta w' Hnull) as Hh.
  exists delta, w'. repeat (split; [assumption|]).
  intros os. unfold Scene.serialize, bind. rewrite Hh. reflexivity.
Qed.

(** X13.  [lerp] reports nothing: whatever the identities, the log after
    the call is the log before it.  Where the identities at an index
    disagree, the slot of the receiver is what it held (null where the
    receiver was shorter than the snapshots); the receiver gets the
    settings and the entity count of the first snapshot all the same. *)
Theorem lerp_mismatch_is_silent (s1 s2 this : Scene.t) (t_ : float) (w : World) :
  length (Scene.entities s1) = length (Scene.entities s2) ->
  ents_valid (entity_heap w) (Scene.entities s1) ->
  ents_valid (entity_heap w) (Scene.entities s2) ->
  exists this' w',
    Scene.lerp s1 s2 t_ this w = Ok this' w' /\
    error_log w' = error_log w /\
    Scene.settings this' = Scene.settings s1 /\
    length (Scene.entities this') = length (Scene.entities s1) /\
    forall i v1 v2,
      entity_at (entity_heap w) (Scene.entities s1) i = Some v1 ->
      entity_at (entity_heap w) (Scene.entities s2) i = Some v2 ->
      Transform.id v1 <> Transform.id v2 ->
      Scene.entities this' !! i =
        resize (length (Scene.entities s1)) None (Scene.entities this) !! i.
Proof.
  intros Hlen Hv1 Hv2.
  destruct (lerp_spec s1 s2 this t_ w Hlen Hv1 Hv2)
    as (this' & w' & Hrun & Hset & _ & _ & _ & Hn & _ & _ & Hlog & Hslot).
  rewrite lerp_plan_log, app_nil_r in Hlog.
  exists this', w'. repeat (split; [assumption|]).
  intros i v1 v2 H1 H2 Hne.
  pose proof (entity_at_lt _ _ _ _ H1) as Hi.
  specialize (Hslot i Hi). unfold lerp_plan, lerp_action in Hslot.
  rewrite H1, H2 in Hslot. apply Z.eqb_neq in Hne. rewrite Hne in Hslot.
  exact Hslot.
Qed.
End Mismatch.

(** The third entities of the two snapshots have different ids. *)
Lemma diff_mismatch_leaves_null_witness :
  exists delta w',
    Scene.diff snapshot1 snapshot2 (Scene.clear receiver) snapshots_world
      = Ok delta w' /\
    Scene.entities delta !! 2%nat = Some None /\
    Scene.hash delta w' = Undef.
Proof.
  destruct (diff_mismatch_leaves_null snapshot1 snapshot2 receiver snapshots_world
              2%nat
              (Example.entity 3 "/A/B/C" EntityType.Mesh true [7])
              (Example.entity 9 "/X" EntityType.Mesh true [8]))
    as (delta & w' & Hrun & _ & _ & Hslot & Hh & _).
  - reflexivity.
  - eexists. reflexivity.
  - eexists. reflexivity.
  - reflexivity.
  - reflexivity.
  - discriminate.
  - exists delta, w'. repeat split; assumption.
Defined.

(** [lerp] of the two snapshots into the receiver: its third slot keeps the
    pointer it held, and the log stays empty. *)
Lemma lerp_mismatch_is_silent_witness :
  exists this' w',
    Scene.lerp snapshot1 snapshot2 float_one receiver snapshots_world = Ok this' w' /\
    error_log w' = [] /\
    Scene.entities this' !! 2%nat = Some (Some 3%nat).
Proof.
  destruct (lerp_mismatch_is_silent snapshot1 snapshot2 receiver float_one
              snapshots_world)
    as (this' & w' & Hrun & Hlog & _ & _ & Hslot).
  - reflexivity.
  - eexists. reflexivity.
  - eexists. reflexivity.
  - exists this', w'. split; [exact Hrun|]. split; [exact Hlog|].
    apply (Hslot 2%nat (Example.entity 3 "/A/B/C" EntityType.Mesh true [7])
                 (Example.entity 9 "/X" EntityType.Mesh true [8]));
      [reflexivity|reflexivity|discriminate].
Defined.


(** * What [import] converts *)

Section ImportSlots.
Context {D : Domain} {C : Collaborators}.

(** X14.  [Scene::import] on a scene of live pointers, no two entity
    slots holding the same object, returns the scene with the settings
    reset (left-handed, scale factor 1, name kept) and converts in place:
    every entity the scene holds once, and every asset object once for
    each asset slot that points to it, the assets being converted by a
    sequential loop.  An entity the scene does not hold is unchanged.
    Nothing is logged. *)
Theorem import_converts_per_slot (cv : SceneImportSettings.t)
    (this : Scene.t) (w : World) :
  ents_valid (entity_heap w) (Scene.entities this) ->
  NoDup (Scene.entities this) ->
  is_Some (targets (asset_heap w) (Scene.assets this)) ->
  let converters := Scene.import_converters (Scene.settings this) cv in
  exists w',
    Scene.import cv this w = Ok (canonical this) w' /\
    Scene.entities (canonical this) = Scene.entities this /\
    Scene.assets (canonical this) = Scene.assets this /\
    (forall l, Some l ∈ Scene.entities this ->
        entity_heap w' !! l =
        Scene.import_entity cv converters <$> entity_heap w !! l) /\
    (forall l, Some l ∉ Scene.entities this ->
        entity_heap w' !! l = entity_heap w !! l) /\
    (forall l,
        asset_heap w' !! l =
        Nat.iter (slots_of (Scene.assets this) l)
                 (Scene.import_asset converters) <$> asset_heap w !! l) /\
    error_log w' = error_log w.
Proof.
  intros He Hnd Ha converters. eexists.
  split; [apply import_run; assumption|].
  split; [reflexivity|]. split; [reflexivity|].
  split; [|split].
  - intros l Hl. cbn [entity_heap].
    rewrite update_all_lookup, (slots_of_NoDup _ _ Hnd).
    rewrite bool_decide_eq_true_2 by exact Hl. reflexivity.
  - intros l Hl. cbn [entity_heap].
    rewrite update_all_lookup, (slots_of_NoDup _ _ Hnd).
    rewrite bool_decide_eq_false_2 by exact Hl.
    destruct (entity_heap w !! l); reflexivity.
  - split; [intros l; apply update_all_lookup|reflexivity].
Qed.

(** X24.  The entities are converted by parallel tasks, one for each
    slot, and the task of a mesh writes its refine settings.  So on a
    scene two of whose entity slots hold the same mesh, [Scene::import]
    has no defined result. *)
Theorem import_shared_mesh_races (cv : SceneImportSettings.t)
    (this : Scene.t) (w : World) (l : loc) (v : Transform.t) :
  (2 <= slots_of (Scene.entities this) l)%nat ->
  entity_heap w !! l = Some v ->
  Transform.type v = EntityType.Mesh ->
  Scene.import cv this w = Undef.
Proof.
  intros Hslots Hl Hmesh.
  unfold Scene.import. unfold bind at 1. unfold parallel_for_each.
  replace (existsb _ _) with true; [reflexivity|].
  symmetry. apply existsb_exists. exists (Some l). split.
  - destruct (decide (Some l ∈ Scene.entities this)) as [Hin|Hout];
      [apply list_elem_of_In; exact Hin|].
    apply occurrences_absent in Hout.
    change (occurrences (Some l) (Scene.entities this))
      with (slots_of (Scene.entities this) l) in Hout. lia.
  - unfold shared_write, Scene.import_writes. rewrite Hl, Hmesh.
    apply andb_true_iff. split.
    + rewrite !orb_true_iff. left. right. reflexivity.
    + apply Nat.ltb_lt. exact Hslots.
Qed.

(** X15.  Assets are converted in place, so an asset that two scenes
    hold is converted by the import of each: after the import of the
    first scene and then of the second, it is the second pipeline applied
    to the result of the first. *)
Theorem import_converts_shared_asset (cv1 cv2 : SceneImportSettings.t)
    (s1 s2 : Scene.t) (w : World) (l : loc) (a : Asset.t) :
  ents_valid (entity_heap w) (Scene.entities s1) ->
  ents_valid (entity_heap w) (Scene.entities s2) ->
  NoDup (Scene.entities s1) ->
  NoDup (Scene.entities s2) ->
  is_Some (targets (asset_heap w) (Scene.assets s1)) ->
  is_Some (targets (asset_heap w) (Scene.assets s2)) ->
  slots_of (Scene.assets s1) l = 1%nat ->
  slots_of (Scene.assets s2) l = 1%nat ->
  asset_heap w !! l = Some a ->
  exists w1 w2,
    Scene.import cv1 s1 w = Ok (canonical s1) w1 /\
    Scene.import cv2 s2 w1 = Ok (canonical s2) w2 /\
    asset_heap w2 !! l =
      Some (Scene.import_asset (Scene.import_converters (Scene.settings s2) cv2)
              (Scene.import_asset
                 (Scene.import_converters (Scene.settings s1) cv1) a)).
Proof.
  intros He1 He2 Hnd1 Hnd2 Ha1 Ha2 Hs1 Hs2 Hl.
  pose proof (import_run cv1 s1 w He1 Hnd1 Ha1) as Hrun1. cbv zeta in Hrun1.
  eexists _, _. split; [exact Hrun1|].
  split.
  - apply import_run; simpl.
    + unfold ents_valid.
      apply (targets_same_length (entity_heap w)); [apply update_all_length|exact He2].
    + exact Hnd2.
    + apply (targets_same_length (asset_heap w)); [apply update_all_length|exact Ha2].
  - simpl. rewrite !update_all_lookup, Hs1, Hs2, Hl. reflexivity.
Qed.
End ImportSlots.

(** A Z-up scene in centimetres that holds the first and the fourth
    entity: each is converted once, the others not at all. *)
Lemma import_converts_per_slot_witness :
  exists w',
    Scene.import (SceneImportSettings.mk 3 4 ZUpCorrectionMode.RotateX)
      zup_scene snapshots_world
    = Ok (canonical zup_scene) w' /\
    map Transform.data (entity_heap w') =
      [[-1; 3; -2]; [4; 5]; [7]; [-2; 6; -4]; [9; 9]; [8]].
Proof.
  destruct (import_converts_per_slot
              (SceneImportSettings.mk 3 4 ZUpCorrectionMode.RotateX)
              zup_scene snapshots_world)
    as (w' & Hrun & _).
  - eexists. reflexivity.
  - apply (bool_decide_unpack _). vm_compute. exact I.
  - eexists. reflexivity.
  - exists w'. split; [exact Hrun|].
    match type of Hrun with
    | ?lhs = ?rhs => assert (Hv : rhs = lhs) by (symmetry; exact Hrun)
    end.
    vm_compute in Hv. inversion Hv; subst w'; clear Hv. reflexivity.
Defined.

(** A scene that holds the second entity, a mesh, in two slots. *)
Lemma import_shared_mesh_races_witness :
  (2 <= slots_of [Some 1%nat; Some 3%nat; Some 1%nat] 1)%nat /\
  Scene.import split_by_3
    (Scene.set_entities [Some 1%nat; Some 3%nat; Some 1%nat] zup_scene)
    snapshots_world
  = Undef.
Proof.
  assert (H : (2 <= slots_of [Some 1%nat; Some 3%nat; Some 1%nat] 1)%nat)
    by (vm_compute; lia).
  split; [exact H|].
  apply (import_shared_mesh_races split_by_3
           (Scene.set_entities [Some 1%nat; Some 3%nat; Some 1%nat] zup_scene)
           snapshots_world 1%nat
           (Example.entity 2 "/A/B" EntityType.Mesh false [4; 5])).
  - exact H.
  - reflexivity.
  - reflexivity.
Defined.

(** The clip shared by a right-handed and a right-handed Z-up scene: its
    channel has the X axis flipped twice and Y and Z swapped once. *)
Lemma import_converts_shared_asset_witness :
  exists w1 w2,
    Scene.import split_by_3 clip_scene1 clip_world = Ok (canonical clip_scene1) w1 /\
    Scene.import split_by_3 clip_scene2 w1 = Ok (canonical clip_scene2) w2 /\
    asset_heap w2 !! 0%nat =
      Some (Example.asset AssetType.Animation
              [@Animation.mk Example.domain "/A" [1; 3; 2]] 5).
Proof.
  destruct (import_converts_shared_asset split_by_3 split_by_3
              clip_scene1 clip_scene2 clip_world 0%nat
              (Example.asset AssetType.Animation
                 [@Animation.mk Example.domain "/A" [1; 2; 3]] 5))
    as (w1 & w2 & Hrun1 & Hrun2 & Hl).
  - eexists. reflexivity.
  - eexists. reflexivity.
  - constructor.
  - constructor.
  - eexists. reflexivity.
  - eexists. reflexivity.
  - reflexivity.
  - reflexivity.
  - reflexivity.
  - exists w1, w2. split; [exact Hrun1|]. split; [exact Hrun2|exact Hl].
Defined.


(** * What [buildHierarchy] writes *)

Section HierarchyFrame.
Context {D : Domain} {C : Collaborators}.

(** X16.  On a scene of live, distinct entities with non-empty paths
    (and with [std::sort] sorting and [getParentPath] dropping the last
    segment), [Scene::buildHierarchy] returns the scene as it was and
    writes three members of each of its entities, nothing else: the
    parent, which is an entity of the same scene whose path is the
    entity's path without its last segment, or null when the scene has no
    such entity; the local matrix, which is [toMatrix] of the entity once
    the parent is set; and the global matrix, which is the local matrix
    for an entity without parent and otherwise the local matrix times the
    parent's global matrix.  Objects that are not entities of the scene,
    the assets and the log are unchanged. *)
Theorem hierarchy_links (this : Scene.t) (w : World) :
  sort_law -> parent_path_law ->
  ents_valid (entity_heap w) (Scene.entities this) ->
  NoDup (Scene.entities this) ->
  paths_nonempty (entity_heap w) (Scene.entities this) ->
  exists w',
    Scene.buildHierarchy this w = Ok this w' /\
    asset_heap w' = asset_heap w /\
    error_log w' = error_log w /\
    length (entity_heap w') = length (entity_heap w) /\
    (forall l, Some l ∉ Scene.entities this ->
               entity_heap w' !! l = entity_heap w !! l) /\
    forall l v0, Some l ∈ Scene.entities this -> entity_heap w !! l = Some v0 ->
      exists v2,
        entity_heap w' !! l = Some v2 /\
        v2 = Transform.set_global_matrix (Transform.global_matrix v2)
               (Transform.set_local_matrix (Transform.local_matrix v2)
                  (Transform.set_parent (Transform.parent v2) v0)) /\
        Transform.local_matrix v2 =
          toMatrix (Transform.set_parent (Transform.parent v2) v0) /\
        match Transform.parent v2 with
        | Some p =>
            Some p ∈ Scene.entities this /\
            (exists vp0, entity_heap w !! p = Some vp0 /\
                         Transform.path vp0 = parent_path (Transform.path v0)) /\
            (exists vp2, entity_heap w' !! p = Some vp2 /\
                         Transform.global_matrix v2 =
                           mat_mul (Transform.local_matrix v2)
                                   (Transform.global_matrix vp2))
        | None =>
            (forall q vq, Some q ∈ Scene.entities this ->
                          entity_heap w !! q = Some vq ->
                          Transform.path vq <> parent_path (Transform.path v0)) /\
            Transform.global_matrix v2 = Transform.local_matrix v2
        end.
Proof.
  intros Hsort Hlaw Hvalid Hnd Hne.
  destruct (buildHierarchy_spec this w Hsort Hlaw Hvalid Hnd Hne)
    as (w' & Hrun & Hspec).
  destruct (buildHierarchy_run this w Hsort Hlaw Hvalid Hnd Hne)
    as (w1 & w2 & Hrun' & Hvis1 & Hvis2 & _).
  rewrite Hrun in Hrun'. inversion Hrun'; subst w2; clear Hrun'.
  destruct Hvis1 as (Hlen1 & Ha1 & He1 & Hobj1).
  destruct Hvis2 as (Hlen2 & Ha2 & He2 & Hobj2).
  exists w'. split; [exact Hrun|].
  split; [congruence|]. split; [congruence|]. split; [congruence|].
  split.
  - intros l Hout.
    destruct (entity_heap w !! l) as [v0|] eqn:Hl.
    + pose proof (Hobj1 l v0 Hl) as Hl1.
      rewrite bool_decide_eq_false_2 in Hl1 by exact Hout.
      pose proof (Hobj2 l v0 Hl1) as Hl2.
      rewrite bool_decide_eq_false_2 in Hl2 by exact Hout. exact Hl2.
    + apply lookup_ge_None. apply lookup_ge_None in Hl. lia.
  - intros l v0 Hin Hl.
    destruct (Hspec l v0 Hin Hl) as (v2 & Hl2 & Hloc & Hpar).
    exists v2. split; [exact Hl2|]. split; [|split; assumption].
    pose proof (Hobj1 l v0 Hl) as Hl1.
    rewrite bool_decide_eq_true_2 in Hl1 by exact Hin.
    pose proof (Hobj2 l _ Hl1) as Hl2'.
    rewrite bool_decide_eq_true_2 in Hl2' by exact Hin.
    rewrite Hl2 in Hl2'. inversion Hl2' as [Hv2]. reflexivity.
Qed.
End HierarchyFrame.

(** The chain of three: the payload, the paths and the ids are what they
    were, and the middle entity has the root as its parent. *)
Lemma hierarchy_links_witness :
  exists w' vb,
    Scene.buildHierarchy chain_scene chain_world = Ok chain_scene w' /\
    entity_heap w' !! 2%nat = Some vb /\
    Transform.parent vb = Some 1%nat /\
    map Transform.path (entity_heap w') = ["/A/B/C"; "/A"; "/A/B"]%string /\
    map Transform.data (entity_heap w') = [matrix_C; matrix_A; matrix_B].
Proof.
  destruct (hierarchy_links chain_scene chain_world)
    as (w' & Hrun & _ & _ & _ & _ & Hobj).
  - exact example_sort_law.
  - intros v dst. reflexivity.
  - eexists. reflexivity.
  - apply (bool_decide_unpack _). vm_compute. exact I.
  - intros l v Hl Hv. simpl in Hl.
    repeat (apply elem_of_cons in Hl as [Hl|Hl]; [inversion Hl; subst l; clear Hl|]);
      [| | |inversion Hl];
      simpl in Hv; inversion Hv; subst; discriminate.
  - destruct (Hobj 2%nat (Example.entity 2 "/A/B" EntityType.Transform false matrix_B))
      as (vb & Hb & _).
    + apply (bool_decide_unpack _). vm_compute. exact I.
    + reflexivity.
    + exists w', vb. split; [exact Hrun|].
      assert (Hv : Ok chain_scene w' = Scene.buildHierarchy chain_scene chain_world)
        by (symmetry; exact Hrun).
      vm_compute in Hv. inversion Hv; subst w'; clear Hv.
      simpl in Hb. inversion Hb; subst vb. repeat split; reflexivity.
Defined.


(** * Typed queries *)

Section Queries.
Context {D : Domain} {C : Collaborators}.

Lemma getAssets_loop (is_a : Asset.t -> bool) ptrs acc w :
  (forall l, Some l ∈ ptrs -> is_Some (asset_heap w !! l)) ->
  for_each (fun asset ret_ =>
              match asset with
              | None => ret ret_
              | Some _ =>
                  v <- deref_asset asset ;;
                  if is_a v then ret (ret_ ++ [asset]) else ret ret_
              end) ptrs acc w
  = Ok (acc ++ List.filter (passes is_a (asset_heap w)) ptrs) w.
Proof.
  revert acc. induction ptrs as [|p ptrs IH]; intros acc Hlive; simpl.
  - rewrite app_nil_r. reflexivity.
  - assert (Hrest : forall l, Some l ∈ ptrs -> is_Some (asset_heap w !! l))
      by (intros l Hl; apply Hlive; right; exact Hl).
    destruct p as [l|].
    + destruct (Hlive l) as [v Hv]; [left|].
      unfold passes at 1. simpl target. rewrite Hv.
      unfold bind, deref_asset. rewrite Hv.
      destruct (is_a v); unfold ret.
      * rewrite IH by exact Hrest. rewrite <- app_assoc. reflexivity.
      * apply IH. exact Hrest.
    + unfold bind, ret. apply IH. exact Hrest.
Qed.

Lemma getEntities_loop (is_a : Transform.t -> bool) ptrs acc w :
  (forall l, Some l ∈ ptrs -> is_Some (entity_heap w !! l)) ->
  for_each (fun asset ret_ =>
              match asset with
              | None => ret ret_
              | Some _ =>
                  v <- deref asset ;;
                  if is_a v then ret (ret_ ++ [asset]) else ret ret_
              end) ptrs acc w
  = Ok (acc ++ List.filter (passes is_a (entity_heap w)) ptrs) w.
Proof.
  revert acc. induction ptrs as [|p ptrs IH]; intros acc Hlive; simpl.
  - rewrite app_nil_r. reflexivity.
  - assert (Hrest : forall l, Some l ∈ ptrs -> is_Some (entity_heap w !! l))
      by (intros l Hl; apply Hlive; right; exact Hl).
    destruct p as [l|].
    + destruct (Hlive l) as [v Hv]; [left|].
      unfold passes at 1. simpl target. rewrite Hv.
      unfold bind, deref. rewrite Hv.
      destruct (is_a v); unfold ret.
      * rewrite IH by exact Hrest. rewrite <- app_assoc. reflexivity.
      * apply IH. exact Hrest.
    + unfold bind, ret. apply IH. exact Hrest.
Qed.

(** X17.  [getAssets<T>] and [getEntities<T>] return, in the order of
    the scene, exactly the pointers that are not null and whose object
    passes the cast to [T]: a null slot is skipped, not dereferenced, and
    the store is left as it was. *)
Theorem typed_queries_filter (is_asset : Asset.t -> bool)
    (is_entity : Transform.t -> bool) (this : Scene.t) (w : World) :
  (forall l, Some l ∈ Scene.assets this -> is_Some (asset_heap w !! l)) ->
  (forall l, Some l ∈ Scene.entities this -> is_Some (entity_heap w !! l)) ->
  Scene.getAssets is_asset this w =
    Ok (List.filter (passes is_asset (asset_heap w)) (Scene.assets this)) w /\
  Scene.getEntities is_entity this w =
    Ok (List.filter (passes is_entity (entity_heap w)) (Scene.entities this)) w.
Proof.
  intros Ha He. split.
  - unfold Scene.getAssets. rewrite getAssets_loop by exact Ha. reflexivity.
  - unfold Scene.getEntities. rewrite getEntities_loop by exact He. reflexivity.
Qed.
End Queries.

(** The meshes of the receiver, whose last slot is null, and the textures
    among its assets. *)
Lemma typed_queries_filter_witness :
  Scene.getAssets (fun a => AssetType.eqb (Asset.type a) AssetType.Texture)
    (Scene.set_assets [Some 1%nat; None; Some 0%nat] receiver) snapshots_world
    = Ok [Some 0%nat] snapshots_world /\
  Scene.getEntities (fun e => EntityType.eqb (Transform.type e) EntityType.Mesh)
    (Scene.set_assets [Some 1%nat; None; Some 0%nat] receiver) snapshots_world
    = Ok [Some 5%nat; Some 4%nat] snapshots_world.
Proof.
  apply (typed_queries_filter
           (fun a => AssetType.eqb (Asset.type a) AssetType.Texture)
           (fun e => EntityType.eqb (Transform.type e) EntityType.Mesh)
           (Scene.set_assets [Some 1%nat; None; Some 0%nat] receiver)
           snapshots_world).
  - intros l Hl. apply list_elem_of_In in Hl. simpl in Hl.
    destruct Hl as [Hl|[Hl|[Hl|[]]]]; inversion Hl; subst l; eexists; reflexivity.
  - intros l Hl. apply list_elem_of_In in Hl. simpl in Hl.
    destruct Hl as [Hl|[Hl|[Hl|[Hl|[]]]]]; inversion Hl; subst l;
      eexists; reflexivity.
Defined.


(** * After [flatternHierarchy] *)

Section FlattenFacts.
Context {D : Domain} {C : Collaborators}.

(** The scene and the store [flatternHierarchy] leaves. *)
Lemma flatten_shape (this : Scene.t) (w : World) :
  ents_valid (entity_heap w) (Scene.entities this) ->
  NoDup (Scene.entities this) ->
  exists result w',
    Scene.flatternHierarchy this w =
      Ok (Scene.set_entities (map snd result) this) w' /\
    ents_valid (entity_heap w') (map snd result) /\
    NoDup (map snd result) /\
    paths_unique (entity_heap w') (map snd result) /\
    (forall l v, Some l ∈ map snd result -> entity_heap w' !! l = Some v ->
       exists k v0,
         Some l ∈ Scene.entities this /\
         entity_heap w !! l = Some v0 /\
         v = Transform.set_path ("/" ++ k) v0 /\
         Transform.type v0 <> EntityType.Transform /\
         named (entity_heap w) (map fst result) (k, Some l)).
Proof.
  intros Hvalid Hnd.
  destruct (flatten_run this w Hvalid Hnd)
    as (result & w' & Hrun & Hasc & Hnd' & _ & Hnamed & _ & Hdone & _).
  exists result, w'. split; [exact Hrun|].
  split.
  { apply targets_intro. intros p Hp.
    destruct (entry_of _ _ Hp) as [k Hin].
    destruct (Hdone k p Hin) as (l & v0 & -> & _ & _ & _ & Hl'). eauto. }
  split; [exact Hnd'|].
  split.
  { intros l l' v v' Hl Hl' Hv Hv' Hpath.
    destruct (entry_of _ _ Hl) as [k Hin].
    destruct (entry_of _ _ Hl') as [k' Hin'].
    destruct (Hdone k _ Hin) as (l1 & v0 & Heq & _ & _ & _ & Hw).
    destruct (Hdone k' _ Hin') as (l2 & v0' & Heq' & _ & _ & _ & Hw').
    inversion Heq; inversion Heq'; subst l1 l2.
    rewrite Hv in Hw. rewrite Hv' in Hw'.
    inversion Hw; inversion Hw'; subst v v'. simpl in Hpath.
    inversion Hpath; subst k'.
    pose proof (keys_ascend_functional _ _ _ _ Hasc Hin Hin') as Hsame.
    inversion Hsame. reflexivity. }
  intros l v Hl Hv.
  destruct (entry_of _ _ Hl) as [k Hin].
  destruct (Hdone k _ Hin) as (l1 & v0 & Heq & Hin0 & Hk & Hl0 & Hw).
  inversion Heq; subst l1. rewrite Hv in Hw. inversion Hw; subst v.
  exists k, v0. split; [exact Hin0|]. split; [exact Hl0|].
  split; [reflexivity|]. split.
  - unfold kept in Hk. simpl in Hk. rewrite Hl0 in Hk.
    intros Hty. rewrite Hty in Hk. discriminate.
  - rewrite Forall_forall in Hnamed. apply Hnamed. exact Hin.
Qed.

(** X18.  On a scene of live, distinct entities [flatternHierarchy]
    leaves a scene on which the other operations are defined and paths
    identify entities: every entity is live and occurs once, none is a
    [Transform] node, every path begins with "/", and no two entities
    have the same path, whatever the paths were before. *)
Theorem flatten_makes_paths_unique (this : Scene.t) (w : World) :
  ents_valid (entity_heap w) (Scene.entities this) ->
  NoDup (Scene.entities this) ->
  exists flat w',
    Scene.flatternHierarchy this w = Ok flat w' /\
    ents_valid (entity_heap w') (Scene.entities flat) /\
    NoDup (Scene.entities flat) /\
    paths_unique (entity_heap w') (Scene.entities flat) /\
    (forall l v, Some l ∈ Scene.entities flat -> entity_heap w' !! l = Some v ->
       Some l ∈ Scene.entities this /\
       Transform.type v <> EntityType.Transform /\
       exists k, Transform.path v = ("/" ++ k)%string).
Proof.
  intros Hvalid Hnd.
  destruct (flatten_shape this w Hvalid Hnd)
    as (result & w' & Hrun & Hv' & Hnd' & Hu & Hobj).
  eexists _, w'. split; [exact Hrun|]. simpl.
  repeat (split; [assumption|]).
  intros l v Hl Hv.
  destruct (Hobj l v Hl Hv) as (k & v0 & Hin & _ & -> & Hty & _).
  split; [exact Hin|]. split; [exact Hty|]. exists k. reflexivity.
Qed.

Lemma has_slash_app a b : has_slash (a ++ b) = has_slash a || has_slash b.
Proof.
  induction a as [|c a IH]; simpl; [reflexivity|].
  rewrite IH. apply orb_assoc.
Qed.

Lemma drop_last_segment_none s :
  has_slash s = false -> drop_last_segment s = None.
Proof.
  induction s as [|c s IH]; simpl; [reflexivity|].
  intros H. apply orb_false_iff in H as [Hc Hs].
  rewrite (IH Hs), Hc. reflexivity.
Qed.

Lemma parent_path_flat k :
  has_slash k = false -> parent_path ("/" ++ k) = EmptyString.
Proof.
  intros H. unfold parent_path. simpl.
  rewrite (drop_last_segment_none k H). reflexivity.
Qed.

Lemma hex_no_slash i : has_slash (hex i) = false.
Proof.
  unfold hex.
  assert (H : forall d, has_slash (NilEmpty.string_of_uint d) = false)
    by (induction d; simpl; trivial).
  destruct (Nat.to_hex_uint i); try apply H. reflexivity.
Qed.

(** X19.  Flattening flattens: when the names [getName] gives contain no
    path separator, [buildHierarchy] on the scene that
    [flatternHierarchy] leaves gives every entity no parent, and a global
    matrix equal to its local one. *)
Theorem flatten_then_hierarchy (this : Scene.t) (w : World) :
  sort_law -> parent_path_law ->
  ents_valid (entity_heap w) (Scene.entities this) ->
  NoDup (Scene.entities this) ->
  (forall l v dst, Some l ∈ Scene.entities this -> entity_heap w !! l = Some v ->
                   has_slash (getName v dst) = false) ->
  exists flat w1 w2,
    Scene.flatternHierarchy this w = Ok flat w1 /\
    Scene.buildHierarchy flat w1 = Ok flat w2 /\
    forall l, Some l ∈ Scene.entities flat ->
      exists v, entity_heap w2 !! l = Some v /\
                Transform.parent v = None /\
                Transform.global_matrix v = Transform.local_matrix v.
Proof.
  intros Hsort Hlaw Hvalid Hnd Hnames.
  destruct (flatten_shape this w Hvalid Hnd)
    as (result & w1 & Hrun & Hv1 & Hnd1 & _ & Hobj).
  set (flat := Scene.set_entities (map snd result) this) in *.
  assert (Hpath : forall l v, Some l ∈ Scene.entities flat ->
            entity_heap w1 !! l = Some v ->
            exists k, Transform.path v = ("/" ++ k)%string /\
                      has_slash k = false).
  { intros l v Hl Hv.
    destruct (Hobj l v Hl Hv) as (k & v0 & Hin & Hl0 & -> & _ & Hnamed).
    exists k. split; [reflexivity|].
    destruct Hnamed as (l' & v' & dst & Heq & Hl' & _ & Hk).
    simpl in Heq. inversion Heq; subst l'.
    rewrite Hl0 in Hl'. inversion Hl'; subst v'.
    destruct Hk as [Hk|(i & Hk & _)]; simpl in Hk; rewrite Hk.
    - eapply Hnames; eauto.
    - rewrite has_slash_app, hex_no_slash, orb_false_r. eapply Hnames; eauto. }
  assert (Hne1 : paths_nonempty (entity_heap w1) (Scene.entities flat)).
  { intros l v Hl Hv. destruct (Hpath l v Hl Hv) as (k & -> & _). discriminate. }
  destruct (buildHierarchy_spec flat w1 Hsort Hlaw Hv1 Hnd1 Hne1)
    as (w2 & Hrun2 & Hspec).
  exists flat, w1, w2. split; [exact Hrun|]. split; [exact Hrun2|].
  intros l Hl.
  destruct Hv1 as [vs Hvs].
  destruct (targets_elem _ _ _ _ Hvs Hl) as (l' & v1 & Heq & Hl1).
  inversion Heq; subst l'.
  destruct (Hspec l v1 Hl Hl1) as (v2 & Hl2 & _ & Hpar).
  exists v2. split; [exact Hl2|].
  destruct (Transform.parent v2) as [p|].
  - exfalso. destruct Hpar as (Hp & (vp0 & Hp1 & Hpp) & _).
    destruct (Hpath l v1 Hl Hl1) as (k & Hk & Hslash).
    rewrite Hk, (parent_path_flat k Hslash) in Hpp.
    exact (Hne1 p vp0 Hp Hp1 Hpp).
  - destruct Hpar as [_ Hg]. split; [reflexivity|exact Hg].
Qed.
End FlattenFacts.

(** The rooms and boxes: the flattened scene has three entities with three
    different paths. *)
Lemma flatten_makes_paths_unique_witness :
  exists flat w',
    Scene.flatternHierarchy boxes_scene boxes_world = Ok flat w' /\
    paths_unique (entity_heap w') (Scene.entities flat) /\
    length (Scene.entities flat) = 3%nat.
Proof.
  destruct (flatten_makes_paths_unique boxes_scene boxes_world)
    as (flat & w' & Hrun & _ & _ & Hu & _).
  - eexists. reflexivity.
  - apply (bool_decide_unpack _). vm_compute. exact I.
  - exists flat, w'. split; [exact Hrun|]. split; [exact Hu|].
    assert (Hv : Ok flat w' = Scene.flatternHierarchy boxes_scene boxes_world)
      by (symmetry; exact Hrun).
    vm_compute in Hv. inversion Hv; subst flat w'; clear Hv. reflexivity.
Defined.

(** The rooms and boxes, flattened and linked: the second box, now
    "/Box0", has no parent. *)
Lemma flatten_then_hierarchy_witness :
  exists flat w1 w2 v,
    Scene.flatternHierarchy boxes_scene boxes_world = Ok flat w1 /\
    Scene.buildHierarchy flat w1 = Ok flat w2 /\
    entity_heap w2 !! 3%nat = Some v /\
    Transform.path v = "/Box0"%string /\
    Transform.parent v = None.
Proof.
  destruct (flatten_then_hierarchy boxes_scene boxes_world)
    as (flat & w1 & w2 & Hrun1 & Hrun2 & Hobj).
  - exact example_sort_law.
  - intros v dst. reflexivity.
  - eexists. reflexivity.
  - apply (bool_decide_unpack _). vm_compute. exact I.
  - intros l v dst Hl Hv. apply list_elem_of_In in Hl. simpl in Hl.
    destruct Hl as [Hl|[Hl|[Hl|[Hl|[Hl|[]]]]]]; inversion Hl; subst l;
      simpl in Hv; inversion Hv; subst v; reflexivity.
  - assert (Hv : Ok flat w1 = Scene.flatternHierarchy boxes_scene boxes_world)
      by (symmetry; exact Hrun1).
    vm_compute in Hv. inversion Hv; subst flat w1; clear Hv.
    destruct (Hobj 3%nat) as (v & Hl & Hp & _).
    { apply (bool_decide_unpack _). vm_compute. exact I. }
    eexists _, _, w2, v. split; [exact Hrun1|]. split; [exact Hrun2|].
    split; [exact Hl|]. split; [|exact Hp].
    match type of Hrun2 with
    | ?lhs = Ok ?f w2 => assert (Hw : Ok f w2 = lhs) by (symmetry; exact Hrun2)
    end.
    vm_compute in Hw. inversion Hw; subst w2; clear Hw.
    simpl in Hl. inversion Hl; subst v. reflexivity.
Defined.


(** * The global matrix along a parent chain *)

Section ParentChain.
Context {D : Domain} {C : Collaborators}.

Lemma ancestors_functional heap v c1 :
  forall c2, ancestors heap v c1 -> ancestors heap v c2 -> c1 = c2.
Proof.
  revert v. induction c1 as [|p c1 IH]; intros v [|q c2] H1 H2; simpl in *.
  - reflexivity.
  - destruct H2 as [H2 _]. congruence.
  - destruct H1 as [H1 _]. congruence.
  - destruct H1 as (Hp & vp & Hvp & H1). destruct H2 as (Hq & vq & Hvq & H2).
    assert (p = q) by congruence. subst q.
    rewrite Hvp in Hvq. inversion Hvq; subst vq.
    f_equal. eapply IH; eauto.
Qed.

Lemma ancestors_suffix heap v r1 p r2 :
  ancestors heap v (r1 ++ p :: r2) ->
  exists vp, heap !! p = Some vp /\ ancestors heap vp r2.
Proof.
  revert v. induction r1 as [|q r1 IH]; intros v H; simpl in H.
  - destruct H as (_ & vp & Hvp & H). eauto.
  - destruct H as (_ & vq & _ & H). eapply IH; eauto.
Qed.

Lemma ancestors_live heap v chain p :
  ancestors heap v chain -> p ∈ chain -> (p < length heap)%nat.
Proof.
  intros H Hp. apply list_elem_of_split in Hp as (r1 & r2 & ->).
  destruct (ancestors_suffix _ _ _ _ _ H) as (vp & Hvp & _).
  eapply lookup_lt_Some; eauto.
Qed.

(** A chain that reaches a root passes through no entity twice. *)
Lemma ancestors_NoDup heap v chain :
  ancestors heap v chain -> NoDup chain.
Proof.
  revert v. induction chain as [|p rest IH]; intros v H; [constructor|].
  simpl in H. destruct H as (_ & vp & Hvp & H).
  constructor; [|eapply IH; eauto].
  intros Hin. apply list_elem_of_split in Hin as (r1 & r2 & Hrest).
  rewrite Hrest in H.
  destruct (ancestors_suffix _ _ _ _ _ H) as (vp' & Hvp' & H').
  rewrite Hvp in Hvp'. inversion Hvp'; subst vp'.
  pose proof (ancestors_functional _ _ _ _ H H') as Heq.
  apply (f_equal length) in Heq. rewrite length_app in Heq. simpl in Heq. lia.
Qed.

Lemma CalcGlobalMatrix_rec_chain heap chain :
  forall v fuel,
    ancestors heap v chain ->
    (length chain < fuel)%nat ->
    Scene.CalcGlobalMatrix_rec fuel heap v
    = Some (chain_product heap (Transform.local_matrix v) chain).
Proof.
  induction chain as [|p rest IH]; intros v fuel H Hfuel;
    (destruct fuel as [|fuel]; [simpl in Hfuel; lia|]); simpl in *.
  - rewrite H. reflexivity.
  - destruct H as (Hp & vp & Hvp & H). rewrite Hp, Hvp.
    rewrite (IH vp fuel H) by lia. reflexivity.
Qed.

Lemma CalcGlobalMatrix_rec_ancestors heap fuel :
  forall v m,
    Scene.CalcGlobalMatrix_rec fuel heap v = Some m ->
    exists chain, ancestors heap v chain.
Proof.
  induction fuel as [|fuel IH]; intros v m H; simpl in H; [discriminate|].
  destruct (Transform.parent v) as [p|] eqn:Hp.
  - destruct (heap !! p) as [vp|] eqn:Hvp; [|discriminate].
    destruct (Scene.CalcGlobalMatrix_rec fuel heap vp) as [mp|] eqn:Hmp;
      [|discriminate].
    destruct (IH vp mp Hmp) as [chain Hc].
    exists (p :: chain). simpl. split; [exact Hp|]. eauto.
  - exists []. exact Hp.
Qed.

(** X21.  [CalcGlobalMatrix] returns exactly when the parent pointers of
    the entity lead to an entity without parent.  The matrix is then the
    entity's local matrix times its parent's, times the grandparent's,
    and so on up to the root, the products nested to the right; the
    store is not changed.  When the parent chain runs into a dangling
    pointer or comes back to an entity, the function has no result. *)
Theorem CalcGlobalMatrix_chain (t_ : Transform.t) (w : World) :
  (forall chain,
      ancestors (entity_heap w) t_ chain ->
      Scene.CalcGlobalMatrix t_ w =
        Ok (chain_product (entity_heap w) (Transform.local_matrix t_) chain) w) /\
  ((forall chain, ~ ancestors (entity_heap w) t_ chain) ->
   Scene.CalcGlobalMatrix t_ w = Undef).
Proof.
  split.
  - intros chain H. unfold Scene.CalcGlobalMatrix.
    rewrite (CalcGlobalMatrix_rec_chain _ chain); [reflexivity|exact H|].
    assert (Hle : (length chain <= length (seq 0 (length (entity_heap w))))%nat).
    { apply submseteq_length. apply NoDup_submseteq.
      - eapply ancestors_NoDup; eauto.
      - intros p Hp. apply elem_of_seq. split; [lia|].
        simpl. eapply ancestors_live; eauto. }
    rewrite length_seq in Hle. lia.
  - intros Hnone. unfold Scene.CalcGlobalMatrix.
    destruct (Scene.CalcGlobalMatrix_rec _ _ _) as [m|] eqn:Hm; [|reflexivity].
    exfalso. destruct (CalcGlobalMatrix_rec_ancestors _ _ _ _ Hm) as [chain Hc].
    exact (Hnone chain Hc).
Qed.
End ParentChain.

(** The leaf of the linked chain: C times (B times A). *)
Lemma CalcGlobalMatrix_chain_witness :
  Scene.CalcGlobalMatrix (linked_entity 3 "/A/B/C" (Some 2%nat) matrix_C) linked_world
  = Ok (Example.mul local_C (Example.mul local_B local_A)) linked_world.
Proof.
  destruct (CalcGlobalMatrix_chain
              (linked_entity 3 "/A/B/C" (Some 2%nat) matrix_C) linked_world)
    as [Hchain _].
  rewrite (Hchain [2%nat; 1%nat]).
  - reflexivity.
  - simpl. split; [reflexivity|]. eexists. split; [reflexivity|].
    simpl. split; [reflexivity|]. eexists. split; reflexivity.
Defined.


(** * What the validation hash covers *)

Section Coverage.
Context {D : Domain} {C : Collaborators} {SC : ScalarCodec} {CC : Codec}.

(** X22.  The validation hash is computed from the assets and the
    entities only.  So when, in the stream that [serialize] writes for a
    scene, the bytes of the settings and of the constraints are replaced
    by the encodings of other settings and other constraints,
    [deserialize] accepts the stream and returns a scene with those
    settings and constraints (the field encodings reading back what they
    wrote). *)
Theorem hash_does_not_cover_settings (S : Scene.t) (w : World) avs evs
    (st' : SceneSettings.t) (cs' : list Constraint) :
  targets (asset_heap w) (Scene.assets S) = Some avs ->
  targets (entity_heap w) (Scene.entities S) = Some evs ->
  reads_back write_uint64 read_uint64
    (wrap64 (sum_Z (map asset_hash avs) + sum_Z (map ent_hash evs))) ->
  reads_back write_string read_string (SceneSettings.name st') ->
  reads_back write_handedness read_handedness (SceneSettings.handedness st') ->
  reads_back write_float read_float (SceneSettings.scale_factor st') ->
  reads_back write_assets read_assets avs ->
  reads_back write_entities read_entities evs ->
  reads_back write_constraints read_constraints cs' ->
  let h := write_uint64 (wrap64 (sum_Z (map asset_hash avs)
                                 + sum_Z (map ent_hash evs))) in
  Scene.serialize [] S w =
    Ok (h ++ SceneSettings.serialize [] (Scene.settings S)
          ++ write_assets avs ++ write_entities evs
          ++ write_constraints (Scene.constraints S)) w /\
  exists S' w',
    Scene.deserialize
      (h ++ SceneSettings.serialize [] st'
         ++ write_assets avs ++ write_entities evs ++ write_constraints cs')
      Scene.empty w = Ok (S', []) w' /\
    Scene.settings S' = st' /\
    Scene.constraints S' = cs' /\
    targets (asset_heap w') (Scene.assets S') = Some avs /\
    targets (entity_heap w') (Scene.entities S') = Some evs.
Proof.
  intros Ha He Hu Hn Hh Hf Has Hes Hcs h.
  split.
  { rewrite (serialize_run [] S w avs evs Ha He).
    unfold SceneSettings.serialize. simpl. rewrite <- !app_assoc. reflexivity. }
  set (tail3 := write_assets avs ++ write_entities evs
                ++ write_constraints cs' ++ []).
  set (tail2 := write_string (SceneSettings.name st')
                ++ write_handedness (SceneSettings.handedness st')
                ++ write_float (SceneSettings.scale_factor st')
                ++ tail3).
  assert (Hbytes : h ++ SceneSettings.serialize [] st'
                     ++ write_assets avs ++ write_entities evs
                     ++ write_constraints cs' = h ++ tail2).
  { subst tail2 tail3. unfold SceneSettings.serialize. simpl.
    rewrite app_nil_r, <- !app_assoc. reflexivity. }
  rewrite Hbytes.
  pose proof (deserialize_run (h ++ tail2) Scene.empty w) as Hout.
  cbv zeta in Hout. unfold reads_back in Has, Hes, Hcs.
  unfold h in Hout. rewrite (Hu tail2) in Hout.
  simpl fst in Hout. simpl snd in Hout.
  assert (E1 : SceneSettings.deserialize tail2 = (st', tail3))
    by (apply settings_read_back; assumption).
  rewrite E1 in Hout. simpl fst in Hout. simpl snd in Hout.
  unfold tail3 in Hout.
  rewrite Has in Hout. simpl fst in Hout. simpl snd in Hout.
  rewrite Hes in Hout. simpl fst in Hout. simpl snd in Hout.
  rewrite Hcs in Hout. simpl fst in Hout. simpl snd in Hout.
  destruct Hout as (S' & w' & Hs & Hta & Hte & Hc & _ & Hd).
  rewrite Z.eqb_refl in Hd.
  exists S', w'. repeat split; assumption.
Qed.
End Coverage.

(** The stream of [persisted] with the settings of a new scene and no
    constraint in place of its own: it is read without complaint. *)
Lemma hash_does_not_cover_settings_witness :
  exists S' w',
    Scene.deserialize
      (Example.put_uint 8 70
       ++ SceneSettings.serialize [] SceneSettings.default
       ++ write_assets [Example.asset AssetType.Texture [] 11;
                        Example.asset AssetType.Material [] 31]
       ++ write_entities [Example.entity 1 "/A" EntityType.Transform false [1; 2; 3];
                          Example.entity 2 "/A/B" EntityType.Mesh false [4; 5];
                          Example.entity 3 "/A/B/C" EntityType.Mesh true [7]]
       ++ write_constraints [])
      Scene.empty snapshots_world = Ok (S', []) w' /\
    Scene.settings S' = SceneSettings.default /\
    Scene.settings S' <> Scene.settings persisted.
Proof.
  destruct (hash_does_not_cover_settings persisted snapshots_world
              [Example.asset AssetType.Texture [] 11;
               Example.asset AssetType.Material [] 31]
              [Example.entity 1 "/A" EntityType.Transform false [1; 2; 3];
               Example.entity 2 "/A/B" EntityType.Mesh false [4; 5];
               Example.entity 3 "/A/B/C" EntityType.Mesh true [7]]
              SceneSettings.default [])
    as (_ & S' & w' & Hrun & Hs & _).
  - reflexivity.
  - reflexivity.
  - intros rest. vm_compute. reflexivity.
  - intros rest. vm_compute. reflexivity.
  - intros rest. vm_compute. reflexivity.
  - intros rest. vm_compute. reflexivity.
  - intros rest. vm_compute. reflexivity.
  - intros rest. vm_compute. reflexivity.
  - intros rest. vm_compute. reflexivity.
  - exists S', w'. split; [exact Hrun|]. split; [exact Hs|].
    rewrite Hs. discriminate.
Defined.


(** * Flattening twice *)

Section FlattenTwice.
Context {D : Domain} {C : Collaborators}.

Lemma drop_last_segment_none_inv s :
  drop_last_segment s = None -> has_slash s = false.
Proof.
  induction s as [|c s IH]; simpl; [reflexivity|].
  destruct (drop_last_segment s); [discriminate|].
  destruct (Ascii.eqb c "/"); [discriminate|].
  intros _. apply IH. reflexivity.
Qed.

Lemma last_segment_no_slash s : has_slash (last_segment s) = false.
Proof.
  induction s as [|c s IH]; simpl; [reflexivity|].
  destruct (drop_last_segment s) eqn:Hd; [exact IH|].
  apply drop_last_segment_none_inv in Hd.
  destruct (Ascii.eqb c "/") eqn:Hc; [exact Hd|].
  simpl. rewrite Hc, Hd. reflexivity.
Qed.

Lemma last_segment_flat k :
  has_slash k = false -> last_segment ("/" ++ k) = k.
Proof.
  intros H. simpl. rewrite (drop_last_segment_none k H). reflexivity.
Qed.

Lemma keys_ascend_middle (pre : StringMap.t) x post :
  keys_ascend (pre ++ x :: post) ->
  Forall (fun kv => str_lt (fst kv) (fst x) = true) pre.
Proof.
  unfold keys_ascend. induction pre as [|y pre IH]; simpl; intros H.
  - constructor.
  - apply StronglySorted_inv in H as [Hs Hall]. constructor.
    + rewrite Forall_forall in Hall. apply (Hall x).
      apply elem_of_app. right. left.
    + apply IH. exact Hs.
Qed.

(** A key above all keys goes to the end of the map. *)
Lemma insert_last k v (m : StringMap.t) :
  Forall (fun kv => str_lt (fst kv) k = true) m ->
  StringMap.insert k v m = m ++ [(k, v)].
Proof.
  induction 1 as [|[k' v'] m Hlt _ IH]; simpl; [reflexivity|].
  simpl in Hlt.
  destruct (String.eqb_spec k k') as [->|Hne].
  - rewrite str_lt_irrefl in Hlt. discriminate.
  - destruct (str_lt k k') eqn:Hkk.
    + pose proof (str_lt_trans _ _ _ Hkk Hlt) as Hbad.
      rewrite str_lt_irrefl in Hbad. discriminate.
    + rewrite IH. reflexivity.
Qed.

Lemma below_not_key k (m : StringMap.t) :
  Forall (fun kv => str_lt (fst kv) k = true) m -> k ∉ map fst m.
Proof.
  intros Hall Hin. apply list_elem_of_fmap in Hin as (kv & -> & Hkv).
  rewrite Forall_forall in Hall. specialize (Hall _ Hkv).
  rewrite str_lt_irrefl in Hall. discriminate.
Qed.

(** The first loop on entities that arrive in the order of their names. *)
Lemma reinsert_run w (post : StringMap.t) :
  forall (pre : StringMap.t) name0,
    keys_ascend (pre ++ post) ->
    (forall k p, (k, p) ∈ post ->
       exists l v, p = Some l /\ entity_heap w !! l = Some v /\
                   Transform.type v <> EntityType.Transform /\
                   forall dst, getName v dst = k) ->
    exists name,
      for_each Scene.flatten_insert (map snd post) (pre, name0) w
      = Ok (pre ++ post, name) w.
Proof.
  induction post as [|[k p] post IH]; intros pre name0 Hasc Hobj;
    cbn [map snd for_each].
  - exists name0. rewrite app_nil_r. reflexivity.
  - destruct (Hobj k p) as (l & v & -> & Hl & Hty & Hname); [left|].
    pose proof (keys_ascend_middle _ _ _ Hasc) as Hbelow. simpl in Hbelow.
    assert (Hstep : Scene.flatten_insert (Some l) (pre, name0) w
                    = Ok (pre ++ [(k, Some l)], k) w).
    { unfold Scene.flatten_insert, bind, deref. rewrite Hl.
      destruct (EntityType.eqb (Transform.type v) EntityType.Transform) eqn:Heq.
      - apply EntityType_eqb_eq in Heq. contradiction.
      - simpl. rewrite Hname.
        assert (Hvac : StringMap.vacant k pre = true).
        { unfold StringMap.vacant.
          destruct (StringMap.find k pre) as [q|] eqn:Hf; [|reflexivity].
          apply find_keys in Hf. exfalso.
          exact (below_not_key _ _ Hbelow Hf). }
        rewrite Hvac. unfold ret. rewrite (insert_last _ _ _ Hbelow).
        reflexivity. }
    rewrite (bind_run _ _ _ _ _ Hstep).
    destruct (IH (pre ++ [(k, Some l)]) k) as [name Hrun].
    + rewrite <- app_assoc. exact Hasc.
    + intros k' p' Hin. apply Hobj. right. exact Hin.
    + exists name. cbv beta. etransitivity; [exact Hrun|].
      rewrite <- app_assoc. reflexivity.
Qed.

(** The second loop on entities that have the path it assigns. *)
Lemma reemit_run w (result : StringMap.t) :
  forall ents,
    (forall k p, (k, p) ∈ result ->
       exists l v, p = Some l /\ entity_heap w !! l = Some v /\
                   Transform.path v = ("/" ++ k)%string) ->
    for_each Scene.flatten_emit result ents w = Ok (ents ++ map snd result) w.
Proof.
  induction result as [|[k p] result IH]; intros ents Hobj;
    cbn [map snd for_each].
  - rewrite app_nil_r. reflexivity.
  - destruct (Hobj k p) as (l & v & -> & Hl & Hp); [left|].
    assert (Hstep : Scene.flatten_emit (k, Some l) ents w = Ok (ents ++ [Some l]) w).
    { unfold Scene.flatten_emit, bind, deref. cbn [fst snd]. rewrite Hl.
      unfold Scene.store_at, store. rewrite Hl. unfold ret. f_equal.
      rewrite <- Hp, set_path_same, list_insert_id by exact Hl.
      destruct w; reflexivity. }
    rewrite (bind_run _ _ _ _ _ Hstep). cbv beta.
    etransitivity; [apply IH|].
    + intros k' p' Hin. apply Hobj. right. exact Hin.
    + rewrite <- app_assoc. reflexivity.
Qed.

(** X23.  Flattening is idempotent when the name of an entity is the
    last segment of its path: [flatternHierarchy] on the scene and store
    that [flatternHierarchy] has left returns the same scene and leaves
    the store as it is. *)
Theorem flatten_twice (this : Scene.t) (w : World) :
  (forall v dst, getName v dst = last_segment (Transform.path v)) ->
  ents_valid (entity_heap w) (Scene.entities this) ->
  NoDup (Scene.entities this) ->
  exists flat w1,
    Scene.flatternHierarchy this w = Ok flat w1 /\
    Scene.flatternHierarchy flat w1 = Ok flat w1.
Proof.
  intros Hname Hvalid Hnd.
  destruct (flatten_run this w Hvalid Hnd)
    as (result & w1 & Hrun & Hasc & _ & _ & Hnamed & _ & Hdone & _).
  eexists _, w1. split; [exact Hrun|].
  assert (Hobj : forall k p, (k, p) ∈ result ->
            exists l v, p = Some l /\ entity_heap w1 !! l = Some v /\
                        Transform.path v = ("/" ++ k)%string /\
                        Transform.type v <> EntityType.Transform /\
                        forall dst, getName v dst = k).
  { intros k p Hin.
    destruct (Hdone k p Hin) as (l & v0 & -> & _ & Hk & Hl0 & Hl1).
    exists l. eexists. split; [reflexivity|]. split; [exact Hl1|].
    split; [reflexivity|]. split.
    - simpl. unfold kept in Hk. simpl in Hk. rewrite Hl0 in Hk.
      intros Hty. rewrite Hty in Hk. discriminate.
    - intros dst. rewrite Hname. simpl Transform.path.
      apply last_segment_flat.
      rewrite Forall_forall in Hnamed.
      destruct (Hnamed _ Hin) as (l' & v' & dst' & _ & _ & _ & Hkey).
      simpl in Hkey. rewrite Hname in Hkey.
      destruct Hkey as [->|(i & -> & _)].
      + apply last_segment_no_slash.
      + rewrite has_slash_app, hex_no_slash, last_segment_no_slash.
        reflexivity. }
  unfold Scene.flatternHierarchy. simpl Scene.entities.
  destruct (reinsert_run w1 result [] ""%string) as [name Hrun1].
  - exact Hasc.
  - intros k p Hin.
    destruct (Hobj k p Hin) as (l & v & -> & Hl & _ & Hty & Hn).
    exists l, v. split; [reflexivity|]. split; [exact Hl|].
    split; [exact Hty|exact Hn].
  - rewrite (bind_run _ _ _ _ _ Hrun1). simpl fst.
    assert (Hrun2 : for_each Scene.flatten_emit result [] w1
                    = Ok ([] ++ map snd result) w1).
    { apply reemit_run. intros k p Hin.
      destruct (Hobj k p Hin) as (l & v & -> & Hl & Hp & _).
      exists l, v. split; [reflexivity|]. split; [exact Hl|exact Hp]. }
    rewrite (bind_run _ _ _ _ _ Hrun2). reflexivity.
Qed.
End FlattenTwice.

(** The rooms and boxes, flattened twice. *)
Lemma flatten_twice_witness :
  exists flat w1,
    Scene.flatternHierarchy boxes_scene boxes_world = Ok flat w1 /\
    Scene.flatternHierarchy flat w1 = Ok flat w1 /\
    flat <> boxes_scene /\ w1 <> boxes_world.
Proof.
  destruct (flatten_twice boxes_scene boxes_world)
    as (flat & w1 & Hrun1 & Hrun2).
  - intros v dst. reflexivity.
  - eexists. reflexivity.
  - apply (bool_decide_unpack _). vm_compute. exact I.
  - exists flat, w1. split; [exact Hrun1|]. split; [exact Hrun2|].
    assert (Hv : Ok flat w1 = Scene.flatternHierarchy boxes_scene boxes_world)
      by (symmetry; exact Hrun1).
    vm_compute in Hv. inversion Hv; subst flat w1; clear Hv.
    split; discriminate.
Defined.
